(** * ALGEBRA_UMG_PROYECTO: exact and floating-point linear algebra

    The engines of the calculator (fraction.ts, gaussianElimination.ts,
    laplaceExpansion.ts and the exact cofactor and Gauss-Jordan classes) as
    Rocq functions, and the properties of them that are proved.

    A [number] is an IEEE-754 binary64 value, computed with the operations
    of [SpecFloat]. A [throw] is [None]. A loop whose bound is not its
    counter takes fuel. *)

From Stdlib Require Import ZArith Lia Znumtheory.
From Stdlib.Floats Require Import SpecFloat.
From HB Require Import structures.
From mathcomp Require Import boot order.
From mathcomp Require Import ssralg ssrnum ssrint rat matrix binnums perm.
From mathcomp Require Import ring_tactic field_tactic.

Set Implicit Arguments.
Unset Strict Implicit.
Unset Printing Implicit Defensive.

(* Binary integers of the Standard Library: [%bZ]; [%Z] is MathComp's [int]. *)
Delimit Scope Z_scope with bZ.

(** * Error monad: a [throw] of the source is [None] *)

Definition bind {A B : Type} (x : option A) (f : A -> option B) : option B :=
  match x with
  | Some a => f a
  | None => None
  end.

Notation "x <- e ;; k" := (bind e (fun x => k))
  (at level 61, e at next level, right associativity).
Notation "' p <- e ;; k" := (bind e (fun p => k))
  (at level 61, p pattern, e at next level, right associativity).

(** [mapM f s]: [s.map(f)] when [f] may throw. *)
Fixpoint mapM {A B : Type} (f : A -> option B) (s : seq A) : option (seq B) :=
  match s with
  | [::] => Some [::]
  | a :: s' => b <- f a ;; bs <- mapM f s' ;; Some (b :: bs)
  end.

(** [foldM f s acc]: a [for] loop over [s] whose body [f] may throw. *)
Fixpoint foldM {A S : Type} (f : S -> A -> option S) (s : seq A) (acc : S)
  : option S :=
  match s with
  | [::] => Some acc
  | a :: s' => acc' <- f acc a ;; foldM f s' acc'
  end.

(** * JavaScript numbers: IEEE-754 binary64 *)

Module JS.

Open Scope Z_scope.

Definition number := spec_float.

Definition prec : Z := 53.
Definition emax : Z := 1024.

Definition add : number -> number -> number := SFadd prec emax.
Definition sub : number -> number -> number := SFsub prec emax.
Definition mul : number -> number -> number := SFmul prec emax.
Definition div : number -> number -> number := SFdiv prec emax.
Definition neg : number -> number := SFopp.
(** [Math.abs] *)
Definition abs : number -> number := SFabs.
(** [a < b], [a > b], [a === b] on numbers *)
Definition lt (a b : number) : bool := SFltb a b.
Definition gt (a b : number) : bool := SFltb b a.
Definition ge (a b : number) : bool := SFleb b a.
Definition eq (a b : number) : bool := SFeqb a b.

(** An integer literal or integer-valued number. *)
Definition ofZ (z : Z) : number := binary_normalize prec emax z 0 false.

(** The power of two [2^e]. *)
Definition pow2 (e : Z) : number := binary_normalize prec emax 1 e false.

Definition zero : number := S754_zero false.
Definition one : number := Eval vm_compute in ofZ 1.
Definition Infinity : number := S754_infinity false.

(** The literal [1e-10]: the double nearest to 10^-10. *)
Definition tol : number := Eval vm_compute in div (ofZ 1) (ofZ (10 ^ 10)).

(** [Math.floor], as the integer it denotes; [None] on NaN and infinities. *)
Definition floorZ (x : number) : option Z :=
  match x with
  | S754_zero _ => Some 0
  | S754_finite s m e => Some (Z.shiftl (cond_Zopp s (Zpos m)) e)
  | _ => None
  end.

(** [Math.floor] as a number. Below 2^53 the integer is written with
    exponent 0; it is only ever subtracted from [x], and [SFsub] aligns the
    exponents of its arguments, so the way it is written does not matter. *)
Definition floor (x : number) : number :=
  match x with
  | S754_finite s m e =>
    if 0 <=? e then x
    else match Z.shiftl (cond_Zopp s (Zpos m)) e with
         | Z0 => S754_zero s
         | Zpos p => S754_finite false p 0
         | Zneg p => S754_finite true p 0
         end
  | _ => x
  end.

(** [Number.isInteger] *)
Definition isInteger (x : number) : bool :=
  match x with
  | S754_zero _ => true
  | S754_finite _ m e => Z.eqb (Z.shiftl (Z.shiftl (Zpos m) e) (- e)) (Zpos m)
  | _ => false
  end.

(** [Number.isFinite] *)
Definition isFinite (x : number) : bool :=
  match x with
  | S754_zero _ | S754_finite _ _ _ => true
  | _ => false
  end.

(** [Math.abs(x) < 1e-10], the near-zero test of the floating engines. *)
Definition nearZero (x : number) : bool := lt (abs x) tol.

(** [Math.pow(-1, k)] for a natural exponent. *)
Definition pow_neg1 (k : nat) : number := if odd k then neg one else one.

End JS.

Close Scope Z_scope.

(** * fraction.ts: class Fraction *)

(** The two fields are numbers that hold integers. They are integers here:
    what the source computes as long as the numerators, the denominators
    and the products formed from them stay among the safe integers (below
    2^53 in magnitude), where the arithmetic of numbers is exact. *)
Record Fraction := mkFraction { numerator : Z; denominator : Z }.

Module Frac.

Open Scope Z_scope.

(** [gcd(a, b) = b === 0 ? a : gcd(b, a % b)], called on absolute values.
    The second argument at least halves every two calls, so the depth is at
    most twice its bit length. *)
Fixpoint gcd_rec (fuel : nat) (a b : Z) : Z :=
  match fuel with
  | O => a
  | S fuel' => if b =? 0 then a else gcd_rec fuel' b (Z.rem a b)
  end.

Definition gcd (a b : Z) : Z :=
  gcd_rec (2 * Z.to_nat (Z.log2 b + 1) + 1) a b.

(** [new Fraction(numerator, denominator)] *)
Definition new (numerator denominator : Z) : option Fraction :=
  if denominator =? 0 then None
  else
    let g := gcd (Z.abs numerator) (Z.abs denominator) in
    let num := Z.quot numerator g in
    let den := Z.quot denominator g in
    if den <? 0 then Some (mkFraction (- num) (- den))
    else Some (mkFraction num den).

Definition add (this other : Fraction) : option Fraction :=
  let newNum := numerator this * denominator other
                + numerator other * denominator this in
  let newDen := denominator this * denominator other in
  new newNum newDen.

Definition subtract (this other : Fraction) : option Fraction :=
  let newNum := numerator this * denominator other
                - numerator other * denominator this in
  let newDen := denominator this * denominator other in
  new newNum newDen.

Definition multiply (this other : Fraction) : option Fraction :=
  new (numerator this * numerator other)
      (denominator this * denominator other).

Definition divide (this other : Fraction) : option Fraction :=
  if numerator other =? 0 then None
  else new (numerator this * denominator other)
           (denominator this * numerator other).

Definition toDecimal (this : Fraction) : JS.number :=
  JS.div (JS.ofZ (numerator this)) (JS.ofZ (denominator this)).

Definition isInteger (this : Fraction) : bool := denominator this =? 1.
Definition isZero (this : Fraction) : bool := numerator this =? 0.

Definition abs (this : Fraction) : option Fraction :=
  new (Z.abs (numerator this)) (denominator this).

Definition negate (this : Fraction) : option Fraction :=
  new (- numerator this) (denominator this).

Definition equals (this other : Fraction) : bool :=
  (numerator this =? numerator other)
  && (denominator this =? denominator other).


Definition clone (this : Fraction) : option Fraction :=
  new (numerator this) (denominator this).

(** ** Fraction.fromDecimal *)

(** The loop variables of the continued-fraction expansion. *)
Record cf_state := mkCf { h1 : Z; h2 : Z; k1 : Z; k2 : Z; x : JS.number }.

Variant cf_outcome :=
  | CfBreak (h k : Z)        (* [break]: k1 > maxDenominator *)
  | CfExit (h k : Z)         (* the [while] condition is false *)
  | CfContinue (st : cf_state)
  | CfStuck.                 (* [x] is NaN or infinite: not modelled *)

(** One pass through the body of the [do ... while], then its condition.
    [a] is [Math.floor(x)]; the convergents are computed on integers. *)
Definition cf_iter (decimal : JS.number) (maxDenominator : Z) (st : cf_state)
  : cf_outcome :=
  match JS.floorZ (x st) with
  | None => CfStuck
  | Some a =>
    let h1' := a * h1 st + h2 st in
    let h2' := h1 st in
    let k1' := a * k1 st + k2 st in
    let k2' := k1 st in
    if k1' >? maxDenominator then CfBreak h1' k1'
    else
      let x' := JS.div JS.one (JS.sub (x st) (JS.floor (x st))) in
      if JS.gt (JS.abs (JS.sub decimal (JS.div (JS.ofZ h1') (JS.ofZ k1'))))
               JS.tol
         && ~~ JS.eq x' JS.Infinity
      then CfContinue (mkCf h1' h2' k1' k2' x')
      else CfExit h1' k1'
  end.

Fixpoint cf_loop (fuel : nat) (decimal : JS.number) (maxDenominator : Z)
  (st : cf_state) : option (Z * Z) :=
  match fuel with
  | O => None
  | S fuel' =>
    match cf_iter decimal maxDenominator st with
    | CfBreak h k | CfExit h k => Some (h, k)
    | CfContinue st' => cf_loop fuel' decimal maxDenominator st'
    | CfStuck => None
    end
  end.

Definition cf_init (decimal : JS.number) : cf_state := mkCf 1 0 0 1 decimal.

(** Iterations granted to the loop; the denominators grow by at least one
    per iteration from the third on, so the loop has left by then. *)
Definition cf_fuel (maxDenominator : Z) : nat := (Z.to_nat maxDenominator + 3)%nat.

Definition fromDecimal_max (decimal : JS.number) (maxDenominator : Z)
  : option Fraction :=
  if JS.eq decimal JS.zero then new 0 1
  else
    let sign := if JS.lt decimal JS.zero then -1 else 1 in
    let decimal := JS.abs decimal in
    if JS.isInteger decimal then
      a <- JS.floorZ decimal ;; new (sign * a) 1
    else
      '(h, k) <- cf_loop (cf_fuel maxDenominator) decimal maxDenominator
                         (cf_init decimal) ;;
      new (sign * h) k.

(** [maxDenominator] defaults to 10000. *)
Definition fromDecimal (decimal : JS.number) : option Fraction :=
  fromDecimal_max decimal 10000.

End Frac.

Close Scope Z_scope.

(** * Matrices: arrays of rows *)

Definition Matrix := seq (seq JS.number).
Definition Vector := seq JS.number.
Definition FractionMatrix := seq (seq Fraction).
Definition FractionVector := seq Fraction.


(** Reading [matrix[i][j]]. Indices are in range for the n x n and
    n x (n+1) matrices the entry points are given; out of range a number
    reads as [NaN] and a Fraction as one on which every operation throws. *)
Definition nget (matrix : Matrix) (i j : nat) : JS.number :=
  nth S754_nan (nth [::] matrix i) j.

Definition noFraction : Fraction := mkFraction 0 0.

Definition fget (matrix : FractionMatrix) (i j : nat) : Fraction :=
  nth noFraction (nth [::] matrix i) j.

(** [s.filter((_, index) => index !== k)] *)
Definition filter_index {T : Type} (k : nat) (s : seq T) : seq T :=
  take k s ++ drop k.+1 s.

(** [[result[a], result[b]] = [result[b], result[a]]] *)
Definition swap_index {T : Type} (x0 : T) (s : seq T) (a b : nat) : seq T :=
  set_nth x0 (set_nth x0 s a (nth x0 s b)) b (nth x0 s a).

(** ** types/matrix: Solution *)

Record Solution := mkSolution {
  variables : seq JS.number;
  fractionVariables : option (seq Fraction);
  determinant : option JS.number;
  fractionDeterminant : option Fraction;
  isUnique : bool;
  hasInfiniteSolutions : bool;
  hasNoSolution : bool
}.

Variant axis := row_axis | column_axis.

(** The result of the optimal-axis selectors. *)
Record expansion := mkExpansion {
  exp_type : axis;
  exp_index : nat;
  zeroCount : Z
}.

(** A [for] loop of either selector: [counts i] is the number of zeros the
    inner loop finds on line [i] of kind [t]. *)
Definition scanAxes (t : axis) (counts : nat -> nat) (n : nat)
  (best : expansion) : expansion :=
  foldl (fun best i =>
           let zeros := Z.of_nat (counts i) in
           if Z.gtb zeros (zeroCount best) then mkExpansion t i zeros
           else best)
        best (iota 0 n).

(** * matrixMath.ts: class MatrixMath *)

Module MatrixMath.

Definition cloneMatrix (matrix : Matrix) : Matrix :=
  [seq [seq v | v <- row] | row <- matrix].

Definition swapRows (matrix : Matrix) (row1 row2 : nat) : Matrix :=
  swap_index [::] (cloneMatrix matrix) row1 row2.

(** Column j of the target row is read and written in iteration j only. *)
Definition addRowMultiple (matrix : Matrix) (targetRow sourceRow : nat)
  (multiplier : JS.number) : Matrix :=
  let result := cloneMatrix matrix in
  let cols := size (nth [::] matrix 0) in
  set_nth [::] result targetRow
    [seq JS.add (nget result targetRow j)
                (JS.mul (nget result sourceRow j) multiplier)
    | j <- iota 0 cols].

Definition findPivot (matrix : Matrix) (startRow col : nat) : nat :=
  let init := (startRow, JS.abs (nget matrix startRow col)) in
  (foldl (fun '(maxRow, maxValue) i =>
            let value := JS.abs (nget matrix i col) in
            if JS.gt value maxValue then (i, value) else (maxRow, maxValue))
         init (iota startRow.+1 (size matrix - startRow.+1))).1.

Definition getMinor (matrix : Matrix) (excludeRow excludeCol : nat) : Matrix :=
  [seq filter_index excludeCol row | row <- filter_index excludeRow matrix].

Definition createAugmentedMatrix (coefficientMatrix : Matrix)
  (constantVector : Vector) : Matrix :=
  [seq rcons (nth [::] coefficientMatrix i) (nth S754_nan constantVector i)
  | i <- iota 0 (size coefficientMatrix)].

Definition createIdentityMatrix (size : nat) : Matrix :=
  [seq [seq (if i == j then JS.one else JS.zero) | j <- iota 0 size]
  | i <- iota 0 size].

End MatrixMath.

(** * fraction.ts: class FractionMatrixUtils *)

Module FractionMatrixUtils.

Definition fromNumberMatrix (matrix : Matrix) : option FractionMatrix :=
  mapM (mapM Frac.fromDecimal) matrix.

Definition fromNumberVector (vector : Vector) : option FractionVector :=
  mapM Frac.fromDecimal vector.

Definition toNumberMatrix (matrix : FractionMatrix) : Matrix :=
  [seq [seq Frac.toDecimal f | f <- row] | row <- matrix].

Definition toNumberVector (vector : FractionVector) : Vector :=
  [seq Frac.toDecimal f | f <- vector].

Definition createAugmentedMatrix (coeffMatrix : FractionMatrix)
  (constants : FractionVector) : FractionMatrix :=
  [seq rcons (nth [::] coeffMatrix i) (nth noFraction constants i)
  | i <- iota 0 (size coeffMatrix)].

Definition cloneMatrix (matrix : FractionMatrix) : option FractionMatrix :=
  mapM (mapM Frac.clone) matrix.

Definition cloneVector (vector : FractionVector) : option FractionVector :=
  mapM Frac.clone vector.

Definition swapRows (matrix : FractionMatrix) (row1 row2 : nat)
  : option FractionMatrix :=
  result <- cloneMatrix matrix ;;
  Some (swap_index [::] result row1 row2).

(** Column j of the target row is read and written in iteration j only. *)
Definition addRowMultiple (matrix : FractionMatrix) (targetRow sourceRow : nat)
  (multiplier : Fraction) : option FractionMatrix :=
  result <- cloneMatrix matrix ;;
  let cols := size (nth [::] matrix 0) in
  newRow <- mapM (fun j =>
                    product <- Frac.multiply (fget result sourceRow j)
                                             multiplier ;;
                    Frac.add (fget result targetRow j) product)
                 (iota 0 cols) ;;
  Some (set_nth [::] result targetRow newRow).

Definition findPivot (matrix : FractionMatrix) (startRow col : nat)
  : option nat :=
  maxValue0 <- Frac.abs (fget matrix startRow col) ;;
  r <- foldM (fun '(maxRow, maxValue) i =>
                value <- Frac.abs (fget matrix i col) ;;
                if ~~ Frac.isZero value
                   && (Frac.isZero maxValue
                       || JS.gt (Frac.toDecimal value)
                                (Frac.toDecimal maxValue))
                then Some (i, value) else Some (maxRow, maxValue))
             (iota startRow.+1 (size matrix - startRow.+1))
             (startRow, maxValue0) ;;
  Some r.1.


Definition createIdentityMatrix (size : nat) : option FractionMatrix :=
  mapM (fun i => mapM (fun j => Frac.new (if i == j then 1%bZ else 0%bZ) 1)
                      (iota 0 size))
       (iota 0 size).

End FractionMatrixUtils.

(** * laplaceExpansion.ts: class LaplaceExpansion (floating point) *)

Module LaplaceExpansion.

Definition zerosInRow (matrix : Matrix) (n i : nat) : nat :=
  count JS.nearZero [seq nget matrix i j | j <- iota 0 n].

Definition zerosInColumn (matrix : Matrix) (n j : nat) : nat :=
  count JS.nearZero [seq nget matrix i j | i <- iota 0 n].

Definition findOptimalExpansionRowOrColumn (matrix : Matrix) : expansion :=
  let n := size matrix in
  let best := mkExpansion row_axis 0 0 in
  let best := scanAxes row_axis (zerosInRow matrix n) n best in
  scanAxes column_axis (zerosInColumn matrix n) n best.

Definition det2 (matrix : Matrix) : JS.number :=
  JS.sub (JS.mul (nget matrix 0 0) (nget matrix 1 1))
         (JS.mul (nget matrix 0 1) (nget matrix 1 0)).

(** [expandByRow] and [expandByColumn]; every recursive call is on a minor,
    [fuel] bounds the depth and [None] is a recursion that does not end. *)
Fixpoint expandByRow (fuel : nat) (matrix : Matrix) (row : nat)
  : option JS.number :=
  match fuel with
  | O => None
  | S fuel' =>
    let n := size matrix in
    if n == 1 then Some (nget matrix 0 0)
    else if n == 2 then Some (det2 matrix)
    else
      foldM (fun determinant j =>
               if JS.nearZero (nget matrix row j) then Some determinant
               else
                 let minor := MatrixMath.getMinor matrix row j in
                 let sign := JS.pow_neg1 (row + j) in
                 minorDet <- expandByRow fuel' minor
                   (exp_index (findOptimalExpansionRowOrColumn minor)) ;;
                 let cofactor := JS.mul sign minorDet in
                 let contribution := JS.mul (nget matrix row j) cofactor in
                 Some (JS.add determinant contribution))
            (iota 0 n) JS.zero
  end.

Fixpoint expandByColumn (fuel : nat) (matrix : Matrix) (col : nat)
  : option JS.number :=
  match fuel with
  | O => None
  | S fuel' =>
    let n := size matrix in
    if n == 1 then Some (nget matrix 0 0)
    else if n == 2 then Some (det2 matrix)
    else
      foldM (fun determinant i =>
               if JS.nearZero (nget matrix i col) then Some determinant
               else
                 let minor := MatrixMath.getMinor matrix i col in
                 let sign := JS.pow_neg1 (i + col) in
                 minorDet <- expandByColumn fuel' minor
                   (exp_index (findOptimalExpansionRowOrColumn minor)) ;;
                 let cofactor := JS.mul sign minorDet in
                 let contribution := JS.mul (nget matrix i col) cofactor in
                 Some (JS.add determinant contribution))
            (iota 0 n) JS.zero
  end.

(** The [determinant] field of the result. *)
Definition calculateDeterminant (matrix : Matrix) : option JS.number :=
  let optimal := findOptimalExpansionRowOrColumn matrix in
  match exp_type optimal with
  | row_axis => expandByRow (size matrix).+1 matrix (exp_index optimal)
  | column_axis => expandByColumn (size matrix).+1 matrix (exp_index optimal)
  end.

(** The [solution] field of the result. *)
Definition solveByCramersRule (coefficientMatrix : Matrix)
  (constantVector : Vector) : option Solution :=
  let n := size coefficientMatrix in
  mainDeterminant <- calculateDeterminant coefficientMatrix ;;
  if JS.nearZero mainDeterminant then
    Some (mkSolution [::] None (Some mainDeterminant) None false true false)
  else
    variables <- mapM (fun i =>
        let modifiedMatrix :=
          [seq [seq (if colIndex == i then nth S754_nan constantVector rowIndex
                     else nget coefficientMatrix rowIndex colIndex)
               | colIndex <- iota 0 (size (nth [::] coefficientMatrix rowIndex))]
          | rowIndex <- iota 0 n] in
        variableDeterminant <- calculateDeterminant modifiedMatrix ;;
        Some (JS.div variableDeterminant mainDeterminant))
      (iota 0 n) ;;
    Some (mkSolution variables None (Some mainDeterminant) None
                     true false false).

End LaplaceExpansion.

(** * class LaplaceExpansionFractions *)

Module LaplaceExpansionFractions.

Definition getMinorFraction (matrix : FractionMatrix)
  (excludeRow excludeCol : nat) : FractionMatrix :=
  [seq filter_index excludeCol row | row <- filter_index excludeRow matrix].

Definition zerosInRow (matrix : FractionMatrix) (n i : nat) : nat :=
  count Frac.isZero [seq fget matrix i j | j <- iota 0 n].

Definition zerosInColumn (matrix : FractionMatrix) (n j : nat) : nat :=
  count Frac.isZero [seq fget matrix i j | i <- iota 0 n].

Definition findOptimalExpansionRowOrColumn (matrix : FractionMatrix)
  : expansion :=
  let n := size matrix in
  let best := mkExpansion row_axis 0 (-1)%bZ in
  let best := scanAxes row_axis (zerosInRow matrix n) n best in
  scanAxes column_axis (zerosInColumn matrix n) n best.

Definition det2 (matrix : FractionMatrix) : option Fraction :=
  term1 <- Frac.multiply (fget matrix 0 0) (fget matrix 1 1) ;;
  term2 <- Frac.multiply (fget matrix 0 1) (fget matrix 1 0) ;;
  Frac.subtract term1 term2.

(** [new Fraction(Math.pow(-1, k), 1)] *)
Definition signFraction (k : nat) : option Fraction :=
  Frac.new (if odd k then (-1)%bZ else 1%bZ) 1.

(** The minors of [expandByRow] are expanded along their first row. *)
Fixpoint expandByRow (fuel : nat) (matrix : FractionMatrix) (row : nat)
  : option Fraction :=
  match fuel with
  | O => None
  | S fuel' =>
    let n := size matrix in
    if n == 1 then Frac.clone (fget matrix 0 0)
    else if n == 2 then det2 matrix
    else
      zero <- Frac.new 0 1 ;;
      foldM (fun determinant j =>
               if Frac.isZero (fget matrix row j) then Some determinant
               else
                 let minor := getMinorFraction matrix row j in
                 sign <- signFraction (row + j) ;;
                 minorDet <- expandByRow fuel' minor 0 ;;
                 cofactor <- Frac.multiply sign minorDet ;;
                 contribution <- Frac.multiply (fget matrix row j) cofactor ;;
                 Frac.add determinant contribution)
            (iota 0 n) zero
  end.

(** The minors of [expandByColumn] are expanded along the column whose
    index the selector returns, whatever the type it returns. *)
Fixpoint expandByColumn (fuel : nat) (matrix : FractionMatrix) (col : nat)
  : option Fraction :=
  match fuel with
  | O => None
  | S fuel' =>
    let n := size matrix in
    if n == 1 then Frac.clone (fget matrix 0 0)
    else if n == 2 then det2 matrix
    else
      zero <- Frac.new 0 1 ;;
      foldM (fun determinant i =>
               if Frac.isZero (fget matrix i col) then Some determinant
               else
                 let minor := getMinorFraction matrix i col in
                 sign <- signFraction (i + col) ;;
                 minorDet <- expandByColumn fuel' minor
                   (exp_index (findOptimalExpansionRowOrColumn minor)) ;;
                 cofactor <- Frac.multiply sign minorDet ;;
                 contribution <- Frac.multiply (fget matrix i col) cofactor ;;
                 Frac.add determinant contribution)
            (iota 0 n) zero
  end.

(** The expansion of an exact matrix, after the conversion of the input. *)
Definition determinantOf (fractionMatrix : FractionMatrix) : option Fraction :=
  let optimal := findOptimalExpansionRowOrColumn fractionMatrix in
  match exp_type optimal with
  | row_axis =>
      expandByRow (size fractionMatrix).+1 fractionMatrix (exp_index optimal)
  | column_axis =>
      expandByColumn (size fractionMatrix).+1 fractionMatrix (exp_index optimal)
  end.

(** The [fractionDeterminant] field of the result; [determinant] is its
    [toDecimal()]. *)
Definition calculateDeterminant (matrix : Matrix) : option Fraction :=
  fractionMatrix <- FractionMatrixUtils.fromNumberMatrix matrix ;;
  determinantOf fractionMatrix.

Definition solveByCramersRule (coefficientMatrix : Matrix)
  (constantVector : Vector) : option Solution :=
  let n := size coefficientMatrix in
  fractionMatrix <- FractionMatrixUtils.fromNumberMatrix coefficientMatrix ;;
  fractionConstants <- FractionMatrixUtils.fromNumberVector constantVector ;;
  mainDeterminant <- calculateDeterminant coefficientMatrix ;;
  if Frac.isZero mainDeterminant then
    Some (mkSolution [::] None (Some (Frac.toDecimal mainDeterminant))
                     (Some mainDeterminant) false true false)
  else
    variables <- mapM (fun i =>
        modifiedMatrix <-
          mapM (fun rowIndex =>
                  mapM (fun colIndex =>
                          if colIndex == i
                          then Some (nth noFraction fractionConstants rowIndex)
                          else Frac.clone (fget fractionMatrix rowIndex colIndex))
                       (iota 0 (size (nth [::] fractionMatrix rowIndex))))
               (iota 0 (size fractionMatrix)) ;;
        variableDeterminant <-
          calculateDeterminant
            (FractionMatrixUtils.toNumberMatrix modifiedMatrix) ;;
        Frac.divide variableDeterminant mainDeterminant)
      (iota 0 n) ;;
    Some (mkSolution (FractionMatrixUtils.toNumberVector variables)
                     (Some variables)
                     (Some (Frac.toDecimal mainDeterminant))
                     (Some mainDeterminant) true false false).

End LaplaceExpansionFractions.

(** * gaussianElimination.ts: class GaussianElimination (floating point) *)

Module GaussianElimination.

(** [Math.abs(v) > 1e-10] *)
Definition nonZero (v : JS.number) : bool := JS.gt (JS.abs v) JS.tol.

Definition backSubstitution (augmentedMatrix : Matrix) : Solution :=
  let n := size augmentedMatrix in
  let allZeros i := ~~ has (fun j => nonZero (nget augmentedMatrix i j))
                           (iota 0 n) in
  if has (fun i => allZeros i && nonZero (nget augmentedMatrix i n)) (iota 0 n)
  then mkSolution [::] None None None false false true
  else
    let rank := count (fun i => ~~ allZeros i) (iota 0 n) in
    if rank < n then mkSolution [::] None None None false true false
    else
      let variables :=
        foldl (fun variables i =>
                 let sum :=
                   foldl (fun sum j =>
                            JS.sub sum (JS.mul (nget augmentedMatrix i j)
                                               (nth S754_nan variables j)))
                         (nget augmentedMatrix i n)
                         (iota i.+1 (n - i.+1)) in
                 set_nth S754_nan variables i
                         (JS.div sum (nget augmentedMatrix i i)))
              (nseq n JS.zero) (rev (iota 0 n)) in
      mkSolution variables None None None true false false.

(** The rows below the pivot row [i]; the inner loop updates row [j] in
    place, column [k] being read and written in iteration [k] only. *)
Definition eliminateBelow (n i : nat) (augmentedMatrix : Matrix) : Matrix :=
  foldl (fun augmentedMatrix j =>
           let factor := JS.div (JS.neg (nget augmentedMatrix j i))
                                (nget augmentedMatrix i i) in
           if JS.gt (JS.abs factor) JS.tol then
             set_nth [::] augmentedMatrix j
               [seq JS.add (nget augmentedMatrix j k)
                           (JS.mul factor (nget augmentedMatrix i k))
               | k <- iota 0 n.+1]
           else augmentedMatrix)
        augmentedMatrix (iota i.+1 (n - i.+1)).

Definition forwardElimination (n : nat) (augmentedMatrix : Matrix) : Matrix :=
  foldl (fun augmentedMatrix i =>
           let pivotRow := MatrixMath.findPivot augmentedMatrix i i in
           if JS.nearZero (nget augmentedMatrix pivotRow i) then augmentedMatrix
           else
             let augmentedMatrix :=
               if pivotRow != i
               then MatrixMath.swapRows augmentedMatrix i pivotRow
               else augmentedMatrix in
             eliminateBelow n i augmentedMatrix)
        augmentedMatrix (iota 0 (n - 1)).

(** The [solution] field of the result. *)
Definition solve (coefficientMatrix : Matrix) (constantVector : Vector)
  : Solution :=
  let n := size coefficientMatrix in
  let augmentedMatrix :=
    MatrixMath.createAugmentedMatrix coefficientMatrix constantVector in
  backSubstitution (forwardElimination n augmentedMatrix).

(** The state of the elimination loop of [calculateDeterminant]. *)
Record detState := mkDetState { workingMatrix : Matrix; swapCount : nat }.

Definition detEliminateBelow (n i : nat) (workingMatrix : Matrix) : Matrix :=
  foldl (fun workingMatrix j =>
           let factor := JS.div (JS.neg (nget workingMatrix j i))
                                (nget workingMatrix i i) in
           if JS.gt (JS.abs factor) JS.tol
           then MatrixMath.addRowMultiple workingMatrix j i factor
           else workingMatrix)
        workingMatrix (iota i.+1 (n - i.+1)).

(** The forward loop; [inl d] is the early [return] with determinant [d]. *)
Definition detForward (n : nat) (st : detState) : JS.number + detState :=
  foldl (fun acc i =>
           match acc with
           | inl d => inl d
           | inr st =>
             let pivotRow := MatrixMath.findPivot (workingMatrix st) i i in
             if JS.nearZero (nget (workingMatrix st) pivotRow i)
             then inl JS.zero
             else
               let st :=
                 if pivotRow != i
                 then mkDetState
                        (MatrixMath.swapRows (workingMatrix st) i pivotRow)
                        (swapCount st).+1
                 else st in
               inr (mkDetState (detEliminateBelow n i (workingMatrix st))
                               (swapCount st))
           end)
        (inr st) (iota 0 (n - 1)).

(** The [determinant] field of the result. *)
Definition calculateDeterminant (matrix : Matrix) : JS.number :=
  let n := size matrix in
  match detForward n (mkDetState (MatrixMath.cloneMatrix matrix) 0) with
  | inl d => d
  | inr st =>
    let determinant :=
      foldl (fun determinant i =>
               JS.mul determinant (nget (workingMatrix st) i i))
            JS.one (iota 0 n) in
    if odd (swapCount st) then JS.mul determinant (JS.neg JS.one)
    else determinant
  end.

End GaussianElimination.

(** * class GaussianEliminationFractions *)

Module GaussianEliminationFractions.

Definition backSubstitution (augmentedMatrix : FractionMatrix)
  : option Solution :=
  let n := size augmentedMatrix in
  let allZeros i := ~~ has (fun j => ~~ Frac.isZero (fget augmentedMatrix i j))
                           (iota 0 n) in
  if has (fun i => allZeros i && ~~ Frac.isZero (fget augmentedMatrix i n))
         (iota 0 n)
  then Some (mkSolution [::] None None None false false true)
  else
    let rank := count (fun i => ~~ allZeros i) (iota 0 n) in
    if rank < n then Some (mkSolution [::] None None None false true false)
    else
      variables <-
        foldM (fun variables i =>
                 sum0 <- Frac.clone (fget augmentedMatrix i n) ;;
                 sum <- foldM (fun sum j =>
                                 product <- Frac.multiply
                                              (fget augmentedMatrix i j)
                                              (nth noFraction variables j) ;;
                                 Frac.subtract sum product)
                              (iota i.+1 (n - i.+1)) sum0 ;;
                 v <- Frac.divide sum (fget augmentedMatrix i i) ;;
                 Some (set_nth noFraction variables i v))
              (rev (iota 0 n)) (nseq n noFraction) ;;
      Some (mkSolution (FractionMatrixUtils.toNumberVector variables)
                       (Some variables) None None true false false).

(** The rows below the pivot row [i], shared by [solve] and
    [calculateDeterminant]. *)
Definition eliminateBelow (n i : nat) (matrix : FractionMatrix)
  : option FractionMatrix :=
  foldM (fun matrix j =>
           if ~~ Frac.isZero (fget matrix j i) then
             negated <- Frac.negate (fget matrix j i) ;;
             factor <- Frac.divide negated (fget matrix i i) ;;
             FractionMatrixUtils.addRowMultiple matrix j i factor
           else Some matrix)
        (iota i.+1 (n - i.+1)) matrix.

Definition forwardElimination (n : nat) (augmentedMatrix : FractionMatrix)
  : option FractionMatrix :=
  foldM (fun augmentedMatrix i =>
           pivotRow <- FractionMatrixUtils.findPivot augmentedMatrix i i ;;
           if Frac.isZero (fget augmentedMatrix pivotRow i)
           then Some augmentedMatrix
           else
             augmentedMatrix <-
               (if pivotRow != i
                then FractionMatrixUtils.swapRows augmentedMatrix i pivotRow
                else Some augmentedMatrix) ;;
             eliminateBelow n i augmentedMatrix)
        (iota 0 (n - 1)) augmentedMatrix.

(** The [solution] field of the result. *)
Definition solve (coefficientMatrix : Matrix) (constantVector : Vector)
  : option Solution :=
  let n := size coefficientMatrix in
  fractionMatrix <- FractionMatrixUtils.fromNumberMatrix coefficientMatrix ;;
  fractionConstants <- FractionMatrixUtils.fromNumberVector constantVector ;;
  let augmentedMatrix :=
    FractionMatrixUtils.createAugmentedMatrix fractionMatrix
                                              fractionConstants in
  augmentedMatrix <- forwardElimination n augmentedMatrix ;;
  backSubstitution augmentedMatrix.

Record detState := mkDetState {
  workingMatrix : FractionMatrix;
  swapCount : nat
}.

(** One pass of the forward loop of [calculateDeterminant]; [inl d] is the
    early [return] with determinant [d]. *)
Definition detColumn (n i : nat) (st : detState)
  : option (Fraction + detState) :=
  pivotRow <- FractionMatrixUtils.findPivot (workingMatrix st) i i ;;
  if Frac.isZero (fget (workingMatrix st) pivotRow i)
  then zero <- Frac.new 0 1 ;; Some (inl zero)
  else
    st <- (if pivotRow != i
           then swapped <- FractionMatrixUtils.swapRows (workingMatrix st)
                                                        i pivotRow ;;
                Some (mkDetState swapped (swapCount st).+1)
           else Some st) ;;
    eliminated <- eliminateBelow n i (workingMatrix st) ;;
    Some (inr (mkDetState eliminated (swapCount st))).

Definition detForward (n : nat) (st : detState)
  : option (Fraction + detState) :=
  foldM (fun acc i =>
           match acc with
           | inl d => Some (inl d)
           | inr st => detColumn n i st
           end)
        (iota 0 (n - 1)) (inr st).

(** The product of the diagonal and the sign of the row swaps. *)
Definition detFinish (n : nat) (st : detState) : option Fraction :=
  one <- Frac.new 1 1 ;;
  determinant <- foldM (fun determinant i =>
                          Frac.multiply determinant
                                        (fget (workingMatrix st) i i))
                       (iota 0 n) one ;;
  if odd (swapCount st) then Frac.negate determinant else Some determinant.

(** The elimination of an exact matrix, after the conversion of the input. *)
Definition determinantOf (fractionMatrix : FractionMatrix) : option Fraction :=
  let n := size fractionMatrix in
  r <- detForward n (mkDetState fractionMatrix 0) ;;
  match r with
  | inl d => Some d
  | inr st => detFinish n st
  end.

(** The [fractionDeterminant] field of the result; [determinant] is its
    [toDecimal()]. *)
Definition calculateDeterminant (matrix : Matrix) : option Fraction :=
  workingMatrix <- FractionMatrixUtils.fromNumberMatrix matrix ;;
  determinantOf workingMatrix.

End GaussianEliminationFractions.

(** * gaussianElimination.ts: class MatrixInverse, the helpers on arrays *)

Module MatrixInverse.

(** The two nested loops push [matrix[i][j]] for [i], [j] below
    [matrix.length], the excluded row and column skipped. *)
Definition calculateMinor (matrix : Matrix) (excludeRow excludeCol : nat)
  : Matrix :=
  let n := size matrix in
  [seq [seq nget matrix i j | j <- iota 0 n & j != excludeCol]
  | i <- iota 0 n & i != excludeRow].

(** [transposed[i][j] = matrix[j][i]] for [i], [j] below [matrix.length]. *)
Definition transposeMatrix (matrix : Matrix) : Matrix :=
  let n := size matrix in
  [seq [seq nget matrix j i | j <- iota 0 n] | i <- iota 0 n].

End MatrixInverse.

(** * class GaussJordanFractions *)

Module GaussJordanFractions.

Variant stepTitle :=
  | MatrizInicial
  | IntercambioDeFilas
  | NormalizarPivote
  | EliminacionHaciaAdelante
  | EliminacionHaciaAtras.

Record CalculationStep := mkStep {
  id : nat;
  title : stepTitle;
  matrix : Matrix;
  fractionMatrix : FractionMatrix;
  rowIndex : option nat
}.

(** The loop state: the augmented matrix, mutated in place by the source,
    the steps pushed so far and the next step id. *)
Record state := mkState {
  augmentedMatrix : FractionMatrix;
  steps : seq CalculationStep;
  stepId : nat
}.

(** [augmentedMatrix.map(row => row.slice(0, -1))] *)
Definition coefficients (augmentedMatrix : FractionMatrix) : FractionMatrix :=
  [seq take (size row - 1) row | row <- augmentedMatrix].

(** [steps.push({ id: stepId++, ... })] with the current matrix. *)
Definition pushStep (t : stepTitle) (r : option nat) (st : state) : state :=
  let snapshot := coefficients (augmentedMatrix st) in
  mkState (augmentedMatrix st)
          (rcons (steps st)
                 (mkStep (stepId st) t
                         (FractionMatrixUtils.toNumberMatrix snapshot)
                         snapshot r))
          (stepId st).+1.

(** Partial pivoting in column [i]: the row of the entry of greatest
    magnitude at or below row [i], magnitudes compared as decimals. *)
Definition findMaxRow (n i : nat) (augmentedMatrix : FractionMatrix)
  : option nat :=
  foldM (fun maxRow k =>
           current <- Frac.abs (fget augmentedMatrix k i) ;;
           best <- Frac.abs (fget augmentedMatrix maxRow i) ;;
           if JS.gt (Frac.toDecimal current) (Frac.toDecimal best)
           then Some k else Some maxRow)
        (iota i.+1 (n - i.+1)) i.

(** The pivot search and the row swap of column [i]. *)
Definition pivoting (n i : nat) (st : state) : option state :=
  maxRow <- findMaxRow n i (augmentedMatrix st) ;;
  if maxRow != i then
    Some (pushStep IntercambioDeFilas (Some i)
            (mkState (swap_index [::] (augmentedMatrix st) i maxRow)
                     (steps st) (stepId st)))
  else Some st.

(** [augmentedMatrix[k][j] = augmentedMatrix[k][j].subtract(
      factor.multiply(augmentedMatrix[i][j]))] for [j < m]. *)
Definition subtractRow (m k i : nat) (augmentedMatrix : FractionMatrix)
  : option FractionMatrix :=
  let factor := fget augmentedMatrix k i in
  newRow <- mapM (fun j =>
                    product <- Frac.multiply factor (fget augmentedMatrix i j) ;;
                    Frac.subtract (fget augmentedMatrix k j) product)
                 (iota 0 m) ;;
  Some (set_nth [::] augmentedMatrix k newRow).

(** Dividing row [i] by the pivot unless the pivot is 1. *)
Definition normalize (m i : nat) (st : state) : option state :=
  let pivot := fget (augmentedMatrix st) i i in
  one <- Frac.new 1 1 ;;
  if ~~ Frac.equals pivot one then
    newRow <- mapM (fun j => Frac.divide (fget (augmentedMatrix st) i j) pivot)
                   (iota 0 m) ;;
    Some (pushStep NormalizarPivote (Some i)
            (mkState (set_nth [::] (augmentedMatrix st) i newRow)
                     (steps st) (stepId st)))
  else Some st.

(** Clearing column [i] in the rows [ks]. *)
Definition eliminate (t : stepTitle) (m i : nat) (ks : seq nat) (st : state)
  : option state :=
  foldM (fun st k =>
           if ~~ Frac.isZero (fget (augmentedMatrix st) k i) then
             updated <- subtractRow m k i (augmentedMatrix st) ;;
             Some (pushStep t (Some k)
                     (mkState updated (steps st) (stepId st)))
           else Some st)
        ks st.

(** One pass of the forward loop; [inl] is the early [return] on a zero
    pivot, carrying the steps pushed so far. *)
Definition forwardColumn (n m i : nat) (st : state)
  : option (seq CalculationStep + state) :=
  st <- pivoting n i st ;;
  if Frac.isZero (fget (augmentedMatrix st) i i) then Some (inl (steps st))
  else
    st <- normalize m i st ;;
    st <- eliminate EliminacionHaciaAdelante m i (iota i.+1 (n - i.+1)) st ;;
    Some (inr st).

Fixpoint forwardLoop (n m : nat) (columns : seq nat) (st : state)
  : option (seq CalculationStep + state) :=
  match columns with
  | [::] => Some (inr st)
  | i :: columns' =>
    r <- forwardColumn n m i st ;;
    match r with
    | inl stopped => Some (inl stopped)
    | inr st' => forwardLoop n m columns' st'
    end
  end.

Definition backwardLoop (n m : nat) (st : state) : option state :=
  foldM (fun st i =>
           eliminate EliminacionHaciaAtras m i (rev (iota 0 i)) st)
        (rev (iota 0 n)) st.

Definition noSolution : Solution :=
  mkSolution [::] (Some [::]) None None false false true.

Definition initialState (fractionMatrix : FractionMatrix)
  (fractionConstants : FractionVector) : state :=
  pushStep MatrizInicial None
    (mkState [seq rcons (nth [::] fractionMatrix i)
                        (nth noFraction fractionConstants i)
             | i <- iota 0 (size fractionMatrix)]
             [::] 1).

Definition solve (matrix : Matrix) (constants : Vector)
  : option (seq CalculationStep * Solution) :=
  fractionMatrix <- FractionMatrixUtils.fromNumberMatrix matrix ;;
  fractionConstants <- FractionMatrixUtils.fromNumberVector constants ;;
  let st := initialState fractionMatrix fractionConstants in
  let n := size matrix in
  (* [augmentedMatrix[0].length] throws on an empty matrix *)
  if n == 0 then None
  else
    let m := size (nth [::] (augmentedMatrix st) 0) in
    r <- forwardLoop n m (iota 0 n) st ;;
    match r with
    | inl stopped => Some (stopped, noSolution)
    | inr st =>
      st <- backwardLoop n m st ;;
      let fractionSolution :=
        [seq fget (augmentedMatrix st) i (m - 1) | i <- iota 0 n] in
      Some (steps st,
            mkSolution (FractionMatrixUtils.toNumberVector fractionSolution)
                       (Some fractionSolution) (Some JS.one) None
                       true false false)
    end.

End GaussJordanFractions.

(** * Arrays as shared objects

    Where a step stores a matrix, what it stores is a reference to an array
    of references to rows. The store below holds those arrays; the working
    matrices of the engines are local to one call and stay values. *)

Module Store.

Definition ref := nat.

Variant object :=
  | NumberArray (elements : seq JS.number)
  | RowArray (rows : seq ref).

Definition store := seq object.

(** A new array: its reference is fresh. *)
Definition alloc (s : store) (o : object) : store * ref :=
  (rcons s o, size s).

Definition read (s : store) (r : ref) : option object :=
  if r < size s then Some (nth (RowArray [::]) s r) else None.

Definition readRow (s : store) (r : ref) : option (seq JS.number) :=
  match read s r with
  | Some (NumberArray elements) => Some elements
  | _ => None
  end.

(** The value of the [number[][]] behind a reference. *)
Definition readMatrix (s : store) (r : ref) : option Matrix :=
  match read s r with
  | Some (RowArray rows) => mapM (readRow s) rows
  | _ => None
  end.

(** A [number[][]] built from fresh arrays, as [map] and the spread
    operator build it. *)
Definition allocMatrix (s : store) (matrix : Matrix) : store * ref :=
  let '(s, rows) :=
    foldl (fun '(s, rows) elements =>
             let '(s, r) := alloc s (NumberArray elements) in
             (s, rcons rows r))
          (s, [::]) matrix in
  alloc s (RowArray rows).

(** [matrix[i][j] = v] through the reference [matrix]. *)
Definition writeEntry (s : store) (matrix : ref) (i j : nat) (v : JS.number)
  : option store :=
  match read s matrix with
  | Some (RowArray rows) =>
    if i < size rows then
      let r := nth 0 rows i in
      elements <- readRow s r ;;
      Some (set_nth (RowArray [::]) s r
                    (NumberArray (set_nth S754_nan elements j v)))
    else None
  | _ => None
  end.

(** [MatrixMath.cloneMatrix] on references: [matrix.map(row => [...row])]. *)
Definition cloneMatrix (s : store) (matrix : ref) : option (store * ref) :=
  value <- readMatrix s matrix ;;
  Some (allocMatrix s (MatrixMath.cloneMatrix value)).

End Store.

(** * class GaussJordanDeterminant *)

Module GaussJordanDeterminant.

Variant stepTitle :=
  | MatrizOriginal
  | DeterminanteCero
  | IntercambioDeFilas
  | EliminacionColumna
  | DeterminanteFinal.

(** A step holds a reference to its matrix. *)
Record CalculationStep := mkStep {
  id : nat;
  title : stepTitle;
  matrix : Store.ref
}.

Record state := mkState {
  store : Store.store;
  steps : seq CalculationStep;
  stepId : nat;
  workMatrix : FractionMatrix;
  determinant : Fraction;
  swapCount : nat
}.

(** [steps.push({ id: stepId++, ...,
      matrix: workMatrix.map(r => r.map(f => f.toDecimal())) })] *)
Definition pushSnapshot (t : stepTitle) (st : state) : state :=
  let '(s, r) := Store.allocMatrix (store st)
                   (FractionMatrixUtils.toNumberMatrix (workMatrix st)) in
  mkState s (rcons (steps st) (mkStep (stepId st) t r)) (stepId st).+1
          (workMatrix st) (determinant st) (swapCount st).

Definition findPivotRow (n i : nat) (workMatrix : FractionMatrix)
  : option nat :=
  foldM (fun pivotRow k =>
           current <- Frac.abs (fget workMatrix k i) ;;
           best <- Frac.abs (fget workMatrix pivotRow i) ;;
           if JS.gt (Frac.toDecimal current) (Frac.toDecimal best)
           then Some k else Some pivotRow)
        (iota i.+1 (n - i.+1)) i.

(** The rows below the pivot row [i]; the flag is [hasElimination]. Row [k]
    is updated in place from column [i] on, with the factor taken before. *)
Definition eliminateBelow (n i : nat) (pivot : Fraction)
  (workMatrix : FractionMatrix) : option (FractionMatrix * bool) :=
  foldM (fun '(workMatrix, hasElimination) k =>
           if ~~ Frac.isZero (fget workMatrix k i) then
             factor <- Frac.divide (fget workMatrix k i) pivot ;;
             tail <- mapM (fun j =>
                             product <- Frac.multiply factor
                                          (fget workMatrix i j) ;;
                             Frac.subtract (fget workMatrix k j) product)
                          (iota i (n - i)) ;;
             Some (set_nth [::] workMatrix k
                           (take i (nth [::] workMatrix k) ++ tail), true)
           else Some (workMatrix, hasElimination))
        (iota i.+1 (n - i.+1)) (workMatrix, false).

(** One pass of the forward loop; [inl] is the early [return] of a zero
    determinant. *)
Definition column (n i : nat) (st : state)
  : option ((Store.store * seq CalculationStep * Fraction) + state) :=
  pivotRow <- findPivotRow n i (workMatrix st) ;;
  if Frac.isZero (fget (workMatrix st) pivotRow i) then
    let st := pushSnapshot DeterminanteCero st in
    zero <- Frac.new 0 1 ;;
    Some (inl (store st, steps st, zero))
  else
    let st :=
      if pivotRow != i then
        pushSnapshot IntercambioDeFilas
          (mkState (store st) (steps st) (stepId st)
                   (swap_index [::] (workMatrix st) i pivotRow)
                   (determinant st) (swapCount st).+1)
      else st in
    let pivot := fget (workMatrix st) i i in
    determinant <- Frac.multiply (determinant st) pivot ;;
    '(eliminated, hasElimination) <- eliminateBelow n i pivot (workMatrix st) ;;
    let st := mkState (store st) (steps st) (stepId st) eliminated
                      determinant (swapCount st) in
    Some (inr (if hasElimination then pushSnapshot EliminacionColumna st
               else st)).

Definition forward (n : nat) (st : state)
  : option ((Store.store * seq CalculationStep * Fraction) + state) :=
  foldM (fun acc i =>
           match acc with
           | inl r => Some (inl r)
           | inr st => column n i st
           end)
        (iota 0 n) (inr st).

(** [calculateDeterminant(matrix)]: [matrix] is the caller's array. The
    result is the store after the call, the steps and the determinant. *)
Definition calculateDeterminant (s : Store.store) (matrix : Store.ref)
  : option (Store.store * seq CalculationStep * Fraction) :=
  value <- Store.readMatrix s matrix ;;
  let n := size value in
  fractionMatrix <- FractionMatrixUtils.fromNumberMatrix value ;;
  one <- Frac.new 1 1 ;;
  (* the first step is pushed with [matrix] as it was passed in *)
  let pushed := [:: mkStep 1 MatrizOriginal matrix] in
  workMatrix <- FractionMatrixUtils.cloneMatrix fractionMatrix ;;
  r <- forward n (mkState s pushed 2 workMatrix one 0) ;;
  match r with
  | inl early => Some early
  | inr st =>
    determinant <-
      (if odd (swapCount st) then
         minusOne <- Frac.new (-1)%bZ 1 ;;
         Frac.multiply (determinant st) minusOne
       else Some (determinant st)) ;;
    let st := pushSnapshot DeterminanteFinal st in
    Some (store st, steps st, determinant)
  end.

End GaussJordanDeterminant.

(** * Predicates of the statements *)

Open Scope Z_scope.

(** ** The invariant of Fraction *)

(** The invariant of the class: positive denominator, no common factor. *)
Definition reduced (f : Fraction) : Prop :=
  0 < denominator f /\ Z.gcd (numerator f) (denominator f) = 1.

(** ** Numbers compared with one *)

(** Mantissa [m] at exponent [e] denotes at least 1, resp. at most 1. *)
Definition ge1 (m e : Z) : Prop := 1 <= m /\ (e <= 0 -> 2 ^ (- e) <= m).

Definition le1 (m e : Z) : Prop := 0 <= m /\ e <= 0 /\ m <= 2 ^ (- e).

(** A positive number, finite or infinite, that is at least 1. *)
Definition atLeastOne (x : JS.number) : Prop :=
  match x with
  | S754_finite false m e => e <= 0 -> 2 ^ (- e) <= Zpos m
  | _ => False
  end.

(** Plus zero or a positive finite number that is at most 1. *)
Definition atMostOne (x : JS.number) : Prop :=
  match x with
  | S754_zero false => True
  | S754_finite false m e => e <= 0 /\ Zpos m <= 2 ^ (- e)
  | _ => False
  end.

(** ** The loop of fromDecimal *)

(** The loop state after [j] passes that all went back to the loop head. *)
Fixpoint cf_after (j : nat) (decimal : JS.number) (maxDenominator : Z)
  (st : Frac.cf_state) : option Frac.cf_state :=
  match j with
  | O => Some st
  | S j' =>
    match Frac.cf_iter decimal maxDenominator st with
    | Frac.CfContinue st' => cf_after j' decimal maxDenominator st'
    | _ => None
    end
  end.

(** What holds at the loop head after [j >= 1] passes. *)
Definition cf_inv (maxDenominator : Z) (j : nat) (st : Frac.cf_state) : Prop :=
  atLeastOne (Frac.x st)
  /\ 1 <= Frac.k1 st <= maxDenominator
  /\ Z.of_nat j - 1 <= Frac.k1 st
  /\ 0 <= Frac.k2 st
  /\ (2 <= Z.of_nat j -> 1 <= Frac.k2 st).

(** A finite number: not NaN, not an infinity. *)
Definition finite (x : JS.number) : Prop :=
  match x with
  | S754_zero _ | S754_finite _ _ _ => True
  | _ => False
  end.

(** The approximation error of the convergent [h/k], as the loop tests it. *)
Definition cf_error (decimal : JS.number) (h k : Z) : JS.number :=
  JS.abs (JS.sub decimal (JS.div (JS.ofZ h) (JS.ofZ k))).

(** The claim as written: a pass that starts with a positive denominator
    ends with a strictly greater one. *)
Definition denominator_strictly_increases : Prop :=
  forall (decimal : JS.number) (maxDenominator : Z) (j : nat)
         (st st' : Frac.cf_state),
    finite decimal ->
    cf_after j decimal maxDenominator (Frac.cf_init decimal) = Some st ->
    0 < Frac.k1 st ->
    Frac.cf_iter decimal maxDenominator st = Frac.CfContinue st' ->
    Frac.k1 st < Frac.k1 st'.

(** 0.75: the denominators of the first three convergents are 1, 1, 4. *)
Definition threeQuarters : JS.number := JS.div (JS.ofZ 3) (JS.ofZ 4).

(** ** The scan of the selectors *)

(** Scan order: rows before columns, lower index first. *)
Definition precedes (t1 : axis) (i1 : nat) (t2 : axis) (i2 : nat) : Prop :=
  match t1, t2 with
  | row_axis, column_axis => True
  | column_axis, row_axis => False
  | _, _ => (i1 < i2)%coq_nat
  end.

(** The two loops of a selector, on the zero counts of the rows and of the
    columns, from the initial [maxZeros]. *)
Definition selectAxis (maxZeros : Z) (rows cols : nat -> nat) (n : nat)
  : expansion :=
  scanAxes column_axis cols n
    (scanAxes row_axis rows n (mkExpansion row_axis 0 maxZeros)).

Definition zerosOn (rows cols : nat -> nat) (t : axis) (i : nat) : Z :=
  match t with
  | row_axis => Z.of_nat (rows i)
  | column_axis => Z.of_nat (cols i)
  end.

Close Scope Z_scope.

(** ** Classified solutions *)

(** Exactly one of the three flags, and no variables without uniqueness. *)
Definition classified (s : Solution) : Prop :=
  ((isUnique s && ~~ hasInfiniteSolutions s && ~~ hasNoSolution s)
   || (~~ isUnique s && hasInfiniteSolutions s && ~~ hasNoSolution s)
   || (~~ isUnique s && ~~ hasInfiniteSolutions s && hasNoSolution s)) = true
  /\ (isUnique s = false -> variables s = [::]).

(** [[1, 2], [2, 4]] with constants [3, 7]: singular and inconsistent. *)
Definition singularMatrix : Matrix :=
  [:: [:: JS.ofZ 1; JS.ofZ 2]; [:: JS.ofZ 2; JS.ofZ 4]].

Definition inconsistentConstants : Vector := [:: JS.ofZ 3; JS.ofZ 7].

Section ExactValues.

Import GRing.Theory.
Local Open Scope ring_scope.

(** ** The value of a Fraction and of an exact matrix *)

Definition ZQ (z : Z) : rat := (int_of_Z z)%:~R.

(** The value of a Fraction. *)
Definition qval (f : Fraction) : rat := ZQ (numerator f) / ZQ (denominator f).

Definition entry (M : FractionMatrix) (i j : nat) : rat := qval (fget M i j).

(** The n x n matrix of the values of [M]. *)
Definition mx (n : nat) (M : FractionMatrix) : 'M[rat]_n :=
  \matrix_(i < n, j < n) entry M i j.

(** [M] has n rows of n fractions in lowest terms. *)
Definition wfm (n : nat) (M : FractionMatrix) : Prop :=
  [/\ size M = n,
      forall i, (i < n)%N -> size (nth [::] M i) = n
    & forall i j, (i < n)%N -> (j < n)%N -> reduced (fget M i j)].

(** The trailing m x m block of [W] that starts at the diagonal entry k. *)
Definition trail (k m : nat) (W : FractionMatrix) : 'M[rat]_m :=
  \matrix_(r < m, c < m) entry W (k + r) (k + c).

End ExactValues.

(** ** The statements compared and the sample inputs *)





Definition sampleMatrix : Matrix :=
  [:: [:: JS.ofZ 2; JS.ofZ 1]; [:: JS.ofZ 1; JS.ofZ 3]].

Definition originalMatrix : Matrix :=
  [:: [:: JS.ofZ 1; JS.ofZ 2]; [:: JS.ofZ 3; JS.ofZ 4]].

(** The caller's array: [originalMatrix], allocated in an empty store. *)
Definition callerStore : Store.store :=
  (Store.allocMatrix [::] originalMatrix).1.

Definition callerMatrix : Store.ref :=
  (Store.allocMatrix [::] originalMatrix).2.

(** What the steps show: the value behind the reference of each. *)
Definition shownMatrices (s : Store.store)
  (steps : seq GaussJordanDeterminant.CalculationStep) : seq (option Matrix) :=
  [seq Store.readMatrix s (GaussJordanDeterminant.matrix step) | step <- steps].

(** The first step of a result or of a state. *)
Definition firstStep
  (r : (Store.store * seq GaussJordanDeterminant.CalculationStep * Fraction)
       + GaussJordanDeterminant.state)
  : option GaussJordanDeterminant.CalculationStep :=
  match r with
  | inl (_, steps, _) => ohead steps
  | inr st => ohead (GaussJordanDeterminant.steps st)
  end.

Definition sampleConstants : Vector := [:: JS.ofZ 8; JS.ofZ 13].

Definition dependentConstants : Vector := [:: JS.ofZ 3; JS.ofZ 6].

(** A matrix whose second row is zero. *)
Definition zeroRowMatrix : Matrix :=
  [:: [:: JS.ofZ 1; JS.zero]; [:: JS.zero; JS.zero]].

Definition zeroRowFractions : FractionMatrix :=
  [:: [:: mkFraction 1 1; mkFraction 0 1];
      [:: mkFraction 0 1; mkFraction 0 1]].

(** [singularMatrix] and [dependentConstants], converted. *)
Definition singularFractions : FractionMatrix :=
  [:: [:: mkFraction 1 1; mkFraction 2 1];
      [:: mkFraction 2 1; mkFraction 4 1]].

Definition dependentFractions : FractionVector :=
  [:: mkFraction 3 1; mkFraction 6 1].

(** The state of the forward phase on them after column 0. *)
Definition afterFirstColumn : GaussJordanFractions.state :=
  Eval vm_compute in
    let st0 := GaussJordanFractions.initialState singularFractions
                                                 dependentFractions in
    match GaussJordanFractions.forwardLoop 2 3 (iota 0 1) st0 with
    | Some (inr st) => st
    | _ => st0
    end.

(** The state after the pivot search of column 1. *)
Definition afterPivoting : GaussJordanFractions.state :=
  Eval vm_compute in
    odflt afterFirstColumn (GaussJordanFractions.pivoting 2 1 afterFirstColumn).

Definition reducedb (f : Fraction) : bool :=
  (0 <? denominator f)%bZ && (Z.gcd (numerator f) (denominator f) =? 1)%bZ.

(** [wfm], as a test. *)
Definition wfmb (n : nat) (M : FractionMatrix) : bool :=
  (size M == n) && all (fun row => (size row == n) && all reducedb row) M.

(** n rows of n numbers. *)
Definition square (n : nat) (A : Matrix) : bool :=
  (size A == n) && all (fun row => size row == n) A.

Definition exampleFractions : FractionMatrix :=
  [:: [:: mkFraction 2 1; mkFraction 1 1];
      [:: mkFraction 1 1; mkFraction 3 1]].

(** The n x n identity of Fractions. *)
Definition identityFractions (n : nat) : FractionMatrix :=
  [seq [seq (if i == j then mkFraction 1 1 else mkFraction 0 1)
       | j <- iota 0 n]
  | i <- iota 0 n].

(** The steps pushed so far are numbered 1, 2, ... and [stepId] is the next
    number. *)
Definition numbered (A : Type) (idOf : A -> nat) (steps : seq A)
  (stepId : nat) : Prop :=
  [seq idOf step | step <- steps] = iota 1 (size steps)
  /\ stepId = (size steps).+1.

Definition numberedGJ (st : GaussJordanFractions.state) : Prop :=
  numbered GaussJordanFractions.id (GaussJordanFractions.steps st)
           (GaussJordanFractions.stepId st).

Definition numberedGJD (st : GaussJordanDeterminant.state) : Prop :=
  numbered GaussJordanDeterminant.id (GaussJordanDeterminant.steps st)
           (GaussJordanDeterminant.stepId st).

(** The steps of an early return or of a state. *)
Definition numberedResult
  (r : (Store.store * seq GaussJordanDeterminant.CalculationStep * Fraction)
       + GaussJordanDeterminant.state) : Prop :=
  match r with
  | inl (_, steps, _) =>
      exists stepId, numbered GaussJordanDeterminant.id steps stepId
  | inr st => numberedGJD st
  end.

Section ExactValues.

Import GRing.Theory.
Local Open Scope ring_scope.


(** [x] solves the n equations of the augmented matrix [W], whose constants
    are in column n. *)
Definition solves (n : nat) (W : FractionMatrix) (x : nat -> rat) : Prop :=
  forall i, (i < n)%N -> \sum_(j < n) entry W i j * x j = entry W i n.

(** Two augmented matrices with the same solutions. *)
Definition sameSolutions (n : nat) (W W' : FractionMatrix) : Prop :=
  forall x, solves n W x <-> solves n W' x.



End ExactValues.

(** [bind_inv H]: the computation in [H] returned, so did each step. *)
Ltac bind_inv H :=
  match type of H with
  | None = Some _ => discriminate H
  | bind ?e _ = Some _ =>
      let E := fresh "E" in
      destruct e eqn:E; simpl in H; [bind_inv H|discriminate H]
  | (if ?c then _ else _) = Some _ =>
      let E := fresh "E" in destruct c eqn:E; bind_inv H
  | (let '(_, _) := ?p in _) = Some _ => destruct p; bind_inv H
  | match ?e with inl _ => _ | inr _ => _ end = Some _ =>
      let E := fresh "E" in destruct e eqn:E; bind_inv H
  | _ => idtac
  end.

(** * Fractions are kept in lowest terms *)

Section FractionInvariant.

Open Scope Z_scope.

Lemma gcd_rec_correct (k : nat) :
  forall (fuel : nat) (a b : Z),
    0 <= a -> 0 <= b -> b < 2 ^ Z.of_nat k -> (Nat.add (Nat.mul 2 k) 1 <= fuel)%coq_nat ->
    Frac.gcd_rec fuel a b = Z.gcd a b.
Proof.
  induction k as [|k IH]; intros fuel a b Ha Hb Hlt Hfuel.
  - assert (b = 0) by (simpl in Hlt; lia). subst b.
    destruct fuel as [|fuel]; [lia|]. simpl.
    rewrite -> Z.gcd_0_r. lia.
  - destruct fuel as [|fuel]; [lia|]. simpl.
    destruct (Z.eqb_spec b 0) as [->|Hb0].
    { rewrite -> Z.gcd_0_r. lia. }
    assert (Hr1 : Z.rem a b = a mod b) by (apply Z.rem_mod_nonneg; lia).
    pose proof (Z.mod_pos_bound a b ltac:(lia)) as Hbound.
    destruct fuel as [|fuel]; [lia|]. simpl.
    destruct (Z.eqb_spec (Z.rem a b) 0) as [Hz|Hnz].
    { rewrite -> Hr1 in Hz. rewrite -> Z.gcd_comm, <- Z.gcd_mod by lia.
      rewrite -> Hz, Z.gcd_0_l. lia. }
    rewrite -> Hr1 in *.
    assert (Hr2 : Z.rem b (a mod b) = b mod (a mod b))
      by (apply Z.rem_mod_nonneg; lia).
    rewrite Hr2.
    pose proof (Z.mod_pos_bound b (a mod b) ltac:(lia)) as Hbound2.
    rewrite -> IH; try lia.
    + rewrite -> (Z.gcd_comm (a mod b) (b mod (a mod b))).
      rewrite -> Z.gcd_mod by lia. rewrite -> Z.gcd_mod by lia.
      apply Z.gcd_comm.
    + (* the second argument has at least halved *)
      assert (Hpow : 2 ^ Z.of_nat k.+1 = 2 * 2 ^ Z.of_nat k).
      { rewrite -> Nat2Z.inj_succ, Z.pow_succ_r by lia. reflexivity. }
      pose proof (Z.div_mod b (a mod b) ltac:(lia)) as Hdm.
      assert (Hq : 1 <= b / (a mod b)).
      { apply Z.div_le_lower_bound; lia. }
      nia.
Qed.

Lemma gcd_correct (a b : Z) : 0 <= a -> 0 <= b -> Frac.gcd a b = Z.gcd a b.
Proof.
  intros Ha Hb. unfold Frac.gcd.
  apply (gcd_rec_correct (k := Z.to_nat (Z.log2 b + 1))); try lia;
    try exact (le_n _).
  pose proof (Z.log2_nonneg b) as Hl.
  rewrite -> Z2Nat.id by lia.
  destruct (Z.eq_dec b 0) as [->|Hb0]; [reflexivity|].
  apply Z.log2_spec. lia.
Qed.

(** What the constructor stores. *)
Lemma new_spec (n d : Z) :
  d <> 0 ->
  exists f, Frac.new n d = Some f /\ reduced f
            /\ numerator f * d = n * denominator f.
Proof.
  intros Hd. unfold Frac.new.
  destruct (Z.eqb_spec d 0) as [|_]; [contradiction|].
  rewrite -> gcd_correct by lia.
  rewrite -> Z.gcd_abs_l, Z.gcd_abs_r.
  set (g := Z.gcd n d).
  assert (Hg : 0 < g).
  { pose proof (Z.gcd_nonneg n d).
    assert (g <> 0) by (unfold g; intros H0; apply Z.gcd_eq_0_r in H0; lia).
    unfold g in *; lia. }
  destruct (Z.gcd_divide_l n d) as [n' Hn'].
  destruct (Z.gcd_divide_r n d) as [d' Hd'].
  fold g in Hn', Hd'.
  assert (Hqn : Z.quot n g = n') by (rewrite Hn'; apply Z.quot_mul; lia).
  assert (Hqd : Z.quot d g = d') by (rewrite Hd'; apply Z.quot_mul; lia).
  rewrite Hqn Hqd.
  assert (Hco : Z.gcd n' d' = 1).
  { pose proof (Z.gcd_div_gcd n d g ltac:(lia) (erefl _)) as H1.
    rewrite -> Hn' in H1 at 1. rewrite -> Hd' in H1 at 1.
    rewrite -> !Z.div_mul in H1 by lia. exact H1. }
  assert (Hd'0 : d' <> 0) by (intros ->; lia).
  destruct (Z.ltb_spec d' 0) as [Hneg|Hpos].
  - eexists; split; [reflexivity|]. unfold reduced; simpl.
    rewrite Z.gcd_opp_l Z.gcd_opp_r. repeat split; try lia; try (rewrite -> Hn', Hd'; ring).
  - eexists; split; [reflexivity|]. unfold reduced; simpl.
    repeat split; try lia; try (rewrite -> Hn', Hd'; ring).
Qed.



Lemma reduced_den_neq0 (f : Fraction) : reduced f -> denominator f <> 0.
Proof. intros [H _]. lia. Qed.



Close Scope Z_scope.

End FractionInvariant.

(** * Rounding facts of binary64 used by the continued-fraction loop *)

Section Binary64.

Open Scope Z_scope.

Lemma digits2_pos_spec (p : positive) :
  2 ^ (Zpos (digits2_pos p) - 1) <= Zpos p < 2 ^ Zpos (digits2_pos p).
Proof.
  assert (E : forall d : positive,
             2 ^ (Zpos (Pos.succ d) - 1) = 2 * 2 ^ (Zpos d - 1)
             /\ 2 ^ Zpos (Pos.succ d) = 2 * 2 ^ Zpos d).
  { intros d. rewrite -> Pos2Z.inj_succ. split.
    - replace (Z.succ (Zpos d) - 1) with (Z.succ (Zpos d - 1)); [|lia].
      apply Z.pow_succ_r. lia.
    - apply Z.pow_succ_r. lia. }
  induction p as [p IH|p IH|]; simpl digits2_pos.
  - destruct (E (digits2_pos p)) as [-> ->]. rewrite -> (Pos2Z.inj_xI p). lia.
  - destruct (E (digits2_pos p)) as [-> ->]. rewrite -> (Pos2Z.inj_xO p). lia.
  - simpl. lia.
Qed.

Lemma shr_1_m (mrs : shr_record) :
  0 <= shr_m mrs -> shr_m (shr_1 mrs) = shr_m mrs / 2.
Proof.
  destruct mrs as [m r s]; simpl. intros Hm.
  destruct m as [|[p|p|]|p]; simpl; try lia; try reflexivity.
  - rewrite -> (Pos2Z.inj_xI p). apply Z.div_unique with 1; lia.
  - rewrite -> (Pos2Z.inj_xO p). apply Z.div_unique with 0; lia.
Qed.

Lemma iter_shr_m (p : positive) :
  forall mrs, 0 <= shr_m mrs ->
    shr_m (iter_pos shr_1 p mrs) = shr_m mrs / 2 ^ Zpos p.
Proof.
  induction p as [p IH|p IH|]; intros mrs Hm; simpl iter_pos.
  - assert (H1 : 0 <= shr_m (shr_1 mrs)).
    { rewrite -> shr_1_m by assumption. apply Z.div_pos; lia. }
    assert (H2 : 0 <= shr_m (iter_pos shr_1 p (shr_1 mrs))).
    { rewrite -> IH by assumption. apply Z.div_pos; [lia|].
      apply Z.pow_pos_nonneg; lia. }
    rewrite -> (IH _ H2), (IH _ H1), shr_1_m by assumption.
    assert (Hp : 0 < 2 ^ Zpos p) by (apply Z.pow_pos_nonneg; lia).
    rewrite -> !Z.div_div by lia. f_equal.
    rewrite -> (Pos2Z.inj_xI p).
    replace (2 * Zpos p + 1) with (Z.succ (Zpos p + Zpos p)) by lia.
    rewrite -> Z.pow_succ_r, Z.pow_add_r by lia. lia.
  - assert (H2 : 0 <= shr_m (iter_pos shr_1 p mrs)).
    { rewrite -> IH by assumption. apply Z.div_pos; [lia|].
      apply Z.pow_pos_nonneg; lia. }
    rewrite -> (IH _ H2), (IH _ Hm).
    assert (Hp : 0 < 2 ^ Zpos p) by (apply Z.pow_pos_nonneg; lia).
    rewrite -> Z.div_div by lia. f_equal.
    rewrite -> (Pos2Z.inj_xO p).
    replace (2 * Zpos p) with (Zpos p + Zpos p) by lia.
    rewrite -> Z.pow_add_r by lia. reflexivity.
  - rewrite -> shr_1_m by assumption. reflexivity.
Qed.

Lemma round_nearest_even_bounds (m : Z) (l : location) :
  m <= round_nearest_even m l <= m + 1.
Proof.
  destruct l as [|[| |]]; simpl; try lia.
  destruct (Z.even m); lia.
Qed.

Lemma shr_record_of_loc_m (m : Z) (l : location) :
  shr_m (shr_record_of_loc m l) = m.
Proof. destruct l as [|[| |]]; reflexivity. Qed.

(** The shift of [shr_fexp]: a floor division by a power of two. *)
Lemma shr_fexp_spec (m e : Z) (l : location) :
  0 <= m ->
  let n := fexp JS.prec JS.emax (Zdigits2 m + e) - e in
  let r := shr_fexp JS.prec JS.emax m e l in
  (0 < n /\ shr_m r.1 = m / 2 ^ n /\ r.2 = e + n)
  \/ (n <= 0 /\ shr_m r.1 = m /\ r.2 = e).
Proof.
  intros Hm n r. unfold r, shr_fexp. fold n.
  destruct n as [|p|p] eqn:Hn; simpl.
  - right. rewrite -> shr_record_of_loc_m. lia.
  - left. rewrite -> iter_shr_m by (rewrite -> shr_record_of_loc_m; lia).
    rewrite -> shr_record_of_loc_m. lia.
  - right. rewrite -> shr_record_of_loc_m. lia.
Qed.

Lemma Zdigits2_lower (m : Z) : 0 < m -> 2 ^ (Zdigits2 m - 1) <= m.
Proof.
  destruct m as [|p|p]; try lia. intros _. simpl.
  apply digits2_pos_spec.
Qed.

Lemma Zdigits2_upper (m : Z) : 0 <= m -> m < 2 ^ Zdigits2 m.
Proof.
  destruct m as [|p|p]; try lia; intros _; simpl; [lia|].
  apply digits2_pos_spec.
Qed.

Lemma Zdigits2_nonneg (m : Z) : 0 <= Zdigits2 m.
Proof. destruct m; simpl; lia. Qed.

Lemma pow2_split (a b : Z) : 0 <= a -> 0 <= b -> 2 ^ (a + b) = 2 ^ a * 2 ^ b.
Proof. intros. apply Z.pow_add_r; assumption. Qed.

Lemma shr_fexp_ge1 (m e : Z) (l : location) :
  ge1 m e ->
  let r := shr_fexp JS.prec JS.emax m e l in ge1 (shr_m r.1) r.2.
Proof.
  intros [Hm He] r.
  destruct (@shr_fexp_spec m e l ltac:(lia)) as [[Hn [Hr1 Hr2]]|[Hn [Hr1 Hr2]]];
    fold r in Hr1, Hr2; rewrite -> Hr1, Hr2; [|split; assumption].
  set (n := fexp JS.prec JS.emax (Zdigits2 m + e) - e) in *.
  assert (Hpn : 0 < 2 ^ n) by (apply Z.pow_pos_nonneg; lia).
  pose proof (@Zdigits2_lower m ltac:(lia)) as Hd.
  assert (Hfe : n = Z.max (Zdigits2 m + e - 53) (-1074) - e) by reflexivity.
  clearbody n.
  (* the shift never reaches the leading bit *)
  assert (Hle : 2 ^ n <= m).
  { destruct (Z.le_ge_cases (-1074) (Zdigits2 m + e - 53)) as [Hc|Hc].
    - assert (n = Zdigits2 m - 53) by lia.
      apply Z.le_trans with (2 ^ (Zdigits2 m - 1)); [|exact Hd].
      apply Z.pow_le_mono_r; lia.
    - assert (Hn' : n = -1074 - e) by lia.
      apply Z.le_trans with (2 ^ (- e)); [|apply He; lia].
      apply Z.pow_le_mono_r; lia. }
  split.
  - apply Z.div_le_lower_bound; lia.
  - intros He'. apply Z.div_le_lower_bound; [lia|].
    rewrite <- pow2_split by lia.
    replace (n + - (e + n)) with (- e) by lia. apply He. lia.
Qed.

Lemma shr_fexp_le1 (m e : Z) (l : location) :
  le1 m e ->
  let r := shr_fexp JS.prec JS.emax m e l in
  le1 (shr_m r.1) r.2 /\ (m < 2 ^ (- e) -> shr_m r.1 < 2 ^ (- r.2)).
Proof.
  intros [Hm [He Hle]] r.
  destruct (@shr_fexp_spec m e l Hm) as [[Hn [Hr1 Hr2]]|[Hn [Hr1 Hr2]]];
    fold r in Hr1, Hr2; rewrite -> Hr1, Hr2;
    [|split; [split; [|split]; assumption|trivial]].
  set (n := fexp JS.prec JS.emax (Zdigits2 m + e) - e) in *.
  assert (Hpn : 0 < 2 ^ n) by (apply Z.pow_pos_nonneg; lia).
  assert (Hfe : n = Z.max (Zdigits2 m + e - 53) (-1074) - e) by reflexivity.
  clearbody n.
  (* the new exponent is still negative *)
  assert (He' : e + n <= 0).
  { destruct (Z.eq_dec m 0) as [->|Hm0].
    - simpl in Hfe. lia.
    - pose proof (@Zdigits2_lower m ltac:(lia)) as Hd.
      pose proof (@Zdigits2_nonneg m) as Hd0.
      assert (Zdigits2 m - 1 <= - e).
      { apply (Z.pow_le_mono_r_iff 2); lia. }
      lia. }
  assert (Hsplit : 2 ^ (- e) = 2 ^ n * 2 ^ (- (e + n))).
  { rewrite <- pow2_split by lia. f_equal. lia. }
  split; [split; [|split]|].
  - apply Z.div_pos; lia.
  - exact He'.
  - apply Z.div_le_upper_bound; [lia|]. lia.
  - intros Hlt. apply Z.div_lt_upper_bound; [lia|]. lia.
Qed.

Lemma binary_round_aux_ge1 (m e : Z) (l : location) :
  ge1 m e ->
  let r := binary_round_aux JS.prec JS.emax false m e l in
  r = S754_infinity false \/ atLeastOne r.
Proof.
  intros Hge r. unfold r, binary_round_aux.
  pose proof (@shr_fexp_ge1 m e l Hge) as H1. simpl in H1.
  destruct (shr_fexp JS.prec JS.emax m e l) as [mrs' e'] eqn:E1.
  simpl in H1.
  pose proof (round_nearest_even_bounds (shr_m mrs') (loc_of_shr_record mrs'))
    as Hr.
  set (mr := round_nearest_even (shr_m mrs') (loc_of_shr_record mrs')) in *.
  assert (Hge2 : ge1 mr e').
  { destruct H1 as [Ha Hb]. split; [lia|]. intros He. specialize (Hb He). lia. }
  pose proof (@shr_fexp_ge1 mr e' loc_Exact Hge2) as H2. simpl in H2.
  destruct (shr_fexp JS.prec JS.emax mr e' loc_Exact) as [mrs'' e''] eqn:E2.
  simpl in H2. destruct H2 as [Ha Hb].
  destruct (shr_m mrs'') as [|p|p]; try lia.
  destruct (e'' <=? JS.emax - JS.prec); [right|left; reflexivity].
  exact Hb.
Qed.

Lemma binary_round_aux_le1 (m e : Z) (l : location) :
  0 <= m -> e <= 0 -> m < 2 ^ (- e) ->
  atMostOne (binary_round_aux JS.prec JS.emax false m e l).
Proof.
  intros Hm He Hlt. unfold binary_round_aux.
  pose proof (@shr_fexp_le1 m e l ltac:(unfold le1; lia)) as H1. simpl in H1.
  destruct (shr_fexp JS.prec JS.emax m e l) as [mrs' e'] eqn:E1.
  simpl in H1. destruct H1 as [[Ha [Hb Hc]] Hd]. specialize (Hd Hlt).
  pose proof (round_nearest_even_bounds (shr_m mrs') (loc_of_shr_record mrs'))
    as Hr.
  set (mr := round_nearest_even (shr_m mrs') (loc_of_shr_record mrs')) in *.
  pose proof (@shr_fexp_le1 mr e' loc_Exact ltac:(unfold le1; lia)) as H2.
  simpl in H2.
  destruct (shr_fexp JS.prec JS.emax mr e' loc_Exact) as [mrs'' e''] eqn:E2.
  simpl in H2. destruct H2 as [[Ha2 [Hb2 Hc2]] _].
  destruct (shr_m mrs'') as [|p|p]; try lia; simpl; [trivial|].
  destruct (Z.leb_spec e'' 971) as [_|Hbad].
  - exact (conj Hb2 Hc2).
  - lia.
Qed.

End Binary64.

Section RemainderStep.

Open Scope Z_scope.

Lemma iter_xO_pow2 (d p : positive) :
  Zpos (Pos.iter xO p d) = Zpos p * 2 ^ Zpos d.
Proof.
  induction d as [|d IH] using Pos.peano_ind.
  - simpl. lia.
  - rewrite -> Pos.iter_succ, Pos2Z.inj_succ, Z.pow_succ_r by lia.
    rewrite -> (Pos2Z.inj_xO (Pos.iter xO p d)), IH. lia.
Qed.

(** [x - Math.floor(x)] for a positive finite [x] is +0 or in (0, 1]. *)
Lemma sub_floor_atMostOne (m : positive) (e : Z) :
  atMostOne (JS.sub (S754_finite false m e) (JS.floor (S754_finite false m e))).
Proof.
  unfold JS.floor. destruct (Z.leb_spec 0 e) as [He|He].
  - unfold JS.sub, SFsub. simpl cond_Zopp. rewrite -> Z.sub_diag. exact I.
  - simpl cond_Zopp. rewrite -> Z.shiftl_div_pow2 by lia.
    assert (Hp : 0 < 2 ^ (- e)) by (apply Z.pow_pos_nonneg; lia).
    pose proof (Z.div_mod (Zpos m) (2 ^ (- e)) ltac:(lia)) as Hdm.
    pose proof (Z.mod_pos_bound (Zpos m) (2 ^ (- e)) Hp) as Hmod.
    destruct (Zpos m / 2 ^ (- e)) as [|q|q] eqn:Hq.
    + (* floor 0: the difference is x itself *)
      simpl. split; lia.
    + unfold JS.sub, SFsub.
      replace (Z.min e 0) with e by lia.
      assert (Hx : shl_align m e e = (m, e)).
      { unfold shl_align. rewrite -> Z.sub_diag. reflexivity. }
      assert (Hf : exists d, e = Zneg d
                             /\ shl_align q 0 e = (Pos.iter xO q d, e)).
      { destruct e as [|d|d]; try lia. exists d. split; [reflexivity|].
        unfold shl_align. reflexivity. }
      destruct Hf as [d [Hed Hf]]. rewrite -> Hx, Hf. simpl fst.
      simpl cond_Zopp. rewrite -> iter_xO_pow2.
      assert (Hd : Zpos d = - e) by lia. rewrite -> Hd.
      set (D := Zpos m - Zpos q * 2 ^ (- e)).
      assert (HD : 0 <= D < 2 ^ (- e)) by (unfold D; lia).
      clearbody D. destruct D as [|D|D]; try lia; [exact I|].
      unfold binary_normalize, binary_round.
      set (ex' := fexp JS.prec JS.emax (Zpos (digits2_pos D) + e)).
      unfold shl_align.
      destruct (ex' - e) as [|k|k] eqn:Hk;
        try (apply binary_round_aux_le1; lia).
      apply binary_round_aux_le1; try lia.
      rewrite -> iter_xO_pow2.
      replace (- ex') with (- e + Zpos k) by lia.
      rewrite -> pow2_split by lia.
      apply Z.mul_lt_mono_pos_r; [apply Z.pow_pos_nonneg; lia|lia].
    + pose proof (Z.div_pos (Zpos m) (2 ^ (- e)) ltac:(lia) Hp). lia.
Qed.

(** [1 / y] for such a [y] is +Infinity or a finite number that is at
    least 1. *)
Lemma div_one_atLeastOne (y : JS.number) :
  atMostOne y ->
  JS.div JS.one y = S754_infinity false \/ atLeastOne (JS.div JS.one y).
Proof.
  destruct y as [[|]|s| |[|] my ey]; simpl; try contradiction.
  - intros _. left. reflexivity.
  - intros [Hey Hmy].
    unfold JS.div, JS.one, SFdiv, SFdiv_core_binary.
    simpl xorb.
    set (d2 := Zdigits2 (Zpos my)).
    change (Zdigits2 4503599627370496) with 53.
    set (e' := Z.min (fexp JS.prec JS.emax (53 + -52 - (d2 + ey)))
                     (-52 - ey)).
    assert (He' : e' <= -52 - ey) by (unfold e'; lia).
    assert (He'' : e' <= Z.max (53 + -52 - (d2 + ey) - 53) (-1074))
      by (unfold e'; change (fexp JS.prec JS.emax (53 + -52 - (d2 + ey)))
            with (Z.max (53 + -52 - (d2 + ey) - 53) (-1074)); lia).
    clearbody e'.
    set (s := -52 - ey - e'). assert (Hs : 0 <= s) by (unfold s; lia).
    set (m' := match s with
               | 0 => 4503599627370496
               | Zpos _ => Z.shiftl 4503599627370496 s
               | Zneg _ => 0
               end).
    assert (Hm' : m' = 2 ^ (52 + s)).
    { unfold m'. destruct s as [|p|p] eqn:Es; try lia; try reflexivity.
      rewrite -> Z.shiftl_mul_pow2 by lia.
      rewrite -> pow2_split by lia. reflexivity. }
    clearbody m'.
    destruct (Z.div_eucl m' (Zpos my)) as [q r] eqn:Eq.
    assert (Hq : q = m' / Zpos my) by (unfold Z.div; rewrite -> Eq; reflexivity).
    apply binary_round_aux_ge1.
    pose proof (@Zdigits2_upper (Zpos my) ltac:(lia)) as Hd2. fold d2 in Hd2.
    pose proof (@Zdigits2_nonneg (Zpos my)) as Hd20. fold d2 in Hd20.
    assert (Hlow : e' <= 0 -> 2 ^ (- e') <= q).
    { intros Hle. rewrite -> Hq, Hm'.
      apply Z.div_le_lower_bound; [lia|].
      replace (52 + s) with (- ey + - e') by (unfold s; lia).
      rewrite -> pow2_split by lia.
      apply Z.mul_le_mono_nonneg_r; [apply Z.pow_nonneg; lia|exact Hmy]. }
    split; [|exact Hlow].
    destruct (Z.le_gt_cases e' 0) as [Hle|Hgt].
    + specialize (Hlow Hle).
      pose proof (Z.pow_pos_nonneg 2 (- e') ltac:(lia) ltac:(lia)). lia.
    + rewrite -> Hq, Hm'. apply Z.div_le_lower_bound; try lia.
      apply Z.le_trans with (2 ^ d2); [lia|].
      apply Z.pow_le_mono_r; [lia|]. unfold s. lia.
Qed.

(** A number that is at least 1 has a floor that is at least 1. *)
Lemma floorZ_atLeastOne (x : JS.number) :
  atLeastOne x -> exists a, JS.floorZ x = Some a /\ 1 <= a.
Proof.
  destruct x as [s|s| |[|] m e]; simpl; try contradiction.
  intros H. eexists; split; [reflexivity|].
  destruct (Z.le_gt_cases e 0) as [He|He].
  - rewrite -> Z.shiftl_div_pow2 by lia.
    apply Z.div_le_lower_bound; [apply Z.pow_pos_nonneg; lia|].
    specialize (H He). lia.
  - rewrite -> Z.shiftl_mul_pow2 by lia.
    pose proof (Z.pow_pos_nonneg 2 e ltac:(lia) ltac:(lia)). nia.
Qed.

End RemainderStep.

(** * Fraction.fromDecimal: the continued-fraction loop *)

Section ContinuedFraction.

Open Scope Z_scope.

Lemma remainder_cases (x : JS.number) :
  (exists m e, x = S754_finite false m e) ->
  let x' := JS.div JS.one (JS.sub x (JS.floor x)) in
  JS.eq x' JS.Infinity = true \/ atLeastOne x'.
Proof.
  intros [m [e ->]] x'.
  destruct (div_one_atLeastOne (@sub_floor_atMostOne m e)) as [H|H].
  - left. unfold x'. rewrite -> H. reflexivity.
  - right. exact H.
Qed.

(** The first pass, from the initial state. *)
Lemma cf_iter_first (m : positive) (e : Z) (maxDenominator : Z) :
  let decimal := S754_finite false m e in
  match Frac.cf_iter decimal maxDenominator (Frac.cf_init decimal) with
  | Frac.CfBreak _ k | Frac.CfExit _ k => k = 1
  | Frac.CfContinue st => cf_inv maxDenominator 1 st /\ Frac.k1 st = 1
  | Frac.CfStuck => False
  end.
Proof.
  intros decimal. unfold Frac.cf_iter, Frac.cf_init.
  cbn [Frac.x Frac.h1 Frac.h2 Frac.k1 Frac.k2].
  unfold decimal at 1. cbn [JS.floorZ].
  set (a := Z.shiftl (cond_Zopp false (Zpos m)) e).
  replace (a * 0 + 1) with 1 by lia.
  destruct (Z.gtb_spec 1 maxDenominator) as [Hgt|Hle]; [reflexivity|].
  destruct (@remainder_cases decimal ltac:(unfold decimal; eauto)) as [H|H].
  - rewrite -> H. rewrite -> Bool.andb_false_r. reflexivity.
  - match goal with
    | |- context [if ?c then _ else _] => destruct c
    end; [|reflexivity].
    split; [|reflexivity]. unfold cf_inv.
    cbn [Frac.x Frac.h1 Frac.h2 Frac.k1 Frac.k2]. repeat split; try lia.
    exact H.
Qed.

(** Every later pass. *)
Lemma cf_iter_step (decimal : JS.number) (maxDenominator : Z) (j : nat)
  (st : Frac.cf_state) :
  cf_inv maxDenominator j st -> (1 <= Z.of_nat j) ->
  match Frac.cf_iter decimal maxDenominator st with
  | Frac.CfBreak _ k | Frac.CfExit _ k => 1 <= k
  | Frac.CfContinue st' =>
      cf_inv maxDenominator j.+1 st'
      /\ Frac.k1 st <= Frac.k1 st'
      /\ (2 <= Z.of_nat j -> Frac.k1 st < Frac.k1 st')
  | Frac.CfStuck => False
  end.
Proof.
  intros [Hx [Hk1 [Hj [Hk2 Hk2']]]] Hj1. unfold Frac.cf_iter.
  destruct (floorZ_atLeastOne Hx) as [a [-> Ha]].
  assert (Hgrow : Frac.k1 st <= a * Frac.k1 st + Frac.k2 st) by nia.
  assert (Hgrow' : 2 <= Z.of_nat j ->
                   Frac.k1 st < a * Frac.k1 st + Frac.k2 st).
  { intros H2. specialize (Hk2' H2). nia. }
  destruct (Z.gtb_spec (a * Frac.k1 st + Frac.k2 st) maxDenominator)
    as [Hgt|Hle]; [lia|].
  assert (Hfin : exists m e, Frac.x st = S754_finite false m e).
  { destruct (Frac.x st) as [s|s| |[|] m e]; simpl in Hx; try contradiction.
    eauto. }
  destruct (remainder_cases Hfin) as [H|H].
  - rewrite -> H. rewrite -> Bool.andb_false_r. lia.
  - match goal with
    | |- context [if ?c then _ else _] => destruct c
    end; [|lia].
    unfold cf_inv. cbn [Frac.x Frac.h1 Frac.h2 Frac.k1 Frac.k2].
    repeat split; try lia. exact H.
Qed.

Lemma cf_loop_terminates (decimal : JS.number) (maxDenominator : Z) :
  forall (fuel j : nat) (st : Frac.cf_state),
    cf_inv maxDenominator j st -> 1 <= Z.of_nat j ->
    maxDenominator + 2 <= Z.of_nat j + Z.of_nat fuel ->
    exists h k, Frac.cf_loop fuel decimal maxDenominator st = Some (h, k)
                /\ 1 <= k.
Proof.
  induction fuel as [|fuel IH]; intros j st Hinv Hj Hfuel.
  - destruct Hinv as [_ [Hk1 [Hjk _]]]. lia.
  - simpl. pose proof (cf_iter_step decimal Hinv Hj) as Hstep.
    destruct (Frac.cf_iter decimal maxDenominator st) as [h k|h k|st'|].
    + eauto.
    + eauto.
    + destruct Hstep as [Hinv' _]. apply (IH j.+1); [exact Hinv'|lia|lia].
    + contradiction.
Qed.

(** The loop leaves within the iterations it is granted, with a positive
    denominator. *)
Lemma cf_loop_total (m : positive) (e : Z) (maxDenominator : Z) :
  let decimal := S754_finite false m e in
  exists h k, Frac.cf_loop (Frac.cf_fuel maxDenominator) decimal maxDenominator
                           (Frac.cf_init decimal) = Some (h, k)
              /\ 1 <= k.
Proof.
  intros decimal. unfold Frac.cf_fuel.
  replace (Z.to_nat maxDenominator + 3)%nat
    with (S (Z.to_nat maxDenominator + 2)%coq_nat).
  2:{ rewrite -plusE. lia. }
  simpl Frac.cf_loop.
  pose proof (cf_iter_first m e maxDenominator) as Hfirst.
  cbv zeta in Hfirst. fold decimal in Hfirst.
  destruct (Frac.cf_iter decimal maxDenominator (Frac.cf_init decimal))
    as [h k|h k|st'|]; cbv beta iota in Hfirst.
  - exists h, k. split; [reflexivity|lia].
  - exists h, k. split; [reflexivity|lia].
  - destruct Hfirst as [Hinv _].
    apply (@cf_loop_terminates decimal maxDenominator _ 1%nat); [exact Hinv|lia|lia].
  - contradiction.
Qed.

Lemma fromDecimal_max_total (x : JS.number) (maxDenominator : Z) :
  finite x ->
  exists f, Frac.fromDecimal_max x maxDenominator = Some f /\ reduced f.
Proof.
  intros Hfin.
  assert (Hnew : forall n d, d <> 0 ->
                 exists f, Frac.new n d = Some f /\ reduced f).
  { intros n d Hd. destruct (new_spec n Hd) as [f [Hf [Hr _]]]. eauto. }
  destruct x as [s|s| |s m e]; simpl in Hfin; try contradiction.
  - unfold Frac.fromDecimal_max. simpl JS.eq. cbv iota. apply Hnew. lia.
  - unfold Frac.fromDecimal_max.
    assert (Hne : JS.eq (S754_finite s m e) JS.zero = false)
      by (destruct s; reflexivity).
    rewrite -> Hne.
    change (JS.abs (S754_finite s m e)) with (S754_finite false m e).
    destruct (JS.isInteger (S754_finite false m e)).
    + simpl JS.floorZ. simpl bind. apply Hnew. lia.
    + destruct (cf_loop_total m e maxDenominator) as [h [k [-> Hk]]].
      simpl bind. apply Hnew. lia.
Qed.

End ContinuedFraction.

Section ContinuedFractionBounds.

Open Scope Z_scope.

(** A pass goes back to the loop head only when none of the three exits
    applies. *)
Lemma cf_iter_continue (decimal : JS.number) (maxDenominator : Z)
  (st st' : Frac.cf_state) :
  Frac.cf_iter decimal maxDenominator st = Frac.CfContinue st' ->
  Frac.k1 st' <= maxDenominator
  /\ JS.gt (cf_error decimal (Frac.h1 st') (Frac.k1 st')) JS.tol = true
  /\ JS.eq (Frac.x st') JS.Infinity = false.
Proof.
  unfold Frac.cf_iter. destruct (JS.floorZ (Frac.x st)) as [a|]; [|discriminate].
  destruct (Z.gtb_spec (a * Frac.k1 st + Frac.k2 st) maxDenominator)
    as [Hgt|Hle]; [discriminate|].
  match goal with
  | |- context [if ?c1 && ~~ ?c2 then _ else _] =>
      destruct c1 eqn:E1; destruct c2 eqn:E2; simpl; try discriminate
  end.
  intros H. injection H as <-. cbn [Frac.x Frac.h1 Frac.k1].
  repeat split; assumption.
Qed.

Lemma cf_after_inv (decimal : JS.number) (maxDenominator : Z) :
  forall (j i : nat) (st0 st : Frac.cf_state),
    cf_inv maxDenominator i st0 -> 1 <= Z.of_nat i ->
    cf_after j decimal maxDenominator st0 = Some st ->
    cf_inv maxDenominator (i + j)%coq_nat st.
Proof.
  induction j as [|j IH]; intros i st0 st Hinv Hi Hafter.
  - simpl in Hafter. injection Hafter as <-.
    replace (i + 0)%coq_nat with i by lia. exact Hinv.
  - simpl in Hafter. pose proof (cf_iter_step decimal Hinv Hi) as Hstep.
    destruct (Frac.cf_iter decimal maxDenominator st0) as [h k|h k|st1|];
      try discriminate.
    destruct Hstep as [Hinv1 _].
    replace (i + j.+1)%coq_nat with (i.+1 + j)%coq_nat by lia.
    apply (IH i.+1 st1); [exact Hinv1|lia|exact Hafter].
Qed.

Lemma cf_after_init_inv (m : positive) (e : Z) (maxDenominator : Z) (j : nat)
  (st : Frac.cf_state) :
  cf_after j.+1 (S754_finite false m e) maxDenominator
           (Frac.cf_init (S754_finite false m e)) = Some st ->
  cf_inv maxDenominator j.+1 st.
Proof.
  simpl. pose proof (cf_iter_first m e maxDenominator) as Hfirst.
  cbv zeta in Hfirst.
  destruct (Frac.cf_iter (S754_finite false m e) maxDenominator
                         (Frac.cf_init (S754_finite false m e)))
    as [h k|h k|st1|]; try discriminate.
  destruct Hfirst as [Hinv _]. intros Hafter.
  apply (@cf_after_inv _ _ j 1%nat st1 st Hinv ltac:(lia) Hafter).
Qed.

(** CLAIM C10 (as stated, refuted): on 0.75 with the default limit the
    second pass starts with the convergent denominator 1, goes back to the
    loop head, and ends with the denominator 1. *)
Lemma denominator_stalls_at_threeQuarters :
  ~ denominator_strictly_increases.
Proof.
  intros H.
  pose (st1 := Frac.mkCf 0 1 1 0 (JS.div JS.one threeQuarters)).
  pose (st2 := Frac.mkCf 1 0 1 1
                 (JS.div JS.one (JS.sub (Frac.x st1) (JS.floor (Frac.x st1))))).
  specialize (H threeQuarters 10000 1%nat st1 st2).
  assert (Hlt : Frac.k1 st1 < Frac.k1 st2).
  { apply H.
    - exact I.
    - vm_compute. reflexivity.
    - reflexivity.
    - vm_compute. reflexivity. }
  vm_compute in Hlt. discriminate Hlt.
Qed.

(** CLAIM C10 (amended): Fraction.fromDecimal returns on every finite input;
    its loop, started on a positive finite number, leaves within
    maxDenominator + 3 passes; a pass never decreases the convergent
    denominator and, from the third pass on, strictly increases it; and a
    pass goes back to the loop head only if the denominator is at most
    maxDenominator, the error exceeds 1e-10 and the remainder is not
    Infinity. *)
Theorem fromDecimal_terminates :
  (forall x maxDenominator,
      finite x -> exists f, Frac.fromDecimal_max x maxDenominator = Some f)
  /\ (forall m e maxDenominator,
         exists h k,
           Frac.cf_loop (Frac.cf_fuel maxDenominator) (S754_finite false m e)
                        maxDenominator
                        (Frac.cf_init (S754_finite false m e)) = Some (h, k))
  /\ (forall m e maxDenominator j st st',
         cf_after j (S754_finite false m e) maxDenominator
                  (Frac.cf_init (S754_finite false m e)) = Some st ->
         Frac.cf_iter (S754_finite false m e) maxDenominator st
         = Frac.CfContinue st' ->
         Frac.k1 st <= Frac.k1 st'
         /\ (2 <= Z.of_nat j -> Frac.k1 st < Frac.k1 st')
         /\ Frac.k1 st' <= maxDenominator
         /\ JS.gt (cf_error (S754_finite false m e)
                            (Frac.h1 st') (Frac.k1 st')) JS.tol = true
         /\ JS.eq (Frac.x st') JS.Infinity = false).
Proof.
  split; [|split].
  - intros x M Hfin. destruct (@fromDecimal_max_total x M Hfin) as [f [Hf _]].
    eauto.
  - intros m e M. destruct (cf_loop_total m e M) as [h [k [Hl _]]]. eauto.
  - intros m e M j st st' Hafter Hiter.
    destruct (cf_iter_continue Hiter) as [Hle [Herr Hinf]].
    assert (Hgrow : Frac.k1 st <= Frac.k1 st'
                    /\ (2 <= Z.of_nat j -> Frac.k1 st < Frac.k1 st')).
    { destruct j as [|j].
      - simpl in Hafter. injection Hafter as <-.
        pose proof (cf_iter_first m e M) as Hfirst. cbv zeta in Hfirst.
        rewrite -> Hiter in Hfirst. destruct Hfirst as [_ Hk].
        rewrite -> Hk. simpl. lia.
      - pose proof (cf_after_init_inv Hafter) as Hinv.
        pose proof (cf_iter_step (S754_finite false m e) Hinv ltac:(lia))
          as Hstep.
        rewrite -> Hiter in Hstep. destruct Hstep as [_ [H1 H2]].
        split; [exact H1|exact H2]. }
    destruct Hgrow as [H1 H2]. repeat split; assumption.
Qed.

Lemma fromDecimal_terminates_witness :
  exists f, Frac.fromDecimal_max threeQuarters 10000 = Some f.
Proof.
  apply (proj1 fromDecimal_terminates threeQuarters 10000). exact I.
Defined.

(** CLAIM C4: the loop leaves on the first convergent whose denominator
    exceeds maxDenominator and that convergent is what is returned: 0.5
    with limit 1 gives 1/2 (the convergent before it is 0/1), and 2^-14 with
    the default limit 10000 gives 1/16384. *)
Theorem fromDecimal_exceeds_maxDenominator :
  Frac.fromDecimal_max (JS.pow2 (-1)) 1 = Some (mkFraction 1 2)
  /\ Frac.cf_iter (JS.pow2 (-1)) 1 (Frac.cf_init (JS.pow2 (-1)))
     = Frac.CfContinue (Frac.mkCf 0 1 1 0 (JS.ofZ 2))
  /\ Frac.cf_iter (JS.pow2 (-1)) 1 (Frac.mkCf 0 1 1 0 (JS.ofZ 2))
     = Frac.CfBreak 1 2
  /\ Frac.fromDecimal (JS.pow2 (-14)) = Some (mkFraction 1 16384).
Proof. repeat split; vm_compute; reflexivity. Qed.

End ContinuedFractionBounds.

(** * The optimal-axis selectors *)

Section Selector.

Open Scope Z_scope.

Lemma scanAxes_S (t : axis) (counts : nat -> nat) (n : nat) (best : expansion) :
  scanAxes t counts n.+1 best
  = (let b := scanAxes t counts n best in
     if Z.of_nat (counts n) >? zeroCount b
     then mkExpansion t n (Z.of_nat (counts n)) else b).
Proof. by rewrite /scanAxes -addn1 iotaD foldl_cat /= add0n. Qed.

Lemma scanAxes_spec (t : axis) (counts : nat -> nat) (n : nat)
  (best : expansion) :
  let b := scanAxes t counts n best in
  (b = best
   /\ forall i, (i < n)%coq_nat -> Z.of_nat (counts i) <= zeroCount best)
  \/ (exists i, (i < n)%coq_nat
        /\ b = mkExpansion t i (Z.of_nat (counts i))
        /\ zeroCount best < Z.of_nat (counts i)
        /\ (forall i', (i' < i)%coq_nat ->
              Z.of_nat (counts i') < Z.of_nat (counts i))
        /\ (forall i', (i' < n)%coq_nat ->
              Z.of_nat (counts i') <= Z.of_nat (counts i))).
Proof.
  induction n as [|n IH].
  - left. split; [reflexivity|]. intros i Hi. lia.
  - rewrite -> scanAxes_S. cbv zeta in IH |- *.
    destruct IH as [[Hb Hall]|[i [Hi [Hb [Hgt [Hbefore Hall]]]]]];
      rewrite -> Hb; simpl zeroCount.
    + destruct (Z.gtb_spec (Z.of_nat (counts n)) (zeroCount best)) as [Hn|Hn].
      * right. exists n. repeat split; try lia.
        -- intros i' Hi'. specialize (Hall i' Hi'). lia.
        -- intros i' Hi'.
           destruct (Nat.eq_dec i' n) as [->|Hne]; [lia|].
           specialize (Hall i' ltac:(lia)). lia.
      * left. split; [reflexivity|]. intros i Hi.
        destruct (Nat.eq_dec i n) as [->|Hne]; [lia|].
        apply Hall. lia.
    + destruct (Z.gtb_spec (Z.of_nat (counts n)) (Z.of_nat (counts i)))
        as [Hn|Hn].
      * right. exists n. repeat split; try lia.
        -- intros i' Hi'. specialize (Hall i' Hi'). lia.
        -- intros i' Hi'.
           destruct (Nat.eq_dec i' n) as [->|Hne]; [lia|].
           specialize (Hall i' ltac:(lia)). lia.
      * right. exists i. repeat split; try lia; try assumption.
        intros i' Hi'.
        destruct (Nat.eq_dec i' n) as [->|Hne]; [lia|].
        apply Hall. lia.
Qed.

(** The selected line holds the greatest zero count and is the first in
    scan order to hold it. *)
Lemma selectAxis_spec (maxZeros : Z) (rows cols : nat -> nat) (n : nat) :
  maxZeros <= 0 -> (0 < n)%coq_nat ->
  let r := selectAxis maxZeros rows cols n in
  (exp_index r < n)%coq_nat
  /\ zeroCount r = zerosOn rows cols (exp_type r) (exp_index r)
  /\ (forall t i, (i < n)%coq_nat -> zerosOn rows cols t i <= zeroCount r)
  /\ (forall t i, (i < n)%coq_nat ->
        precedes t i (exp_type r) (exp_index r) ->
        zerosOn rows cols t i < zeroCount r).
Proof.
  intros Hmax Hn r. unfold r, selectAxis.
  pose proof (scanAxes_spec row_axis rows n (mkExpansion row_axis 0 maxZeros))
    as Hrows.
  set (b1 := scanAxes row_axis rows n (mkExpansion row_axis 0 maxZeros)) in *.
  pose proof (scanAxes_spec column_axis cols n b1) as Hcols.
  set (b2 := scanAxes column_axis cols n b1) in *.
  cbv zeta in Hrows, Hcols.
  (* after the rows *)
  assert (H1 : (exp_index b1 < n)%coq_nat
               /\ exp_type b1 = row_axis
               /\ zeroCount b1 = Z.of_nat (rows (exp_index b1))
               /\ (forall i, (i < n)%coq_nat ->
                     Z.of_nat (rows i) <= zeroCount b1)
               /\ (forall i, (i < exp_index b1)%coq_nat ->
                     Z.of_nat (rows i) < zeroCount b1)).
  { destruct Hrows as [[Hb Hall]|[i [Hi [Hb [Hgt [Hbefore Hall]]]]]];
      rewrite -> Hb; simpl in *.
    - pose proof (Hall 0%nat Hn) as H0.
      repeat split; try lia; try exact Hall.
    - repeat split; try lia; assumption. }
  destruct H1 as [Hi1 [Ht1 [Hc1 [Hall1 Hbefore1]]]].
  destruct Hcols as [[Hb Hall]|[j [Hj [Hb [Hgt [Hbefore Hall]]]]]];
    rewrite -> Hb.
  - rewrite -> Ht1. simpl zerosOn. repeat split; try assumption.
    + intros [|] i Hi; simpl; [apply Hall1|apply Hall]; exact Hi.
    + intros [|] i Hi; simpl; [|contradiction].
      intros Hp. apply Hbefore1. exact Hp.
  - simpl. repeat split; try lia.
    + intros [|] i Hi; simpl; [|apply Hall; exact Hi].
      specialize (Hall1 i Hi). lia.
    + intros [|] i Hi; simpl.
      * intros _. specialize (Hall1 i Hi). lia.
      * intros Hp. apply Hbefore. exact Hp.
Qed.

Lemma count_le_size {T : Type} (p : T -> bool) (f : nat -> T) (n : nat) :
  (count p [seq f j | j <- iota 0 n] <= n)%coq_nat.
Proof.
  apply/leP. apply: leq_trans (count_size _ _) _.
  by rewrite size_map size_iota.
Qed.

(** CLAIM C6: on a matrix with at least one row, each selector returns a
    line of the matrix together with its zero count; no row or column has
    more zeros, and every row or column that comes earlier in the scan (rows
    before columns, lower index first) has strictly fewer. If some row
    consists of zeros only, the selected line is a row of zeros only. *)
Theorem findOptimalExpansionRowOrColumn_spec :
  (forall matrix : Matrix,
      let n := size matrix in
      let zeros := zerosOn (LaplaceExpansion.zerosInRow matrix n)
                           (LaplaceExpansion.zerosInColumn matrix n) in
      let r := LaplaceExpansion.findOptimalExpansionRowOrColumn matrix in
      (0 < n)%coq_nat ->
      (exp_index r < n)%coq_nat
      /\ zeroCount r = zeros (exp_type r) (exp_index r)
      /\ (forall t i, (i < n)%coq_nat -> zeros t i <= zeroCount r)
      /\ (forall t i, (i < n)%coq_nat ->
            precedes t i (exp_type r) (exp_index r) -> zeros t i < zeroCount r)
      /\ (forall k, (k < n)%coq_nat -> zeros row_axis k = Z.of_nat n ->
            exp_type r = row_axis /\ (exp_index r <= k)%coq_nat
            /\ zeros row_axis (exp_index r) = Z.of_nat n))
  /\ (forall matrix : FractionMatrix,
      let n := size matrix in
      let zeros := zerosOn (LaplaceExpansionFractions.zerosInRow matrix n)
                           (LaplaceExpansionFractions.zerosInColumn matrix n) in
      let r := LaplaceExpansionFractions.findOptimalExpansionRowOrColumn matrix in
      (0 < n)%coq_nat ->
      (exp_index r < n)%coq_nat
      /\ zeroCount r = zeros (exp_type r) (exp_index r)
      /\ (forall t i, (i < n)%coq_nat -> zeros t i <= zeroCount r)
      /\ (forall t i, (i < n)%coq_nat ->
            precedes t i (exp_type r) (exp_index r) -> zeros t i < zeroCount r)
      /\ (forall k, (k < n)%coq_nat -> zeros row_axis k = Z.of_nat n ->
            exp_type r = row_axis /\ (exp_index r <= k)%coq_nat
            /\ zeros row_axis (exp_index r) = Z.of_nat n)).
Proof.
  assert (Hfull : forall (maxZeros : Z) (rows cols : nat -> nat) (n : nat),
             maxZeros <= 0 -> (0 < n)%coq_nat ->
             (forall i, (rows i <= n)%coq_nat) ->
             (forall i, (cols i <= n)%coq_nat) ->
             let r := selectAxis maxZeros rows cols n in
             forall k, (k < n)%coq_nat ->
               zerosOn rows cols row_axis k = Z.of_nat n ->
               exp_type r = row_axis /\ (exp_index r <= k)%coq_nat
               /\ zerosOn rows cols row_axis (exp_index r) = Z.of_nat n).
  { intros maxZeros rows cols n Hmax Hn Hrows Hcols r k Hk Hfull.
    destruct (@selectAxis_spec maxZeros rows cols n Hmax Hn)
      as [Hi [Hc [Hall Hbefore]]].
    fold r in Hi, Hc, Hall, Hbefore.
    pose proof (Hall row_axis k Hk) as Hge.
    assert (Hle : zeroCount r <= Z.of_nat n).
    { rewrite -> Hc. destruct (exp_type r); simpl.
      - specialize (Hrows (exp_index r)). lia.
      - specialize (Hcols (exp_index r)). lia. }
    destruct (exp_type r) eqn:Et.
    - split; [reflexivity|]. simpl in Hc. split; [|simpl; lia].
      destruct (Nat.le_gt_cases (exp_index r) k) as [Hok|Hbad]; [exact Hok|].
      specialize (Hbefore row_axis k Hk Hbad). lia.
    - specialize (Hbefore row_axis k Hk I). lia. }
  split.
  - intros matrix n zeros r Hn.
    destruct (@selectAxis_spec 0 (LaplaceExpansion.zerosInRow matrix n)
                (LaplaceExpansion.zerosInColumn matrix n) n ltac:(lia) Hn)
      as [H1 [H2 [H3 H4]]].
    repeat split; try assumption;
      apply (@Hfull 0 (LaplaceExpansion.zerosInRow matrix n)
               (LaplaceExpansion.zerosInColumn matrix n) n ltac:(lia) Hn
               (fun i => count_le_size _ _ _) (fun i => count_le_size _ _ _)
               k); assumption.
  - intros matrix n zeros r Hn.
    destruct (@selectAxis_spec (-1)
                (LaplaceExpansionFractions.zerosInRow matrix n)
                (LaplaceExpansionFractions.zerosInColumn matrix n) n
                ltac:(lia) Hn)
      as [H1 [H2 [H3 H4]]].
    repeat split; try assumption;
      apply (@Hfull (-1) (LaplaceExpansionFractions.zerosInRow matrix n)
               (LaplaceExpansionFractions.zerosInColumn matrix n) n
               ltac:(lia) Hn
               (fun i => count_le_size _ _ _) (fun i => count_le_size _ _ _)
               k); assumption.
Qed.

End Selector.

(** * The classification of the solvers *)

Section Classification.

Lemma classified_floating_backSubstitution (augmentedMatrix : Matrix) :
  classified (GaussianElimination.backSubstitution augmentedMatrix).
Proof.
  unfold GaussianElimination.backSubstitution.
  repeat match goal with
         | |- context [if ?c then _ else _] => destruct c
         end; split; simpl; try reflexivity; discriminate.
Qed.

Lemma classified_exact_backSubstitution (augmentedMatrix : FractionMatrix)
  (s : Solution) :
  GaussianEliminationFractions.backSubstitution augmentedMatrix = Some s ->
  classified s.
Proof.
  unfold GaussianEliminationFractions.backSubstitution. intros H.
  bind_inv H; injection H as <-; split; simpl; try reflexivity; discriminate.
Qed.

(** CLAIM C3: every Solution a solver returns has exactly one of isUnique,
    hasInfiniteSolutions and hasNoSolution set, and has no variables unless
    isUnique is set. *)
Theorem solutions_classified :
  (forall A b, classified (GaussianElimination.solve A b))
  /\ (forall A b s, GaussianEliminationFractions.solve A b = Some s ->
                    classified s)
  /\ (forall A b steps s, GaussJordanFractions.solve A b = Some (steps, s) ->
                          classified s)
  /\ (forall A b s, LaplaceExpansion.solveByCramersRule A b = Some s ->
                    classified s)
  /\ (forall A b s, LaplaceExpansionFractions.solveByCramersRule A b = Some s ->
                    classified s).
Proof.
  repeat split.
  - apply classified_floating_backSubstitution.
  - apply classified_floating_backSubstitution.
  - unfold GaussianEliminationFractions.solve in H. bind_inv H.
    destruct (classified_exact_backSubstitution H) as [H1 _]. exact H1.
  - unfold GaussianEliminationFractions.solve in H. bind_inv H.
    destruct (classified_exact_backSubstitution H) as [_ H2]. exact H2.
  - unfold GaussJordanFractions.solve in H. bind_inv H;
      injection H as _ <-; reflexivity.
  - unfold GaussJordanFractions.solve in H. bind_inv H;
      injection H as _ <-; simpl; [reflexivity|discriminate].
  - unfold LaplaceExpansion.solveByCramersRule in H. bind_inv H;
      injection H as <-; reflexivity.
  - unfold LaplaceExpansion.solveByCramersRule in H. bind_inv H;
      injection H as <-; simpl; [reflexivity|discriminate].
  - unfold LaplaceExpansionFractions.solveByCramersRule in H. bind_inv H;
      injection H as <-; reflexivity.
  - unfold LaplaceExpansionFractions.solveByCramersRule in H. bind_inv H;
      injection H as <-; simpl; [reflexivity|discriminate].
Qed.

End Classification.

(** * Cramer's rule on a singular matrix *)

Section Cramer.

(** CLAIM C7: when the main determinant is (near-)zero, both variants of
    solveByCramersRule return hasInfiniteSolutions with no variables,
    whatever the constants. *)
Theorem cramer_singular_is_infinite :
  (forall A b d,
      LaplaceExpansion.calculateDeterminant A = Some d ->
      JS.nearZero d = true ->
      LaplaceExpansion.solveByCramersRule A b
      = Some (mkSolution [::] None (Some d) None false true false))
  /\ (forall A b fractionMatrix fractionConstants d,
         FractionMatrixUtils.fromNumberMatrix A = Some fractionMatrix ->
         FractionMatrixUtils.fromNumberVector b = Some fractionConstants ->
         LaplaceExpansionFractions.calculateDeterminant A = Some d ->
         Frac.isZero d = true ->
         LaplaceExpansionFractions.solveByCramersRule A b
         = Some (mkSolution [::] None (Some (Frac.toDecimal d)) (Some d)
                            false true false)).
Proof.
  split.
  - intros A b d Hd Hz. unfold LaplaceExpansion.solveByCramersRule.
    rewrite -> Hd. simpl. rewrite -> Hz. reflexivity.
  - intros A b fm fc d Hfm Hfc Hd Hz.
    unfold LaplaceExpansionFractions.solveByCramersRule.
    rewrite -> Hfm, Hfc, Hd. simpl. rewrite -> Hz. reflexivity.
Qed.

Lemma cramer_singular_is_infinite_witness :
  LaplaceExpansion.solveByCramersRule singularMatrix inconsistentConstants
  = Some (mkSolution [::] None (Some JS.zero) None false true false)
  /\ LaplaceExpansionFractions.solveByCramersRule singularMatrix
                                                  inconsistentConstants
     = Some (mkSolution [::] None (Some JS.zero) (Some (mkFraction 0 1))
                        false true false).
Proof.
  split.
  - apply (proj1 cramer_singular_is_infinite singularMatrix
                 inconsistentConstants JS.zero); vm_compute; reflexivity.
  - apply (proj2 cramer_singular_is_infinite singularMatrix
                 inconsistentConstants
                 [:: [:: mkFraction 1 1; mkFraction 2 1];
                     [:: mkFraction 2 1; mkFraction 4 1]]
                 [:: mkFraction 3 1; mkFraction 7 1] (mkFraction 0 1));
      vm_compute; reflexivity.
Defined.

End Cramer.

(** * GaussJordanFractions.solve *)

Section GaussJordan.

Lemma forwardLoop_cat (n m : nat) (s1 s2 : seq nat)
  (st : GaussJordanFractions.state) :
  GaussJordanFractions.forwardLoop n m (s1 ++ s2) st
  = (r <- GaussJordanFractions.forwardLoop n m s1 st ;;
     match r with
     | inl stopped => Some (inl stopped)
     | inr st' => GaussJordanFractions.forwardLoop n m s2 st'
     end).
Proof.
  revert st. induction s1 as [|i s1 IH]; intros st; simpl; [reflexivity|].
  destruct (GaussJordanFractions.forwardColumn n m i st) as [[stopped|st']|];
    simpl; [reflexivity|apply IH|reflexivity].
Qed.

Lemma iota_split (n i : nat) :
  i < n -> iota 0 n = iota 0 i ++ i :: iota i.+1 (n - i.+1).
Proof.
  move=> Hi. have Hn : n = i + (n - i.+1).+1 by rewrite addnS -addSn subnKC.
  by rewrite [in LHS]Hn iotaD add0n.
Qed.

(** CLAIM C8: if the forward phase reaches column i and the pivot entry is
    zero after the pivot search and row swap of that column, solve returns
    at once: the Solution is hasNoSolution with no variables and the steps
    are those pushed up to that point, none from a later column. *)
Theorem zero_pivot_is_no_solution :
  forall (matrix : Matrix) (constants : Vector)
         (fractionMatrix : FractionMatrix) (fractionConstants : FractionVector)
         (i : nat) (st st' : GaussJordanFractions.state),
    FractionMatrixUtils.fromNumberMatrix matrix = Some fractionMatrix ->
    FractionMatrixUtils.fromNumberVector constants = Some fractionConstants ->
    let n := size matrix in
    let st0 := GaussJordanFractions.initialState fractionMatrix
                                                 fractionConstants in
    let m := size (nth [::] (GaussJordanFractions.augmentedMatrix st0) 0) in
    i < n ->
    GaussJordanFractions.forwardLoop n m (iota 0 i) st0 = Some (inr st) ->
    GaussJordanFractions.pivoting n i st = Some st' ->
    Frac.isZero (fget (GaussJordanFractions.augmentedMatrix st') i i) = true ->
    GaussJordanFractions.solve matrix constants
    = Some (GaussJordanFractions.steps st',
            mkSolution [::] (Some [::]) None None false false true).
Proof.
  intros matrix constants fm fc i st st' Hfm Hfc n st0 m Hi Hloop Hpiv Hzero.
  unfold GaussJordanFractions.solve. rewrite -> Hfm, Hfc. simpl bind.
  fold n st0. destruct (n == 0) eqn:En.
  { move/eqP: En => En. by rewrite En in Hi. }
  fold m.
  rewrite (iota_split Hi).
  rewrite forwardLoop_cat Hloop /= /GaussJordanFractions.forwardColumn.
  by rewrite Hpiv /= Hzero.
Qed.

(** CLAIM C9: a unique solution returned by GaussJordanFractions.solve
    carries the determinant 1. *)
Theorem unique_solution_determinant_is_one :
  forall (matrix : Matrix) (constants : Vector) steps (s : Solution),
    GaussJordanFractions.solve matrix constants = Some (steps, s) ->
    isUnique s = true ->
    determinant s = Some JS.one.
Proof.
  intros matrix constants steps s H Hu.
  unfold GaussJordanFractions.solve in H. bind_inv H; injection H as _ <-.
  - discriminate Hu.
  - reflexivity.
Qed.

End GaussJordan.

(** * The rational number a Fraction denotes *)

Section FractionValue.

Import GRing.Theory.
Local Open Scope ring_scope.

Lemma int_of_Z_add (a b : Z) : int_of_Z (a + b) = int_of_Z a + int_of_Z b.
Proof. exact/eqP/(ZintD (Zint_int_of_Z a) (Zint_int_of_Z b)). Qed.

Lemma int_of_Z_mul (a b : Z) : int_of_Z (a * b) = int_of_Z a * int_of_Z b.
Proof. exact/eqP/(ZintM (Zint_int_of_Z a) (Zint_int_of_Z b)). Qed.

Lemma int_of_Z_opp (a : Z) : int_of_Z (- a) = - int_of_Z a.
Proof. exact/eqP/(ZintN (Zint_int_of_Z a)). Qed.

Lemma ZQ_add (a b : Z) : ZQ (a + b) = ZQ a + ZQ b.
Proof. by rewrite /ZQ int_of_Z_add intrD. Qed.

Lemma ZQ_mul (a b : Z) : ZQ (a * b) = ZQ a * ZQ b.
Proof. by rewrite /ZQ int_of_Z_mul intrM. Qed.

Lemma ZQ_opp (a : Z) : ZQ (- a) = - ZQ a.
Proof. by rewrite /ZQ int_of_Z_opp intrN. Qed.

Lemma ZQ_sub (a b : Z) : ZQ (a - b) = ZQ a - ZQ b.
Proof. by rewrite -Z.add_opp_r ZQ_add ZQ_opp. Qed.

Lemma ZQ_eq (a b : Z) : (ZQ a == ZQ b) = (a =? b)%bZ.
Proof.
  by rewrite /ZQ eqr_int (Zint_eq (Zint_int_of_Z a) (Zint_int_of_Z b)).
Qed.

Lemma ZQ_inj (a b : Z) : ZQ a = ZQ b -> a = b.
Proof. by move/eqP; rewrite ZQ_eq => /Z.eqb_spec. Qed.

Lemma ZQ_neq0 (a : Z) : a <> 0%bZ -> ZQ a != 0.
Proof.
  move=> Ha. have -> : (0 : rat) = ZQ 0 by [].
  rewrite ZQ_eq. by apply/Z.eqb_spec.
Qed.

Lemma ZQ0 : ZQ 0 = 0. Proof. by []. Qed.
Lemma ZQ1 : ZQ 1 = 1. Proof. by []. Qed.

Lemma den_neq0 (f : Fraction) : reduced f -> ZQ (denominator f) != 0.
Proof. move=> Hf. apply: ZQ_neq0. exact: reduced_den_neq0. Qed.

(** Two fractions in lowest terms with equal cross products are equal. *)
Lemma reduced_unique (a b : Fraction) :
  reduced a -> reduced b ->
  (numerator a * denominator b = numerator b * denominator a)%bZ -> a = b.
Proof.
  destruct a as [na da], b as [nb db]. unfold reduced. simpl.
  intros [Hda Hga] [Hdb Hgb] Heq.
  assert (Hd1 : (da | db)%bZ).
  { apply Z.gauss with na.
    - exists nb. lia.
    - rewrite -> Z.gcd_comm. exact Hga. }
  assert (Hd2 : (db | da)%bZ).
  { apply Z.gauss with nb.
    - exists na. lia.
    - rewrite -> Z.gcd_comm. exact Hgb. }
  assert (Hd : da = db) by (apply Z.divide_antisym_nonneg; try lia; assumption).
  subst db. f_equal. nia.
Qed.

Lemma qval_inj (a b : Fraction) : reduced a -> reduced b -> qval a = qval b -> a = b.
Proof.
  move=> Ha Hb /eqP. rewrite /qval eqr_div ?den_neq0 // -!ZQ_mul ZQ_eq.
  move/Z.eqb_spec => Heq. exact: reduced_unique.
Qed.

Lemma qval_new (n d : Z) :
  d <> 0%bZ ->
  exists f, [/\ Frac.new n d = Some f, reduced f & qval f = ZQ n / ZQ d].
Proof.
  move=> Hd. case: (new_spec n Hd) => f [Hf [Hr Heq]]. exists f; split=> //.
  apply/eqP. rewrite /qval eqr_div ?den_neq0 ?ZQ_neq0 // -!ZQ_mul.
  by rewrite Heq.
Qed.

Lemma isZero_qval (f : Fraction) : reduced f -> Frac.isZero f = (qval f == 0).
Proof.
  move=> Hf. rewrite /qval mulf_eq0 invr_eq0 (negbTE (den_neq0 Hf)) orbF.
  by rewrite /Frac.isZero -ZQ_eq.
Qed.

Lemma clone_reduced (f : Fraction) : reduced f -> Frac.clone f = Some f.
Proof.
  move=> Hf. rewrite /Frac.clone.
  case: (new_spec (numerator f) (reduced_den_neq0 Hf)) => g [-> [Hg Heq]].
  congr Some. exact: reduced_unique.
Qed.

Lemma add_qval (a b : Fraction) :
  reduced a -> reduced b ->
  exists c, [/\ Frac.add a b = Some c, reduced c & qval c = qval a + qval b].
Proof.
  move=> Ha Hb. rewrite /Frac.add.
  have Hd : (denominator a * denominator b)%bZ <> 0%bZ.
  { move: (reduced_den_neq0 Ha) (reduced_den_neq0 Hb). lia. }
  case: (qval_new (numerator a * denominator b + numerator b * denominator a) Hd)
    => c [Hc Hr Hv].
  exists c; split=> //.
  by rewrite Hv /qval addf_div ?den_neq0 // ZQ_add !ZQ_mul.
Qed.

Lemma subtract_qval (a b : Fraction) :
  reduced a -> reduced b ->
  exists c, [/\ Frac.subtract a b = Some c, reduced c & qval c = qval a - qval b].
Proof.
  move=> Ha Hb. rewrite /Frac.subtract.
  have Hd : (denominator a * denominator b)%bZ <> 0%bZ.
  { move: (reduced_den_neq0 Ha) (reduced_den_neq0 Hb). lia. }
  case: (qval_new (numerator a * denominator b - numerator b * denominator a) Hd)
    => c [Hc Hr Hv].
  exists c; split=> //.
  rewrite Hv /qval -mulNr addf_div ?den_neq0 // ZQ_sub !ZQ_mul.
  by rewrite mulNr.
Qed.

Lemma multiply_qval (a b : Fraction) :
  reduced a -> reduced b ->
  exists c, [/\ Frac.multiply a b = Some c, reduced c & qval c = qval a * qval b].
Proof.
  move=> Ha Hb. rewrite /Frac.multiply.
  have Hd : (denominator a * denominator b)%bZ <> 0%bZ.
  { move: (reduced_den_neq0 Ha) (reduced_den_neq0 Hb). lia. }
  case: (qval_new (numerator a * numerator b) Hd) => c [Hc Hr Hv].
  exists c; split=> //.
  by rewrite Hv /qval mulf_div !ZQ_mul.
Qed.

Lemma divide_qval (a b : Fraction) :
  reduced a -> reduced b -> Frac.isZero b = false ->
  exists c, [/\ Frac.divide a b = Some c, reduced c & qval c = qval a / qval b].
Proof.
  move=> Ha Hb Hz. rewrite /Frac.divide. rewrite /Frac.isZero in Hz.
  rewrite Hz.
  have Hnb : numerator b <> 0%bZ by apply/Z.eqb_spec; rewrite Hz.
  have Hd : (denominator a * numerator b)%bZ <> 0%bZ.
  { move: (reduced_den_neq0 Ha). lia. }
  case: (qval_new (numerator a * denominator b) Hd) => c [Hc Hr Hv].
  exists c; split=> //.
  rewrite Hv /qval !ZQ_mul invf_div mulf_div.
  by rewrite [ZQ (denominator a) * _]mulrC.
Qed.

Lemma negate_qval (a : Fraction) :
  reduced a ->
  exists c, [/\ Frac.negate a = Some c, reduced c & qval c = - qval a].
Proof.
  move=> Ha. rewrite /Frac.negate.
  case: (qval_new (- numerator a) (reduced_den_neq0 Ha)) => c [Hc Hr Hv].
  exists c; split=> //.
  by rewrite Hv /qval ZQ_opp mulNr.
Qed.

Lemma abs_isZero (a : Fraction) :
  reduced a ->
  exists c, [/\ Frac.abs a = Some c, reduced c
              & Frac.isZero c = Frac.isZero a].
Proof.
  move=> Ha. rewrite /Frac.abs.
  case: (new_spec (Z.abs (numerator a)) (reduced_den_neq0 Ha))
    => c [Hc [Hr Heq]].
  exists c; split=> //. rewrite /Frac.isZero.
  case: Ha => Hda _. case: Hr => Hdc _.
  apply/Z.eqb_spec. case: Z.eqb_spec => H; nia.
Qed.

Lemma new_int_qval (n : Z) :
  exists f, [/\ Frac.new n 1 = Some f, reduced f & qval f = ZQ n].
Proof.
  have H1 : 1%bZ <> 0%bZ by [].
  case: (qval_new n H1) => f [Hf Hr Hv]. exists f; split=> //.
  by rewrite Hv ZQ1 divr1.
Qed.

End FractionValue.

(** * Exact matrices as matrices over the rationals *)

Section ExactMatrices.

Import GRing.Theory.
Local Open Scope ring_scope.

Lemma nth_filter_index (T : Type) (x0 : T) (k : nat) (s : seq T) (i : nat) :
  nth x0 (filter_index k s) i = nth x0 s (bump k i).
Proof.
  rewrite /filter_index /bump nth_cat size_take.
  case: (ltnP k (size s)) => Hk.
  - case: (ltnP i k) => Hi.
    + by rewrite nth_take.
    + by rewrite nth_drop addSn subnKC.
  - rewrite take_oversize // drop_oversize; first exact: leqW.
    case: (ltnP i (size s)) => Hi.
    + by rewrite leqNgt (leq_trans Hi Hk) add0n.
    + rewrite nth_nil nth_default //. exact: leq_trans Hi (leq_addl _ _).
Qed.

Lemma size_filter_index (T : Type) (k : nat) (s : seq T) :
  (k < size s)%N -> size (filter_index k s) = (size s).-1.
Proof.
  move=> Hk. rewrite /filter_index size_cat size_take Hk size_drop.
  move/ltP: Hk => Hk. rewrite -plusE -minusE. lia.
Qed.

Lemma fget_minor (M : FractionMatrix) (r c i j : nat) :
  fget (LaplaceExpansionFractions.getMinorFraction M r c) i j
  = fget M (bump r i) (bump c j).
Proof.
  rewrite /fget /LaplaceExpansionFractions.getMinorFraction.
  have -> : nth [::] [seq filter_index c row | row <- filter_index r M] i
            = filter_index c (nth [::] (filter_index r M) i).
  { case: (ltnP i (size (filter_index r M))) => Hi.
    - by rewrite (nth_map [::]).
    - by rewrite !nth_default // size_map. }
  by rewrite !nth_filter_index.
Qed.

Lemma bump_lt (h i n : nat) : (i < n)%N -> (bump h i < n.+1)%N.
Proof.
  move=> Hi. rewrite /bump. case: (h <= i)%N; rewrite ?add1n ?add0n //.
  exact: ltnW.
Qed.

Lemma wfm_minor (n : nat) (M : FractionMatrix) (r c : nat) :
  wfm n.+1 M -> (r < n.+1)%N -> (c < n.+1)%N ->
  wfm n (LaplaceExpansionFractions.getMinorFraction M r c).
Proof.
  move=> [Hs Hrows Hred] Hr Hc.
  have Hsz : size (filter_index r M) = n by rewrite size_filter_index ?Hs.
  split.
  - by rewrite /LaplaceExpansionFractions.getMinorFraction size_map.
  - move=> i Hi. rewrite /LaplaceExpansionFractions.getMinorFraction.
    rewrite (nth_map [::]) ?Hsz // nth_filter_index.
    have Hb : (bump r i < n.+1)%N by exact: bump_lt.
    by rewrite size_filter_index Hrows.
  - move=> i j Hi Hj. rewrite fget_minor. apply: Hred; exact: bump_lt.
Qed.

Lemma mx_minor (n : nat) (M : FractionMatrix) (r c : 'I_n.+1) :
  mx n (LaplaceExpansionFractions.getMinorFraction M r c)
  = row' r (col' c (mx n.+1 M)).
Proof.
  apply/matrixP => i j. by rewrite !mxE /entry fget_minor.
Qed.

Lemma det_mx22 (A : 'M[rat]_2) :
  \det A = A ord0 ord0 * A (lift ord0 ord0) (lift ord0 ord0)
           - A ord0 (lift ord0 ord0) * A (lift ord0 ord0) ord0.
Proof.
  rewrite (expand_det_row A ord0) !big_ord_recl big_ord0 addr0.
  rewrite /cofactor !det_mx11 !mxE /=.
  have -> : lift ord0 (ord0 : 'I_1) = lift ord0 (ord0 : 'I_1) :> 'I_2 by [].
  have -> : lift (lift ord0 (ord0 : 'I_1)) (ord0 : 'I_1) = ord0 :> 'I_2
    by apply/val_inj.
  rewrite /bump /= !addn0 expr0 expr1 mul1r mulN1r mulrN.
  by [].
Qed.

Lemma qval_sign (k : nat) :
  exists s, [/\ LaplaceExpansionFractions.signFraction k = Some s, reduced s
              & qval s = (-1) ^+ k].
Proof.
  rewrite /LaplaceExpansionFractions.signFraction.
  case: (new_int_qval (if odd k then (-1)%bZ else 1%bZ)) => s [Hs Hr Hv].
  exists s; split=> //. rewrite Hv -signr_odd.
  by case: (odd k); rewrite ?expr1 ?expr0 // ZQ_opp ZQ1.
Qed.

(** One term of an expansion, added to the running sum. *)
Lemma term_qval (e acc : Fraction) (k : nat) (md : option Fraction) (dm : rat) :
  reduced e -> reduced acc ->
  (exists m, [/\ md = Some m, reduced m & qval m = dm]) ->
  exists acc',
    [/\ (sign <- LaplaceExpansionFractions.signFraction k ;;
         minorDet <- md ;;
         cofactor <- Frac.multiply sign minorDet ;;
         contribution <- Frac.multiply e cofactor ;;
         Frac.add acc contribution) = Some acc',
        reduced acc'
      & qval acc' = qval acc + qval e * ((-1) ^+ k * dm)].
Proof.
  move=> He Hacc [m [-> Hm Hvm]].
  case: (qval_sign k) => s [-> Hs Hvs] /=.
  case: (multiply_qval Hs Hm) => cof [-> Hcof Hvcof] /=.
  case: (multiply_qval He Hcof) => con [-> Hcon Hvcon] /=.
  case: (add_qval Hacc Hcon) => acc' [-> Hacc' Hvacc'].
  exists acc'; split=> //.
  by rewrite Hvacc' Hvcon Hvcof Hvs Hvm.
Qed.

(** A loop that adds the term [t j] in pass [j]. *)
Lemma foldM_sum (step : Fraction -> nat -> option Fraction) (t : nat -> rat)
  (js : seq nat) :
  (forall j acc, j \in js -> reduced acc ->
     exists acc', [/\ step acc j = Some acc', reduced acc'
                    & qval acc' = qval acc + t j]) ->
  forall acc, reduced acc ->
    exists r, [/\ foldM step js acc = Some r, reduced r
                & qval r = qval acc + \sum_(j <- js) t j].
Proof.
  elim: js => [|j js IH] Hstep acc Hacc.
  - exists acc; split=> //. by rewrite big_nil addr0.
  - case: (Hstep j acc (mem_head _ _) Hacc) => acc' [Hs Hr Hv].
    have Hstep' : forall j0 acc0, j0 \in js -> reduced acc0 ->
        exists acc'0, [/\ step acc0 j0 = Some acc'0, reduced acc'0
                        & qval acc'0 = qval acc0 + t j0].
    { move=> j0 acc0 Hj0. apply: Hstep. by rewrite in_cons Hj0 orbT. }
    case: (IH Hstep' acc' Hr) => r [Hf Hrr Hvr].
    exists r; split=> //=.
    + by rewrite Hs.
    + by rewrite Hvr Hv big_cons addrA.
Qed.

Lemma sum_iota_ord (n : nat) (t : nat -> rat) :
  \sum_(j <- iota 0 n) t j = \sum_(j < n) t j.
Proof. by rewrite -[n in iota 0 n]subn0 -/(index_iota 0 n) big_mkord. Qed.

End ExactMatrices.

(** * The cofactor expansion computes the determinant *)

Section LaplaceDeterminant.

Import GRing.Theory.
Local Open Scope ring_scope.

Lemma det2_qval (M : FractionMatrix) :
  wfm 2 M ->
  exists d, [/\ LaplaceExpansionFractions.det2 M = Some d, reduced d
              & qval d = \det (mx 2 M)].
Proof.
  move=> [Hs Hrows Hred]. rewrite /LaplaceExpansionFractions.det2.
  case: (multiply_qval (Hred 0%N 0%N isT isT) (Hred 1%N 1%N isT isT))
    => t1 [-> Ht1 Hv1] /=.
  case: (multiply_qval (Hred 0%N 1%N isT isT) (Hred 1%N 0%N isT isT))
    => t2 [-> Ht2 Hv2] /=.
  case: (subtract_qval Ht1 Ht2) => d [-> Hd Hvd].
  exists d; split=> //.
  by rewrite Hvd Hv1 Hv2 det_mx22 !mxE.
Qed.

Lemma zero_qval :
  exists z, [/\ Frac.new 0 1 = Some z, reduced z & qval z = 0].
Proof. case: (new_int_qval 0) => z [Hz Hr Hv]. by exists z. Qed.

(** The loop of an expansion along a row. *)
Lemma row_loop_qval (n : nat) (M : FractionMatrix) (row : 'I_n.+1)
  (minorDet : FractionMatrix -> option Fraction) :
  wfm n.+1 M ->
  (forall j : 'I_n.+1,
      exists m, [/\ minorDet (LaplaceExpansionFractions.getMinorFraction M row j)
                    = Some m,
                    reduced m
                  & qval m
                    = \det (mx n (LaplaceExpansionFractions.getMinorFraction
                                    M row j))]) ->
  exists d,
    [/\ (zero <- Frac.new 0 1 ;;
         foldM (fun determinant j =>
                  if Frac.isZero (fget M row j) then Some determinant
                  else
                    let minor :=
                      LaplaceExpansionFractions.getMinorFraction M row j in
                    sign <- LaplaceExpansionFractions.signFraction (row + j) ;;
                    minorDet <- minorDet minor ;;
                    cofactor <- Frac.multiply sign minorDet ;;
                    contribution <- Frac.multiply (fget M row j) cofactor ;;
                    Frac.add determinant contribution)
               (iota 0 n.+1) zero) = Some d,
        reduced d
      & qval d = \det (mx n.+1 M)].
Proof.
  move=> Hwf Hminor. case: (Hwf) => Hs Hrows Hred.
  case: zero_qval => z [-> Hz Hvz] /=.
  pose t (j : nat) : rat :=
    entry M row j
    * ((-1) ^+ (row + j)
       * \det (mx n (LaplaceExpansionFractions.getMinorFraction M row j))).
  set step := (X in foldM X).
  have Hstep : forall j acc, j \in iota 0 n.+1 -> reduced acc ->
      exists acc', [/\ step acc j = Some acc', reduced acc'
                     & qval acc' = qval acc + t j].
  { move=> j acc. rewrite mem_iota add0n => /andP [_ Hj] Hacc.
    rewrite /step. have He := Hred row j (ltn_ord row) Hj.
    case Hzero: (Frac.isZero (fget M row j)).
    - exists acc; split=> //.
      move: Hzero. rewrite (isZero_qval He) => /eqP Hzero.
      by rewrite /t /entry Hzero mul0r addr0.
    - exact: (term_qval (row + j) He Hacc (Hminor (Ordinal Hj))). }
  case: (foldM_sum Hstep Hz) => d [Hd Hrd Hvd].
  exists d; split=> //.
  rewrite Hvd Hvz add0r sum_iota_ord (expand_det_row _ row).
  apply: eq_bigr => j _.
  by rewrite /t /cofactor mxE mx_minor.
Qed.

(** The loop of an expansion along a column. *)
Lemma column_loop_qval (n : nat) (M : FractionMatrix) (col : 'I_n.+1)
  (minorDet : FractionMatrix -> option Fraction) :
  wfm n.+1 M ->
  (forall i : 'I_n.+1,
      exists m, [/\ minorDet (LaplaceExpansionFractions.getMinorFraction M i col)
                    = Some m,
                    reduced m
                  & qval m
                    = \det (mx n (LaplaceExpansionFractions.getMinorFraction
                                    M i col))]) ->
  exists d,
    [/\ (zero <- Frac.new 0 1 ;;
         foldM (fun determinant i =>
                  if Frac.isZero (fget M i col) then Some determinant
                  else
                    let minor :=
                      LaplaceExpansionFractions.getMinorFraction M i col in
                    sign <- LaplaceExpansionFractions.signFraction (i + col) ;;
                    minorDet <- minorDet minor ;;
                    cofactor <- Frac.multiply sign minorDet ;;
                    contribution <- Frac.multiply (fget M i col) cofactor ;;
                    Frac.add determinant contribution)
               (iota 0 n.+1) zero) = Some d,
        reduced d
      & qval d = \det (mx n.+1 M)].
Proof.
  move=> Hwf Hminor. case: (Hwf) => Hs Hrows Hred.
  case: zero_qval => z [-> Hz Hvz] /=.
  pose t (i : nat) : rat :=
    entry M i col
    * ((-1) ^+ (i + col)
       * \det (mx n (LaplaceExpansionFractions.getMinorFraction M i col))).
  set step := (X in foldM X).
  have Hstep : forall i acc, i \in iota 0 n.+1 -> reduced acc ->
      exists acc', [/\ step acc i = Some acc', reduced acc'
                     & qval acc' = qval acc + t i].
  { move=> i acc. rewrite mem_iota add0n => /andP [_ Hi] Hacc.
    rewrite /step. have He := Hred i col Hi (ltn_ord col).
    case Hzero: (Frac.isZero (fget M i col)).
    - exists acc; split=> //.
      move: Hzero. rewrite (isZero_qval He) => /eqP Hzero.
      by rewrite /t /entry Hzero mul0r addr0.
    - exact: (term_qval (i + col) He Hacc (Hminor (Ordinal Hi))). }
  case: (foldM_sum Hstep Hz) => d [Hd Hrd Hvd].
  exists d; split=> //.
  rewrite Hvd Hvz add0r sum_iota_ord (expand_det_col _ col).
  apply: eq_bigr => i _.
  by rewrite /t /cofactor mxE mx_minor.
Qed.

Lemma base1_qval (M : FractionMatrix) :
  wfm 1 M ->
  exists d, [/\ Frac.clone (fget M 0 0) = Some d, reduced d
              & qval d = \det (mx 1 M)].
Proof.
  move=> [Hs Hrows Hred]. have H00 := Hred 0%N 0%N isT isT.
  exists (fget M 0 0); split=> //; first exact: clone_reduced.
  by rewrite det_mx11 mxE.
Qed.

Lemma expandByRow_qval (fuel : nat) :
  forall (n : nat) (M : FractionMatrix) (row : nat),
    wfm n.+1 M -> (row < n.+1)%N -> (n.+1 < fuel)%N ->
    exists d, [/\ LaplaceExpansionFractions.expandByRow fuel M row = Some d,
                  reduced d
                & qval d = \det (mx n.+1 M)].
Proof.
  elim: fuel => [|fuel IH] n M row Hwf Hrow Hfuel //.
  case: (Hwf) => Hs Hrows Hred.
  rewrite /= Hs. case: n Hwf Hs Hrows Hred Hrow Hfuel => [|n] Hwf Hs Hrows Hred Hrow Hfuel.
  { exact: base1_qval. }
  case: n Hwf Hs Hrows Hred Hrow Hfuel => [|n] Hwf Hs Hrows Hred Hrow Hfuel.
  { exact: det2_qval. }
  rewrite /=.
  apply: (@row_loop_qval n.+2 M (Ordinal Hrow)
            (fun minor => LaplaceExpansionFractions.expandByRow fuel minor 0))
    => // j.
  apply: IH => //. exact: wfm_minor.
Qed.

Lemma findOptimal_index_lt (M : FractionMatrix) :
  (0 < size M)%N ->
  (exp_index (LaplaceExpansionFractions.findOptimalExpansionRowOrColumn M)
   < size M)%N.
Proof.
  move=> /ltP Hn.
  have Hm : (-1 <= 0)%bZ by lia.
  case: (@selectAxis_spec (-1)%bZ
           (LaplaceExpansionFractions.zerosInRow M (size M))
           (LaplaceExpansionFractions.zerosInColumn M (size M))
           (size M) Hm Hn) => /ltP H _.
  exact: H.
Qed.

Lemma expandByColumn_qval (fuel : nat) :
  forall (n : nat) (M : FractionMatrix) (col : nat),
    wfm n.+1 M -> (col < n.+1)%N -> (n.+1 < fuel)%N ->
    exists d, [/\ LaplaceExpansionFractions.expandByColumn fuel M col = Some d,
                  reduced d
                & qval d = \det (mx n.+1 M)].
Proof.
  elim: fuel => [|fuel IH] n M col Hwf Hcol Hfuel //.
  case: (Hwf) => Hs Hrows Hred.
  rewrite /= Hs. case: n Hwf Hs Hrows Hred Hcol Hfuel => [|n] Hwf Hs Hrows Hred Hcol Hfuel.
  { exact: base1_qval. }
  case: n Hwf Hs Hrows Hred Hcol Hfuel => [|n] Hwf Hs Hrows Hred Hcol Hfuel.
  { exact: det2_qval. }
  rewrite /=.
  apply: (@column_loop_qval n.+2 M (Ordinal Hcol)
            (fun minor =>
               LaplaceExpansionFractions.expandByColumn fuel minor
                 (exp_index
                    (LaplaceExpansionFractions.findOptimalExpansionRowOrColumn
                       minor))))
    => // i.
  have Hm : wfm n.+2 (LaplaceExpansionFractions.getMinorFraction M i col)
    by exact: wfm_minor.
  apply: IH => //.
  case: (Hm) => Hsm _ _.
  have := @findOptimal_index_lt
            (LaplaceExpansionFractions.getMinorFraction M i col).
  rewrite Hsm. exact.
Qed.

(** The determinant of the cofactor engine is the determinant. *)
Lemma laplace_determinantOf_qval (n : nat) (M : FractionMatrix) :
  wfm n.+1 M ->
  exists d, [/\ LaplaceExpansionFractions.determinantOf M = Some d, reduced d
              & qval d = \det (mx n.+1 M)].
Proof.
  move=> Hwf. case: (Hwf) => Hs _ _.
  rewrite /LaplaceExpansionFractions.determinantOf.
  have Hidx := @findOptimal_index_lt M. rewrite Hs in Hidx.
  rewrite Hs. case: (exp_type _).
  - apply: expandByRow_qval => //. exact: Hidx.
  - apply: expandByColumn_qval => //. exact: Hidx.
Qed.

End LaplaceDeterminant.

(** * Elimination computes the determinant *)

Section ListLoops.

Lemma mapM_id (A : Type) (x0 : A) (f : A -> option A) (s : seq A) :
  (forall i, (i < size s)%N -> f (nth x0 s i) = Some (nth x0 s i)) ->
  mapM f s = Some s.
Proof.
  elim: s => [|a s IH] H //=.
  rewrite (H 0%N isT) /= IH // => i Hi. exact: (H i.+1).
Qed.

Lemma mapM_iota_from (B : Type) (y0 : B) (f : nat -> option B)
  (P : nat -> B -> Prop) (k : nat) :
  forall m,
    (forall j, (j < k)%N -> exists y, f (m + j)%N = Some y /\ P (m + j)%N y) ->
    exists ys, [/\ mapM f (iota m k) = Some ys, size ys = k
                 & forall j, (j < k)%N -> P (m + j)%N (nth y0 ys j)].
Proof.
  elim: k => [|k IH] m H.
  - by exists [::]; split.
  - case: (H 0%N isT) => y. rewrite addn0 => -[Hy HP].
    have H' : forall j, (j < k)%N ->
        exists y, f (m.+1 + j)%N = Some y /\ P (m.+1 + j)%N y.
    { move=> j Hj. rewrite addSnnS. exact: H. }
    case: (IH m.+1 H') => ys [Hys Hsz Hall].
    exists (y :: ys); split=> /=.
    + by rewrite Hy /= Hys.
    + by rewrite Hsz.
    + case=> [|j] Hj /=; first by rewrite addn0.
      rewrite -addSnnS. exact: Hall.
Qed.

Lemma mapM_iota (B : Type) (y0 : B) (f : nat -> option B)
  (P : nat -> B -> Prop) (k : nat) :
  (forall j, (j < k)%N -> exists y, f j = Some y /\ P j y) ->
  exists ys, [/\ mapM f (iota 0 k) = Some ys, size ys = k
               & forall j, (j < k)%N -> P j (nth y0 ys j)].
Proof. move=> H. exact: (@mapM_iota_from B y0 f P k 0%N). Qed.

End ListLoops.

Section RowOperations.

Import GRing.Theory.
Local Open Scope ring_scope.

Lemma cloneMatrix_wfm (n : nat) (M : FractionMatrix) :
  wfm n M -> FractionMatrixUtils.cloneMatrix M = Some M.
Proof.
  move=> [Hs Hrows Hred]. rewrite /FractionMatrixUtils.cloneMatrix.
  apply: (@mapM_id _ [::]) => i. rewrite Hs => Hi.
  apply: (@mapM_id _ noFraction) => j. rewrite Hrows // => Hj.
  apply: clone_reduced. exact: Hred.
Qed.

Lemma fget_set_nth (W : FractionMatrix) (j : nat) (newRow : seq Fraction)
  (r c : nat) :
  fget (set_nth [::] W j newRow) r c
  = if r == j then nth noFraction newRow c else fget W r c.
Proof. by rewrite /fget nth_set_nth /=; case: (r == j). Qed.

Lemma fget_swap_index (W : FractionMatrix) (a b r c : nat) :
  fget (swap_index [::] W a b) r c
  = if r == b then fget W a c else if r == a then fget W b c else fget W r c.
Proof.
  rewrite /fget /swap_index nth_set_nth /=.
  case: (r == b) => //. rewrite nth_set_nth /=. by case: (r == a).
Qed.

Lemma size_swap_index (T : Type) (x0 : T) (s : seq T) (a b : nat) :
  (a < size s)%N -> (b < size s)%N -> size (swap_index x0 s a b) = size s.
Proof.
  move=> Ha Hb. rewrite /swap_index !size_set_nth.
  move/ltP: Ha => Ha. move/ltP: Hb => Hb.
  rewrite /maxn. do 2 case: ifP => /ltP; lia.
Qed.

Lemma trail0 (n : nat) (W : FractionMatrix) : trail 0 n W = mx n W.
Proof. by apply/matrixP => r c; rewrite !mxE. Qed.

Lemma det_trail_zero_column (k m : nat) (W : FractionMatrix) :
  (forall r, (r < m.+1)%N -> entry W (k + r) k = 0) ->
  \det (trail k m.+1 W) = 0.
Proof.
  move=> Hz. rewrite (expand_det_col _ ord0). apply: big1 => r _.
  by rewrite mxE /= addn0 Hz ?mul0r.
Qed.

Lemma det_trail_step (k m : nat) (W : FractionMatrix) :
  (forall r, (0 < r)%N -> (r < m.+1)%N -> entry W (k + r) k = 0) ->
  \det (trail k m.+1 W) = entry W k k * \det (trail k.+1 m W).
Proof.
  move=> Hz. rewrite (expand_det_col _ ord0) big_ord_recl big1.
  { move=> r _. rewrite mxE /= addn0 Hz ?mul0r //. exact: (ltn_ord r). }
  rewrite addr0 mxE /= !addn0 /cofactor expr0 mul1r. congr (_ * \det _).
  apply/matrixP => r c. by rewrite !mxE /= /bump /= !add1n !addnS !addSn.
Qed.

Lemma det_swap_rows (m : nat) (A B : 'M[rat]_m) (a b : 'I_m) :
  a != b ->
  (forall c, B a c = A b c) -> (forall c, B b c = A a c) ->
  (forall r c, r != a -> r != b -> B r c = A r c) ->
  \det B = - \det A.
Proof.
  move=> Hab Ha Hb Hother.
  have -> : B = xrow a b A.
  { apply/matrixP => r c. rewrite !mxE. case: tpermP => [->|->|/eqP Hra /eqP Hrb] //.
    exact: Hother. }
  by rewrite xrowE det_mulmx det_perm odd_tperm Hab expr1 mulN1r.
Qed.

Lemma det_add_row (m : nat) (A B : 'M[rat]_m) (j i : 'I_m) (f : rat) :
  i != j ->
  (forall c, B j c = A j c + A i c * f) ->
  (forall r c, r != j -> B r c = A r c) ->
  \det B = \det A.
Proof.
  move=> Hij Hj Hother.
  pose C : 'M[rat]_m := \matrix_(r, c) (if r == j then A i c else A r c).
  have HC : \det C = 0.
  { apply: (@determinant_alternate _ _ C i j) => // c.
    by rewrite !mxE eqxx (negbTE Hij). }
  rewrite (@determinant_multilinear _ _ B A C j 1 f) ?HC ?mulr0 ?addr0 ?mul1r //.
  - apply/rowP => c. rewrite !mxE eqxx Hj mul1r. by rewrite mulrC.
  - apply/matrixP => r c. rewrite !mxE. by rewrite Hother // eq_sym neq_lift.
  - apply/matrixP => r c. rewrite !mxE. by rewrite eq_sym (negbTE (neq_lift _ _)) Hother // eq_sym neq_lift.
Qed.

End RowOperations.

Section Elimination.

Import GRing.Theory.
Local Open Scope ring_scope.

Lemma det_trail_add_row (n k m : nat) (W W' : FractionMatrix) (j : nat)
  (f : rat) :
  (k + m = n)%N -> (k < j)%N -> (j < n)%N ->
  (forall r c, r != j -> fget W' r c = fget W r c) ->
  (forall c, (c < n)%N -> entry W' j c = entry W j c + entry W k c * f) ->
  \det (trail k m W') = \det (trail k m W).
Proof.
  move=> Hn Hkj Hjn Hother Hrow.
  have Hjm : (j - k < m)%N by rewrite ltn_subLR ?Hn // ltnW.
  have H0m : (0 < m)%N by exact: leq_ltn_trans Hjm.
  have Hkjk : (k + (j - k))%N = j by rewrite subnKC // ltnW.
  apply: (@det_add_row m _ _ (Ordinal Hjm) (Ordinal H0m) f).
  - by rewrite -val_eqE /= eq_sym -lt0n subn_gt0.
  - move=> c. rewrite !mxE /= addn0 Hkjk. apply: Hrow.
    by rewrite -Hn ltn_add2l.
  - move=> r c Hr. rewrite !mxE /entry Hother //.
    apply: contra Hr => /eqP Hr. by rewrite -val_eqE /= -(eqn_add2l k) Hkjk Hr.
Qed.

Lemma det_trail_swap (n k m : nat) (W W' : FractionMatrix) (p : nat) :
  (k + m = n)%N -> (k < p)%N -> (p < n)%N ->
  (forall r c, fget W' r c
               = if r == p then fget W k c
                 else if r == k then fget W p c else fget W r c) ->
  \det (trail k m W') = - \det (trail k m W).
Proof.
  move=> Hn Hkp Hpn Hswap.
  have Hpm : (p - k < m)%N by rewrite ltn_subLR ?Hn // ltnW.
  have H0m : (0 < m)%N by exact: leq_ltn_trans Hpm.
  have Hkpk : (k + (p - k))%N = p by rewrite subnKC // ltnW.
  have Hpk : (p == k) = false by rewrite gtn_eqF.
  apply: (@det_swap_rows m _ _ (Ordinal H0m) (Ordinal Hpm)).
  - by rewrite -val_eqE /= eq_sym -lt0n subn_gt0.
  - move=> c. by rewrite !mxE /= /entry addn0 Hkpk Hswap eq_sym Hpk eqxx.
  - move=> c. by rewrite !mxE /= /entry addn0 Hkpk Hswap eqxx.
  - move=> r c Hr0 Hrp. rewrite !mxE /entry Hswap.
    have -> : (k + r == p)%N = false.
    { apply: negbTE. apply: contra Hrp => /eqP Hr.
      by rewrite -val_eqE /= -(eqn_add2l k) Hkpk Hr. }
    have -> : (k + r == k)%N = false.
    { apply: negbTE. apply: contra Hr0 => /eqP Hr.
      by rewrite -val_eqE /= -(eqn_add2l k) addn0 Hr. }
    by [].
Qed.

(** The search for the pivot of column [col] from row [i] on. *)
Lemma findPivot_loop (n : nat) (W : FractionMatrix) (i col : nat) :
  wfm n W -> (col < n)%N ->
  forall (l j maxRow : nat) (maxValue : Fraction),
    (j + l = n)%N -> (i <= maxRow)%N -> (maxRow < j)%N ->
    Frac.isZero maxValue = Frac.isZero (fget W maxRow col) ->
    (Frac.isZero maxValue ->
     forall r, (i <= r)%N -> (r < j)%N -> Frac.isZero (fget W r col)) ->
    exists p v,
      [/\ foldM (fun '(maxRow, maxValue) i =>
                   value <- Frac.abs (fget W i col) ;;
                   if ~~ Frac.isZero value
                      && (Frac.isZero maxValue
                          || JS.gt (Frac.toDecimal value)
                                   (Frac.toDecimal maxValue))
                   then Some (i, value) else Some (maxRow, maxValue))
                (iota j l) (maxRow, maxValue) = Some (p, v),
          (i <= p)%N, (p < n)%N
        & Frac.isZero (fget W p col) ->
          forall r, (i <= r)%N -> (r < n)%N -> Frac.isZero (fget W r col)].
Proof.
  move=> Hwf Hcol. case: (Hwf) => Hs Hrows Hred.
  elim=> [|l IH] j maxRow maxValue Hn Hi Hj Hmax Hzero.
  - rewrite addn0 in Hn. rewrite -Hn. exists maxRow, maxValue; split=> //.
    by rewrite -Hmax.
  - have Hjn : (j < n)%N by rewrite -Hn -addn1 leq_add2l.
    case: (abs_isZero (Hred j col Hjn Hcol)) => value [Hv Hrv Hzv].
    rewrite /= Hv /=. rewrite addnS -addSn in Hn.
    case Hcond: (~~ Frac.isZero value && _).
    + move/andP: Hcond => [Hnz _].
      apply: (IH j.+1 j value Hn) => //.
      * move: Hi Hj. move=> Hi Hj. exact: leq_trans Hi (ltnW Hj).
      * move=> Habs. by rewrite Habs in Hnz.
    + apply: (IH j.+1 maxRow maxValue Hn) => //; first exact: ltnW.
      move=> Hmz r Hir. rewrite ltnS leq_eqVlt => /orP [/eqP ->|Hrj].
      * move: Hcond. by rewrite Hmz /= andbT Hzv => /negbFE.
      * exact: Hzero.
Qed.

Lemma findPivot_spec (n : nat) (W : FractionMatrix) (i : nat) :
  wfm n W -> (i < n)%N ->
  exists p,
    [/\ FractionMatrixUtils.findPivot W i i = Some p, (i <= p)%N, (p < n)%N
      & Frac.isZero (fget W p i) ->
        forall r, (i <= r)%N -> (r < n)%N -> Frac.isZero (fget W r i)].
Proof.
  move=> Hwf Hi. case: (Hwf) => Hs Hrows Hred.
  rewrite /FractionMatrixUtils.findPivot.
  case: (abs_isZero (Hred i i Hi Hi)) => v0 [-> Hr0 Hz0] /=.
  have Hn : (i.+1 + (size W - i.+1))%N = n by rewrite Hs subnKC.
  case: (@findPivot_loop n W i i Hwf Hi (size W - i.+1)%N i.+1 i v0 Hn
           (leqnn i) (ltnSn i) Hz0) => [|p [v [-> Hip Hpn Hall]]].
  - move=> Hz r Hir. rewrite ltnS => Hri.
    have -> : r = i by apply/eqP; rewrite eqn_leq Hir Hri.
    by rewrite -Hz0.
  - by exists p; split.
Qed.

Lemma swapRows_spec (n : nat) (W : FractionMatrix) (a b : nat) :
  wfm n W -> (a < n)%N -> (b < n)%N ->
  exists W',
    [/\ FractionMatrixUtils.swapRows W a b = Some W', wfm n W'
      & forall r c, fget W' r c
                    = if r == b then fget W a c
                      else if r == a then fget W b c else fget W r c].
Proof.
  move=> Hwf Ha Hb. case: (Hwf) => Hs Hrows Hred.
  rewrite /FractionMatrixUtils.swapRows (cloneMatrix_wfm Hwf) /=.
  exists (swap_index [::] W a b); split=> //; last exact: fget_swap_index.
  split.
  - by rewrite size_swap_index ?Hs.
  - move=> r Hr. rewrite /swap_index !nth_set_nth /=.
    case: (r == b); first exact: Hrows.
    rewrite nth_set_nth /=. case: (r == a); exact: Hrows.
  - move=> r c Hr Hc. rewrite fget_swap_index.
    case: (r == b); first exact: Hred.
    case: (r == a); exact: Hred.
Qed.

Lemma addRowMultiple_spec (n : nat) (W : FractionMatrix) (j i : nat)
  (f : Fraction) :
  wfm n W -> (j < n)%N -> (i < n)%N -> reduced f ->
  exists W',
    [/\ FractionMatrixUtils.addRowMultiple W j i f = Some W', wfm n W',
        forall r c, r != j -> fget W' r c = fget W r c
      & forall c, (c < n)%N ->
                  entry W' j c = entry W j c + entry W i c * qval f].
Proof.
  move=> Hwf Hj Hi Hf. case: (Hwf) => Hs Hrows Hred.
  rewrite /FractionMatrixUtils.addRowMultiple (cloneMatrix_wfm Hwf) /=.
  have H0 : (0 < n)%N by exact: leq_ltn_trans Hj.
  rewrite (Hrows 0%N H0).
  set body := (X in mapM X).
  have Hbody : forall c, (c < n)%N ->
      exists y, body c = Some y
                /\ (reduced y
                    /\ qval y = entry W j c + entry W i c * qval f).
  { move=> c Hc. rewrite /body.
    case: (multiply_qval (Hred i c Hi Hc) Hf) => product [-> Hp Hvp] /=.
    case: (add_qval (Hred j c Hj Hc) Hp) => y [-> Hy Hvy].
    exists y; split=> //; split=> //. by rewrite Hvy Hvp. }
  case: (mapM_iota noFraction Hbody) => newRow [-> Hsz Hnew] /=.
  exists (set_nth [::] W j newRow); split=> //.
  - split.
    + rewrite size_set_nth Hs. exact/maxn_idPr.
    + move=> r Hr. rewrite nth_set_nth /=. case: (r == j) => //. exact: Hrows.
    + move=> r c Hr Hc. rewrite fget_set_nth. case: (r == j).
      * by case: (Hnew c Hc).
      * exact: Hred.
  - move=> r c Hr. by rewrite fget_set_nth (negbTE Hr).
  - move=> c Hc. rewrite {1}/entry fget_set_nth eqxx. by case: (Hnew c Hc).
Qed.

End Elimination.

Section GaussDeterminant.

Import GRing.Theory.
Local Open Scope ring_scope.

(** The rows below the pivot row [i], from row [j] on. *)
Lemma eliminateBelow_loop (n i m : nat) :
  (i + m = n)%N -> (i < n)%N ->
  forall (l j : nat) (W : FractionMatrix),
    (j + l = n)%N -> (i < j)%N -> wfm n W ->
    Frac.isZero (fget W i i) = false ->
    exists W',
      [/\ foldM (fun matrix j =>
                   if ~~ Frac.isZero (fget matrix j i) then
                     negated <- Frac.negate (fget matrix j i) ;;
                     factor <- Frac.divide negated (fget matrix i i) ;;
                     FractionMatrixUtils.addRowMultiple matrix j i factor
                   else Some matrix)
                (iota j l) W = Some W',
          wfm n W',
          forall r c, (r < j)%N -> fget W' r c = fget W r c,
          forall r, (j <= r)%N -> (r < n)%N -> entry W' r i = 0
        & \det (trail i m W') = \det (trail i m W)].
Proof.
  move=> Hm Hi.
  elim=> [|l IH] j W Hn Hij Hwf Hpivot.
  - exists W; split=> // r Hjr. by rewrite -Hn addn0 ltnNge Hjr.
  - case: (Hwf) => Hs Hrows Hred.
    have Hjn : (j < n)%N by rewrite -Hn -addn1 leq_add2l.
    rewrite addnS -addSn in Hn.
    have Hij' : (i < j.+1)%N by exact: ltnW.
    rewrite /=. case Hz: (Frac.isZero (fget W j i)) => /=.
    + case: (IH j.+1 W Hn Hij' Hwf Hpivot) => W' [HW' Hwf' Hsame Hzero Hdet].
      exists W'; split=> //.
      * move=> r c Hr. apply: Hsame. exact: ltnW.
      * move=> r. rewrite leq_eqVlt => /orP [/eqP <-|Hjr] Hrn.
        -- rewrite /entry Hsame //. apply/eqP.
           by rewrite -isZero_qval ?Hz //; apply: Hred.
        -- exact: Hzero.
    + case: (negate_qval (Hred j i Hjn Hi)) => negated [-> Hneg Hvneg] /=.
      case: (divide_qval Hneg (Hred i i Hi Hi) Hpivot)
        => factor [-> Hfac Hvfac] /=.
      case: (addRowMultiple_spec Hwf Hjn Hi Hfac)
        => W1 [-> Hwf1 Hother1 Hrow1] /=.
      have Hji : (i != j) by rewrite neq_ltn Hij.
      have Hpivot1 : Frac.isZero (fget W1 i i) = false by rewrite Hother1.
      case: (IH j.+1 W1 Hn Hij' Hwf1 Hpivot1)
        => W' [HW' Hwf' Hsame Hzero Hdet].
      exists W'; split=> //.
      * move=> r c Hr. rewrite (Hsame r c (leqW Hr)).
        apply: Hother1. by rewrite neq_ltn Hr.
      * move=> r. rewrite leq_eqVlt => /orP [/eqP <-|Hjr] Hrn.
        -- rewrite /entry Hsame // -/(entry W1 j i) Hrow1 // Hvfac Hvneg.
           have Hp : qval (fget W i i) != 0.
           { by rewrite -isZero_qval ?Hpivot //; apply: Hred. }
           by rewrite /entry mulrC divfK // addrN.
        -- exact: Hzero.
      * rewrite Hdet. apply: (@det_trail_add_row n i m W W1 j (qval factor))
          => //.
Qed.

Lemma eliminateBelow_spec (n i m : nat) (W : FractionMatrix) :
  (i + m = n)%N -> (i < n)%N -> wfm n W ->
  Frac.isZero (fget W i i) = false ->
  exists W',
    [/\ GaussianEliminationFractions.eliminateBelow n i W = Some W',
        wfm n W',
        forall r c, (r <= i)%N -> fget W' r c = fget W r c,
        forall r, (i < r)%N -> (r < n)%N -> entry W' r i = 0
      & \det (trail i m W') = \det (trail i m W)].
Proof.
  move=> Hm Hi Hwf Hpivot.
  have Hn : (i.+1 + (n - i.+1))%N = n by rewrite subnKC.
  exact: (@eliminateBelow_loop n i m Hm Hi (n - i.+1)%N i.+1 W Hn (ltnSn i)
            Hwf Hpivot).
Qed.

(** One column of the elimination: either the determinant is zero, or the
    column is cleared below a non-zero pivot. *)
Lemma detColumn_spec (n i m : nat) (W : FractionMatrix) (sc : nat) :
  (i + m.+1 = n)%N -> wfm n W ->
  exists r,
    GaussianEliminationFractions.detColumn n i
      (GaussianEliminationFractions.mkDetState W sc) = Some r
    /\ match r with
       | inl d => [/\ reduced d, qval d = 0 & \det (trail i m.+1 W) = 0]
       | inr st =>
           [/\ wfm n (GaussianEliminationFractions.workingMatrix st),
               forall r c, (r < i)%N ->
                 fget (GaussianEliminationFractions.workingMatrix st) r c
                 = fget W r c
             & (-1) ^+ GaussianEliminationFractions.swapCount st
               * (entry (GaussianEliminationFractions.workingMatrix st) i i
                  * \det (trail i.+1 m
                            (GaussianEliminationFractions.workingMatrix st)))
               = (-1) ^+ sc * \det (trail i m.+1 W)]
       end.
Proof.
  move=> Hn Hwf. case: (Hwf) => Hs Hrows Hred.
  have Hi : (i < n)%N by rewrite -Hn -[X in (X < _)%N]addn0 ltn_add2l.
  rewrite /GaussianEliminationFractions.detColumn /=.
  case: (findPivot_spec Hwf Hi) => p [-> Hip Hpn Hall] /=.
  case Hz: (Frac.isZero (fget W p i)).
  - case: zero_qval => z [Hz0 Hrz Hvz]. exists (inl z); split.
    { congr Some; congr inl. apply: Some_inj. exact: Hz0. }
    split=> //. apply: det_trail_zero_column => r Hr.
    have Hir : (i + r < n)%N by rewrite -Hn ltn_add2l.
    apply/eqP. rewrite /entry -(isZero_qval (Hred _ _ Hir Hi)).
    apply: (Hall Hz) => //. exact: leq_addr.
  - have Hswap : exists W1 sc1,
        [/\ (if p != i
             then swapped <- FractionMatrixUtils.swapRows W i p ;;
                  Some (GaussianEliminationFractions.mkDetState swapped sc.+1)
             else Some (GaussianEliminationFractions.mkDetState W sc))
            = Some (GaussianEliminationFractions.mkDetState W1 sc1),
            wfm n W1,
            forall r c, (r < i)%N -> fget W1 r c = fget W r c,
            Frac.isZero (fget W1 i i) = false
          & (-1) ^+ sc1 * \det (trail i m.+1 W1)
            = (-1) ^+ sc * \det (trail i m.+1 W)].
    { case Hpi: (p == i) => /=.
      - exists W, sc; split=> //. by move: Hz; rewrite (eqP Hpi).
      - case: (swapRows_spec Hwf Hi Hpn) => W1 [-> Hwf1 Hget1] /=.
        exists W1, sc.+1; split=> //.
        + move=> r c Hr. rewrite Hget1.
          have -> : (r == p) = false.
          { apply: ltn_eqF. exact: leq_trans Hr Hip. }
          by rewrite (ltn_eqF Hr).
        + by rewrite Hget1 eq_sym Hpi eqxx.
        + have Hlt : (i < p)%N by rewrite ltn_neqAle eq_sym Hpi Hip.
          rewrite (@det_trail_swap n i m.+1 W W1 p) // exprS.
          by rewrite mulN1r mulNr mulrN opprK. }
    case: Hswap => W1 [sc1 [-> Hwf1 Hsame1 Hpivot1 Hdet1]] /=.
    case: (eliminateBelow_spec Hn Hi Hwf1 Hpivot1)
      => W2 [-> Hwf2 Hsame2 Hzero2 Hdet2] /=.
    exists (inr (GaussianEliminationFractions.mkDetState W2 sc1)).
    split=> //=. split=> //.
    + move=> r c Hr. rewrite (Hsame2 r c (ltnW Hr)). exact: Hsame1.
    + rewrite -Hdet1 -Hdet2. congr (_ * _).
      rewrite (@det_trail_step i m W2) // => r Hr0 Hrm.
      apply: Hzero2.
      * by rewrite -[X in (X < _)%N]addn0 ltn_add2l.
      * by rewrite -Hn ltn_add2l.
Qed.

Lemma foldM_inl (n : nat) (d : Fraction) (js : seq nat) :
  foldM (fun acc i =>
           match acc with
           | inl d => Some (inl d)
           | inr st => GaussianEliminationFractions.detColumn n i st
           end) js (inl d) = Some (inl d).
Proof. by elim: js => [|j js IH] //=. Qed.

Lemma detForward_loop (n : nat) :
  forall (k i : nat) (W : FractionMatrix) (sc : nat),
    (i + k.+1 = n)%N -> wfm n W ->
    exists r,
      foldM (fun acc i =>
               match acc with
               | inl d => Some (inl d)
               | inr st => GaussianEliminationFractions.detColumn n i st
               end)
            (iota i k) (inr (GaussianEliminationFractions.mkDetState W sc))
      = Some r
      /\ match r with
         | inl d => [/\ reduced d, qval d = 0 & \det (trail i k.+1 W) = 0]
         | inr st =>
             wfm n (GaussianEliminationFractions.workingMatrix st)
             /\ (-1) ^+ GaussianEliminationFractions.swapCount st
                * \prod_(0 <= j < n)
                    entry (GaussianEliminationFractions.workingMatrix st) j j
                = (-1) ^+ sc * (\prod_(0 <= j < i) entry W j j)
                  * \det (trail i k.+1 W)
         end.
Proof.
  elim=> [|k IH] i W sc Hn Hwf.
  - exists (inr (GaussianEliminationFractions.mkDetState W sc)).
    split=> //=. split=> //.
    rewrite -Hn addn1 big_nat_recr //= det_mx11 mxE /= addn0.
    by rewrite mulrA.
  - case: (detColumn_spec sc Hn Hwf) => r [Hr Hspec].
    rewrite /= Hr /=. case: r Hr Hspec => [d|[W1 sc1]] Hr /=.
    + move=> [Hd Hvd Hdet]. exists (inl d). by rewrite foldM_inl.
    + move=> [Hwf1 Hsame1 Hdet1].
      have Hn1 : (i.+1 + k.+1 = n)%N by rewrite addSnnS.
      case: (IH i.+1 W1 sc1 Hn1 Hwf1) => r [-> Hspec]. exists r; split=> //.
      have Hprefix : \prod_(0 <= j < i) entry W1 j j
                     = \prod_(0 <= j < i) entry W j j.
      { apply: eq_big_nat => j /andP [_ Hj]. by rewrite /entry Hsame1. }
      case: r Hspec => [d|st].
      * move=> [Hd Hvd Hdet]. split=> //.
        move: Hdet1. rewrite Hdet mulr0 mulr0 => /esym /eqP.
        rewrite mulf_eq0 signr_eq0 /=. by move/eqP.
      * move=> [Hwf' ->]. split=> //.
        rewrite big_nat_recr //= Hprefix.
        set P := \prod_(0 <= j < i) entry W j j.
        have -> : (-1) ^+ sc * P * \det (trail i k.+2 W)
                  = P * ((-1) ^+ sc * \det (trail i k.+2 W)) by ring.
        rewrite -Hdet1. by ring.
Qed.

(** A loop that multiplies by the factor [t j] in pass [j]. *)
Lemma foldM_prod (step : Fraction -> nat -> option Fraction) (t : nat -> rat)
  (js : seq nat) :
  (forall j acc, j \in js -> reduced acc ->
     exists acc', [/\ step acc j = Some acc', reduced acc'
                    & qval acc' = qval acc * t j]) ->
  forall acc, reduced acc ->
    exists r, [/\ foldM step js acc = Some r, reduced r
                & qval r = qval acc * \prod_(j <- js) t j].
Proof.
  elim: js => [|j js IH] Hstep acc Hacc.
  - exists acc; split=> //. by rewrite big_nil mulr1.
  - case: (Hstep j acc (mem_head _ _) Hacc) => acc' [Hs Hr Hv].
    have Hstep' : forall j0 acc0, j0 \in js -> reduced acc0 ->
        exists acc'0, [/\ step acc0 j0 = Some acc'0, reduced acc'0
                        & qval acc'0 = qval acc0 * t j0].
    { move=> j0 acc0 Hj0. apply: Hstep. by rewrite in_cons Hj0 orbT. }
    case: (IH Hstep' acc' Hr) => r [Hf Hrr Hvr].
    exists r; split=> //=.
    + by rewrite Hs.
    + by rewrite Hvr Hv big_cons mulrA.
Qed.

Lemma detFinish_spec (n : nat) (W : FractionMatrix) (sc : nat) :
  wfm n W ->
  exists d,
    [/\ GaussianEliminationFractions.detFinish n
          (GaussianEliminationFractions.mkDetState W sc) = Some d,
        reduced d
      & qval d = (-1) ^+ sc * \prod_(0 <= j < n) entry W j j].
Proof.
  move=> [Hs Hrows Hred]. rewrite /GaussianEliminationFractions.detFinish.
  case: (new_int_qval 1) => one [-> H1 Hv1].
  have Hstep : forall j acc, j \in iota 0 n -> reduced acc ->
      exists acc', [/\ Frac.multiply acc (fget W j j) = Some acc', reduced acc'
                     & qval acc' = qval acc * entry W j j].
  { move=> j acc. rewrite mem_iota add0n => /andP [_ Hj] Hacc.
    exact: (multiply_qval Hacc (Hred j j Hj Hj)). }
  case: (foldM_prod Hstep H1) => d [Hd Hrd Hvd].
  rewrite [bind _ _]/= Hd [bind _ _]/=.
  have Hprod : qval d = \prod_(0 <= j < n) entry W j j.
  { by rewrite Hvd Hv1 ZQ1 mul1r /index_iota subn0. }
  case Hodd: (odd sc).
  - case: (negate_qval Hrd) => d' [-> Hrd' Hvd']. exists d'; split=> //.
    by rewrite Hvd' Hprod -signr_odd Hodd expr1 mulN1r.
  - exists d; split=> //.
    by rewrite Hprod -signr_odd Hodd expr0 mul1r.
Qed.

(** The determinant of the elimination engine is the determinant. *)
Lemma gauss_determinantOf_qval (n : nat) (M : FractionMatrix) :
  wfm n.+1 M ->
  exists d,
    [/\ GaussianEliminationFractions.determinantOf M = Some d, reduced d
      & qval d = \det (mx n.+1 M)].
Proof.
  move=> Hwf. case: (Hwf) => Hs _ _.
  rewrite /GaussianEliminationFractions.determinantOf
          /GaussianEliminationFractions.detForward Hs subn1 [n.+1.-1]/=.
  have Hn : (0 + n.+1)%N = n.+1 by [].
  case: (@detForward_loop n.+1 n 0%N M 0%N Hn Hwf) => r [-> Hspec].
  rewrite [bind _ _]/=. case: r Hspec => [d|[W sc]].
  - move=> [Hd Hvd Hdet]. exists d; split=> //.
    by rewrite Hvd -trail0 Hdet.
  - move=> [Hwf' Heq].
    case: (detFinish_spec sc Hwf') => d [Hd Hrd Hvd]. exists d; split=> //.
    rewrite Hvd. move: Heq. rewrite [GaussianEliminationFractions.swapCount _]/=.
    rewrite [GaussianEliminationFractions.workingMatrix _]/= => ->.
    by rewrite expr0 mul1r big_geq // mul1r trail0.
Qed.

End GaussDeterminant.

(** * Agreement of the two exact determinant engines *)

Section Agreement.

Import GRing.Theory.
Local Open Scope ring_scope.




End Agreement.

(** * The determinant engines compared *)

Section DeterminantAgreement.

Import GRing.Theory.
Local Open Scope ring_scope.




End DeterminantAgreement.

(** * Steps and the arrays they hold *)

Section Snapshots.

Lemma steps_pushSnapshot (t : GaussJordanDeterminant.stepTitle)
  (st : GaussJordanDeterminant.state) :
  exists r,
    GaussJordanDeterminant.steps (GaussJordanDeterminant.pushSnapshot t st)
    = rcons (GaussJordanDeterminant.steps st)
            (GaussJordanDeterminant.mkStep
               (GaussJordanDeterminant.stepId st) t r).
Proof.
  rewrite /GaussJordanDeterminant.pushSnapshot.
  case: (Store.allocMatrix _ _) => s r /=. by exists r.
Qed.

Lemma ohead_rcons (T : Type) (x y : T) (s : seq T) :
  ohead s = Some x -> ohead (rcons s y) = Some x.
Proof. by case: s. Qed.

Lemma ohead_pushSnapshot (t : GaussJordanDeterminant.stepTitle)
  (st : GaussJordanDeterminant.state)
  (first : GaussJordanDeterminant.CalculationStep) :
  ohead (GaussJordanDeterminant.steps st) = Some first ->
  ohead (GaussJordanDeterminant.steps
           (GaussJordanDeterminant.pushSnapshot t st)) = Some first.
Proof.
  move=> H. case: (steps_pushSnapshot t st) => r ->. exact: ohead_rcons.
Qed.

Lemma column_firstStep (n i : nat) (st : GaussJordanDeterminant.state)
  (first : GaussJordanDeterminant.CalculationStep) r :
  ohead (GaussJordanDeterminant.steps st) = Some first ->
  GaussJordanDeterminant.column n i st = Some r ->
  firstStep r = Some first.
Proof.
  move=> Hfirst. rewrite /GaussJordanDeterminant.column.
  case: (GaussJordanDeterminant.findPivotRow _ _ _) => [pivotRow|] //=.
  case: ifP => _.
  - move=> [<-] /=. exact: ohead_pushSnapshot.
  - set st1 := (X in Frac.multiply (GaussJordanDeterminant.determinant X)).
    have H1 : ohead (GaussJordanDeterminant.steps st1) = Some first.
    { rewrite /st1. case: (pivotRow != i) => //.
      exact: ohead_pushSnapshot. }
    case: (Frac.multiply _ _) => [determinant|] //=.
    case: (GaussJordanDeterminant.eliminateBelow _ _ _ _)
      => [[eliminated hasElimination]|] //= [<-].
    case: hasElimination => //=. exact: ohead_pushSnapshot.
Qed.

Lemma forward_firstStep (n : nat)
  (first : GaussJordanDeterminant.CalculationStep) (columns : seq nat) :
  forall acc r,
    firstStep acc = Some first ->
    foldM (fun acc i =>
             match acc with
             | inl r => Some (inl r)
             | inr st => GaussJordanDeterminant.column n i st
             end) columns acc = Some r ->
    firstStep r = Some first.
Proof.
  elim: columns => [|i columns IH] acc r Hacc /=.
  - by move=> [<-].
  - case: acc Hacc => [early|st] Hacc /=.
    + exact: IH.
    + case Hc: (GaussJordanDeterminant.column n i st) => [acc'|] //=.
      apply: IH. exact: (column_firstStep Hacc Hc).
Qed.

(** CLAIM C5 (refuted by GaussJordanDeterminant.calculateDeterminant): the
    first step of every result holds the caller's array itself, not a copy.
    On [originalMatrix] the run returns four steps; a write to the caller's
    array after the run changes what the first step shows and leaves the
    three later steps, which hold fresh arrays, as they were. *)
Theorem first_step_shares_input :
  (forall (s s' : Store.store) (matrix : Store.ref)
          (steps : seq GaussJordanDeterminant.CalculationStep) (d : Fraction),
      GaussJordanDeterminant.calculateDeterminant s matrix
      = Some (s', steps, d) ->
      ohead steps
      = Some (GaussJordanDeterminant.mkStep
                1 GaussJordanDeterminant.MatrizOriginal matrix))
  /\ exists (s' s'' : Store.store)
            (later : seq GaussJordanDeterminant.CalculationStep)
            (d : Fraction),
       GaussJordanDeterminant.calculateDeterminant callerStore callerMatrix
       = Some (s',
               GaussJordanDeterminant.mkStep
                 1 GaussJordanDeterminant.MatrizOriginal callerMatrix
               :: later,
               d)
       /\ size later = 3
       /\ Store.readMatrix s' callerMatrix = Some originalMatrix
       /\ Store.writeEntry s' callerMatrix 0 0 (JS.ofZ 99) = Some s''
       /\ Store.readMatrix s'' callerMatrix
          = Some [:: [:: JS.ofZ 99; JS.ofZ 2]; [:: JS.ofZ 3; JS.ofZ 4]]
       /\ shownMatrices s'' later = shownMatrices s' later.
Proof.
  split.
  - move=> s s' matrix steps d.
    rewrite /GaussJordanDeterminant.calculateDeterminant.
    case: (Store.readMatrix s matrix) => [value|] //=.
    case: (FractionMatrixUtils.fromNumberMatrix value) => [fm|] //=.
    case: (FractionMatrixUtils.cloneMatrix fm) => [wm|] //=.
    case Hf: (GaussJordanDeterminant.forward _ _) => [r|] //=.
    have Hr : firstStep r
              = Some (GaussJordanDeterminant.mkStep
                        1 GaussJordanDeterminant.MatrizOriginal matrix).
    { apply: (forward_firstStep _ Hf). reflexivity. }
    case: r Hr {Hf} => [[[s1 steps1] d1]|st] /= Hr.
    + by move=> [_ <- _].
    + case: (if odd _ then _ else _) => [d1|] //= [_ <- _].
      exact: ohead_pushSnapshot.
  - do 4 eexists.
    do 5 (split; first by vm_compute; reflexivity).
    by vm_compute; reflexivity.
Qed.

Lemma first_step_shares_input_witness :
  exists (s' : Store.store)
         (steps : seq GaussJordanDeterminant.CalculationStep) (d : Fraction),
    GaussJordanDeterminant.calculateDeterminant callerStore callerMatrix
    = Some (s', steps, d)
    /\ ohead steps
       = Some (GaussJordanDeterminant.mkStep
                 1 GaussJordanDeterminant.MatrizOriginal callerMatrix).
Proof.
  do 3 eexists. split; first by vm_compute; reflexivity.
  apply: (proj1 first_step_shares_input callerStore). vm_compute; reflexivity.
Defined.

End Snapshots.

(** * The statements at sample inputs *)

Section Samples.

Lemma solutions_classified_witness :
  classified (GaussianElimination.solve sampleMatrix sampleConstants)
  /\ (exists s,
         GaussianEliminationFractions.solve sampleMatrix sampleConstants
         = Some s /\ classified s)
  /\ (exists steps s,
         GaussJordanFractions.solve singularMatrix dependentConstants
         = Some (steps, s) /\ classified s)
  /\ (exists s,
         LaplaceExpansion.solveByCramersRule singularMatrix
                                             inconsistentConstants
         = Some s /\ classified s)
  /\ (exists s,
         LaplaceExpansionFractions.solveByCramersRule sampleMatrix
                                                      sampleConstants
         = Some s /\ classified s).
Proof.
  destruct solutions_classified as [H1 [H2 [H3 [H4 H5]]]].
  split; [apply H1|].
  split.
  { eexists; split; [vm_compute; reflexivity|].
    apply (H2 sampleMatrix sampleConstants). vm_compute; reflexivity. }
  split.
  { do 2 eexists; split; [vm_compute; reflexivity|].
    eapply (H3 singularMatrix dependentConstants). vm_compute; reflexivity. }
  split.
  { eexists; split; [vm_compute; reflexivity|].
    apply (H4 singularMatrix inconsistentConstants). vm_compute; reflexivity. }
  eexists; split; [vm_compute; reflexivity|].
  apply (H5 sampleMatrix sampleConstants). vm_compute; reflexivity.
Defined.

Lemma findOptimalExpansionRowOrColumn_spec_witness :
  (exp_type (LaplaceExpansion.findOptimalExpansionRowOrColumn zeroRowMatrix)
   = row_axis
   /\ (exp_index (LaplaceExpansion.findOptimalExpansionRowOrColumn
                    zeroRowMatrix) <= 1)%coq_nat)
  /\ (exp_type (LaplaceExpansionFractions.findOptimalExpansionRowOrColumn
                  zeroRowFractions)
      = row_axis
      /\ (exp_index (LaplaceExpansionFractions.findOptimalExpansionRowOrColumn
                       zeroRowFractions) <= 1)%coq_nat).
Proof.
  split.
  - destruct (proj1 findOptimalExpansionRowOrColumn_spec zeroRowMatrix)
      as [_ [_ [_ [_ H]]]]; [vm_compute; lia|].
    destruct (H 1%N) as [Ht [Hi _]];
      [vm_compute; lia|vm_compute; reflexivity|].
    split; [exact Ht|exact Hi].
  - destruct (proj2 findOptimalExpansionRowOrColumn_spec zeroRowFractions)
      as [_ [_ [_ [_ H]]]]; [vm_compute; lia|].
    destruct (H 1%N) as [Ht [Hi _]];
      [vm_compute; lia|vm_compute; reflexivity|].
    split; [exact Ht|exact Hi].
Defined.

Lemma zero_pivot_is_no_solution_witness :
  GaussJordanFractions.solve singularMatrix dependentConstants
  = Some (GaussJordanFractions.steps afterPivoting,
          mkSolution [::] (Some [::]) None None false false true).
Proof.
  apply (@zero_pivot_is_no_solution singularMatrix dependentConstants
           singularFractions dependentFractions 1%N
           afterFirstColumn afterPivoting); vm_compute; reflexivity.
Defined.

Lemma unique_solution_determinant_is_one_witness :
  exists steps s,
    GaussJordanFractions.solve sampleMatrix sampleConstants = Some (steps, s)
    /\ determinant s = Some JS.one
    /\ LaplaceExpansionFractions.calculateDeterminant sampleMatrix
       = Some (mkFraction 5 1).
Proof.
  do 2 eexists. split; [vm_compute; reflexivity|].
  split; [|vm_compute; reflexivity].
  eapply (@unique_solution_determinant_is_one sampleMatrix sampleConstants);
    vm_compute; reflexivity.
Defined.

End Samples.

(** * The arithmetic of Fraction, by value *)

Section FractionArithmetic.

Import Order.TTheory GRing.Theory Num.Theory.
Local Open Scope ring_scope.






(** Two computations that return Fractions in lowest terms of one value
    return the same Fraction. *)
Lemma same_value (x y : option Fraction) (v : rat) :
  (exists c, [/\ x = Some c, reduced c & qval c = v]) ->
  (exists c, [/\ y = Some c, reduced c & qval c = v]) ->
  x = y.
Proof.
  move=> [c [-> Hc Hvc]] [c' [-> Hc' Hvc']]. congr Some.
  apply: qval_inj => //. by rewrite Hvc Hvc'.
Qed.

Lemma bind_value (x : option Fraction) (k : Fraction -> option Fraction)
  (v w : rat) :
  (exists c, [/\ x = Some c, reduced c & qval c = v]) ->
  (forall c, reduced c -> qval c = v ->
     exists r, [/\ k c = Some r, reduced r & qval r = w]) ->
  exists r, [/\ (c <- x ;; k c) = Some r, reduced r & qval r = w].
Proof. move=> [c [-> Hc Hv]] Hk /=. exact: Hk. Qed.











End FractionArithmetic.

Section Euclid.

Open Scope Z_scope.

(** X5: called on two non-negative integers, the recursive gcd of the
    constructor returns their greatest common divisor; its recursion depth
    stays within twice the bit length of the second argument plus one. *)
Theorem fraction_gcd_is_gcd (a b : Z) :
  0 <= a -> 0 <= b ->
  Frac.gcd a b = Z.gcd a b
  /\ forall fuel : nat,
       (2 * Z.to_nat (Z.log2 b + 1) + 1 <= fuel)%coq_nat ->
       Frac.gcd_rec fuel a b = Z.gcd a b.
Proof.
  intros Ha Hb. split; [exact (gcd_correct Ha Hb)|].
  intros fuel Hfuel.
  apply (@gcd_rec_correct (Z.to_nat (Z.log2 b + 1))); try assumption.
  rewrite -> Z2Nat.id by (pose proof (Z.log2_nonneg b); lia).
  destruct (Z.eq_dec b 0) as [->|Hb0]; [reflexivity|].
  apply Z.log2_lt_pow2; lia.
Qed.

Lemma fraction_gcd_is_gcd_witness : Frac.gcd 12 18 = Z.gcd 12 18.
Proof. apply (proj1 (@fraction_gcd_is_gcd 12 18 ltac:(lia) ltac:(lia))). Defined.

Close Scope Z_scope.

End Euclid.

(** * fromDecimal: signs and small numbers *)

Section FromDecimalSigns.

Import GRing.Theory.
Local Open Scope ring_scope.

Lemma new_opp (n d : Z) :
  Frac.new (- n)%bZ d = (f <- Frac.new n d ;; Frac.negate f).
Proof.
  case: (Z.eq_dec d 0) => [->|Hd]; first by [].
  apply: (@same_value _ _ (- (ZQ n / ZQ d))).
  - case: (qval_new (- n)%bZ Hd) => c [Hc Hr Hv]. exists c; split=> //.
    by rewrite Hv ZQ_opp mulNr.
  - apply: (bind_value (qval_new n Hd)) => f Hf Hvf.
    case: (negate_qval Hf) => r [Hr Hrr Hvr]. exists r; split=> //.
    by rewrite Hvr Hvf.
Qed.

Lemma cf_loop_stuck (fuel : nat) (decimal : JS.number) (maxDenominator : Z)
  (st : Frac.cf_state) :
  JS.floorZ (Frac.x st) = None ->
  Frac.cf_loop fuel decimal maxDenominator st = None.
Proof.
  move=> H. case: fuel => [|fuel] //=. by rewrite /Frac.cf_iter H.
Qed.

(** X6: fromDecimal is odd: on the opposite of a number it returns, or
    throws, as negate does on what it returns on the number, whatever
    maxDenominator. *)
Theorem fromDecimal_opposite (x : JS.number) (maxDenominator : Z) :
  Frac.fromDecimal_max (JS.neg x) maxDenominator
  = (f <- Frac.fromDecimal_max x maxDenominator ;; Frac.negate f).
Proof.
  case: x => [s|s||s m e].
  - by case: s.
  - rewrite /Frac.fromDecimal_max.
    have -> : JS.eq (JS.neg (S754_infinity s)) JS.zero = false by case: s.
    have -> : JS.eq (S754_infinity s) JS.zero = false by case: s.
    rewrite /= !cf_loop_stuck //.
  - rewrite /Frac.fromDecimal_max /= !cf_loop_stuck //.
  - rewrite /Frac.fromDecimal_max.
    have -> : JS.eq (JS.neg (S754_finite s m e)) JS.zero = false by case: s.
    have -> : JS.eq (S754_finite s m e) JS.zero = false by case: s.
    have -> : JS.lt (JS.neg (S754_finite s m e)) JS.zero = ~~ s by case: s.
    have -> : JS.lt (S754_finite s m e) JS.zero = s by case: s.
    have -> : JS.abs (JS.neg (S754_finite s m e)) = S754_finite false m e
      by [].
    have -> : JS.abs (S754_finite s m e) = S754_finite false m e by [].
    have Hsign : forall h : Z,
        ((if ~~ s then -1 else 1) * h = - ((if s then -1 else 1) * h))%bZ.
    { move=> h. case: s; simpl negb; cbv iota; lia. }
    cbv zeta. case: (JS.isInteger _).
    + case: (JS.floorZ _) => [a|] //=. by rewrite Hsign new_opp.
    + case: (Frac.cf_loop _ _ _ _) => [[h k]|] //=.
      by rewrite Hsign new_opp.
Qed.

End FromDecimalSigns.

Section FromDecimalSmall.

Open Scope Z_scope.

(** A double at most 1e-10 in magnitude has a mantissa below 2^-e. *)
Lemma small_number_bounds (m : positive) (e : Z) :
  valid_binary JS.prec JS.emax (S754_finite false m e) = true ->
  JS.gt (S754_finite false m e) JS.tol = false ->
  e < 0 /\ Zpos m < 2 ^ (- e).
Proof.
  intros Hvalid Hgt.
  assert (He : e <= -86).
  { unfold JS.gt, SFltb, JS.tol, SFcompare in Hgt.
    destruct (Z.compare_spec (-86) e) as [Heq|Hlt|Hgt'];
      [lia|discriminate Hgt|lia]. }
  unfold valid_binary, bounded, canonical_mantissa in Hvalid.
  apply andb_prop in Hvalid. destruct Hvalid as [Hcanon _].
  apply Z.eqb_eq in Hcanon. unfold fexp, emin, JS.prec, JS.emax in Hcanon.
  pose proof (digits2_pos_spec m) as [_ Hm].
  assert (Hd : Zpos (digits2_pos m) <= 53) by lia.
  assert (Hp : 2 ^ Zpos (digits2_pos m) <= 2 ^ 53)
    by (apply Z.pow_le_mono_r; lia).
  assert (Hq : 2 ^ 53 <= 2 ^ (- e)) by (apply Z.pow_le_mono_r; lia).
  split; lia.
Qed.

(** X7: on a finite double whose magnitude is not above 1e-10, fromDecimal
    returns 0/1, whatever the sign and whatever maxDenominator from 1 on:
    the loop leaves after its first pass with the convergent 0/1. *)
Theorem fromDecimal_small_is_zero (x : JS.number) (maxDenominator : Z) :
  JS.isFinite x = true ->
  valid_binary JS.prec JS.emax x = true ->
  JS.gt (JS.abs x) JS.tol = false ->
  1 <= maxDenominator ->
  Frac.fromDecimal_max x maxDenominator = Some (mkFraction 0 1).
Proof.
  intros Hfin Hvalid Hgt HM.
  destruct x as [s|s| |s m e]; try discriminate Hfin.
  - destruct s; reflexivity.
  - assert (Hvalid' : valid_binary JS.prec JS.emax (S754_finite false m e)
                      = true) by exact Hvalid.
    simpl JS.abs in Hgt.
    destruct (small_number_bounds Hvalid' Hgt) as [He Hm].
    assert (Hfloor : Z.shiftl (Zpos m) e = 0).
    { rewrite <- (Z.opp_involutive e) at 1.
      rewrite -> Z.shiftl_opp_r, Z.shiftr_div_pow2 by lia.
      apply Z.div_small. lia. }
    unfold Frac.fromDecimal_max.
    assert (Heq : JS.eq (S754_finite s m e) JS.zero = false)
      by (destruct s; reflexivity).
    rewrite -> Heq. cbv zeta. simpl JS.abs.
    assert (Hint : JS.isInteger (S754_finite false m e) = false).
    { unfold JS.isInteger. rewrite -> Hfloor, Z.shiftl_0_l.
      reflexivity. }
    rewrite -> Hint.
    assert (Hfuel : exists fuel, Frac.cf_fuel maxDenominator = S fuel).
    { unfold Frac.cf_fuel. rewrite -> addnS. eexists. reflexivity. }
    destruct Hfuel as [fuel ->].
    assert (Hiter : Frac.cf_iter (S754_finite false m e) maxDenominator
                      (Frac.cf_init (S754_finite false m e))
                    = Frac.CfExit 0 1).
    { unfold Frac.cf_iter, Frac.cf_init. simpl Frac.x. simpl JS.floorZ.
      rewrite -> Hfloor. simpl Frac.h1. simpl Frac.h2. simpl Frac.k1.
      simpl Frac.k2.
      replace (0 * 1 + 0) with 0 by reflexivity.
      replace (0 * 0 + 1) with 1 by reflexivity.
      destruct (Z.gtb_spec 1 maxDenominator) as [Hbad|_]; [lia|].
      assert (Hdiv : JS.div (JS.ofZ 0) (JS.ofZ 1) = S754_zero false)
        by (vm_compute; reflexivity).
      rewrite -> Hdiv.
      assert (Hsub : JS.sub (S754_finite false m e) (S754_zero false)
                     = S754_finite false m e) by reflexivity.
      rewrite -> Hsub. simpl JS.abs. rewrite -> Hgt. reflexivity. }
    simpl Frac.cf_loop. rewrite -> Hiter. simpl bind.
    replace ((if JS.lt (S754_finite s m e) JS.zero then -1 else 1) * 0)
      with 0 by (destruct (JS.lt _ _); reflexivity).
    reflexivity.
Qed.

Lemma fromDecimal_small_is_zero_witness :
  Frac.fromDecimal_max (JS.pow2 (-40)) 10000 = Some (mkFraction 0 1).
Proof.
  apply (@fromDecimal_small_is_zero (JS.pow2 (-40)) 10000);
    [reflexivity|reflexivity|reflexivity|lia].
Defined.

Close Scope Z_scope.

End FromDecimalSmall.

(** * Row operations on exact matrices *)

Section ExactRowOperations.

Import GRing.Theory.
Local Open Scope ring_scope.






End ExactRowOperations.

(** * Checking the shape of a matrix by computation *)

Section Shapes.

Lemma reducedP (f : Fraction) : reflect (reduced f) (reducedb f).
Proof.
  rewrite /reducedb /reduced.
  apply: (iffP andP) => -[H1 H2]; split.
  - exact/Z.ltb_spec0.
  - exact/Z.eqb_spec.
  - exact/Z.ltb_spec0.
  - exact/Z.eqb_spec.
Qed.

Lemma wfmP (n : nat) (M : FractionMatrix) : reflect (wfm n M) (wfmb n M).
Proof.
  apply: (iffP idP).
  - move=> /andP [/eqP Hs /all_nthP Hrows].
    have Hrow : forall i, (i < n)%N ->
        size (nth [::] M i) = n
        /\ forall j, (j < n)%N -> reduced (nth noFraction (nth [::] M i) j).
    { move=> i Hi. rewrite -Hs in Hi.
      move: (Hrows [::] i Hi) => /andP [/eqP Hsz /all_nthP Hred].
      split=> // j Hj. apply/reducedP. apply: Hred. by rewrite Hsz. }
    split=> //.
    + move=> i Hi. by case: (Hrow i Hi).
    + move=> i j Hi Hj. by case: (Hrow i Hi) => _; apply.
  - move=> [Hs Hrows Hred]. rewrite /wfmb Hs eqxx /=.
    apply/(all_nthP [::]) => i. rewrite Hs => Hi.
    rewrite Hrows // eqxx /=.
    apply/(all_nthP noFraction) => j. rewrite Hrows // => Hj.
    apply/reducedP. exact: Hred.
Qed.

Lemma squareP (n : nat) (A : Matrix) :
  square n A ->
  size A = n /\ forall i, (i < n)%N -> size (nth [::] A i) = n.
Proof.
  move=> /andP [/eqP Hs /all_nthP Hrows]. split=> // i Hi.
  apply/eqP. apply: Hrows. by rewrite Hs.
Qed.

End Shapes.

Section ExactRowOperationsSample.

Import GRing.Theory.
Local Open Scope ring_scope.


End ExactRowOperationsSample.

(** * Pivots, minors, transposes *)

Section PivotSearch.

(** X9: on an n x n matrix of Fractions in lowest terms, findPivot from
    row startRow in column col returns a row between startRow and n - 1,
    and the entry it selects is zero exactly when the column is zero from
    row startRow down, however the decimal comparisons turn out. *)
Theorem exact_findPivot (n : nat) (W : FractionMatrix) (startRow col : nat) :
  wfm n W -> (startRow < n)%N -> (col < n)%N ->
  exists p,
    [/\ FractionMatrixUtils.findPivot W startRow col = Some p,
        (startRow <= p)%N, (p < n)%N
      & Frac.isZero (fget W p col)
        <-> forall r, (startRow <= r)%N -> (r < n)%N ->
                      Frac.isZero (fget W r col)].
Proof.
  move=> Hwf Hi Hcol. case: (Hwf) => Hs Hrows Hred.
  rewrite /FractionMatrixUtils.findPivot.
  case: (abs_isZero (Hred startRow col Hi Hcol)) => v0 [-> Hr0 Hz0] /=.
  have Hn : (startRow.+1 + (size W - startRow.+1))%N = n
    by rewrite Hs subnKC.
  case: (@findPivot_loop n W startRow col Hwf Hcol (size W - startRow.+1)%N
           startRow.+1 startRow v0 Hn (leqnn _) (ltnSn _) Hz0)
    => [|p [v [-> Hip Hpn Hall]]].
  - move=> Hz r Hir. rewrite ltnS => Hri.
    have -> : r = startRow by apply/eqP; rewrite eqn_leq Hir Hri.
    by rewrite -Hz0.
  - exists p; split=> //. split; first exact: Hall.
    move=> H. exact: H.
Qed.

Lemma exact_findPivot_witness :
  exists p,
    [/\ FractionMatrixUtils.findPivot exampleFractions 0 1 = Some p,
        (0 <= p)%N, (p < 2)%N
      & Frac.isZero (fget exampleFractions p 1)
        <-> forall r, (0 <= r)%N -> (r < 2)%N ->
                      Frac.isZero (fget exampleFractions r 1)].
Proof.
  have Hwf : wfm 2 exampleFractions by apply/wfmP.
  exact: (@exact_findPivot 2 exampleFractions 0 1 Hwf isT isT).
Defined.

End PivotSearch.

Section Minors.

Lemma filter_iota_neq (n k : nat) :
  filter (fun j => j != k) (iota 0 n)
  = iota 0 (minn k n) ++ iota k.+1 (n - k.+1).
Proof.
  case: (ltnP k n) => Hk.
  - have Hn : n = (k + (n - k.+1).+1)%N by rewrite addnS -addSn subnKC.
    rewrite [in LHS]Hn iotaD add0n filter_cat /= eqxx /=.
    congr (_ ++ _).
    + apply/all_filterP/allP => j. rewrite mem_iota add0n => /andP [_ Hj].
      by rewrite neq_ltn Hj.
    + apply/all_filterP/allP => j. rewrite mem_iota => /andP [Hj _].
      by rewrite neq_ltn Hj orbT.
  - have -> : (n - k.+1 = 0)%N by apply/eqP; rewrite subn_eq0 leqW.
    rewrite cats0. apply/all_filterP/allP => j.
    rewrite mem_iota add0n => /andP [_ Hj].
    by rewrite neq_ltn (leq_trans Hj Hk).
Qed.

Lemma filter_index_mkseq (T : Type) (x0 : T) (k : nat) (s : seq T) :
  filter_index k s
  = [seq nth x0 s j | j <- iota 0 (size s) & j != k].
Proof.
  rewrite filter_iota_neq map_cat /filter_index. congr (_ ++ _).
  - apply: (@eq_from_nth _ x0).
    + by rewrite size_take_min size_map size_iota.
    + move=> i. rewrite size_take_min => Hi.
      have Hik : (i < k)%N by move: Hi; rewrite leq_min => /andP [].
      by rewrite (nth_take _ Hik) (nth_map 0%N) ?size_iota // nth_iota.
  - apply: (@eq_from_nth _ x0).
    + by rewrite size_drop size_map size_iota.
    + move=> i. rewrite size_drop => Hi.
      by rewrite nth_drop (nth_map 0%N) ?size_iota // nth_iota.
Qed.

(** X10: on an (n+1) x (n+1) matrix, with the excluded row and column in
    range, MatrixMath.getMinor returns the n x n matrix whose entry (i, j)
    is the entry of the matrix at (i, j), each index moved up by one from
    the excluded one on; MatrixInverse.calculateMinor returns the same
    matrix. *)
Theorem minor_of_square (n : nat) (A : Matrix) (r c : nat) :
  square n.+1 A -> (r < n.+1)%N -> (c < n.+1)%N ->
  [/\ square n (MatrixMath.getMinor A r c),
      forall i j, nget (MatrixMath.getMinor A r c) i j
                  = nget A (bump r i) (bump c j)
    & MatrixInverse.calculateMinor A r c = MatrixMath.getMinor A r c].
Proof.
  move=> HA Hr Hc. case: (squareP HA) => Hs Hrows.
  have Hsz : size (filter_index r A) = n by rewrite size_filter_index ?Hs.
  split.
  - rewrite /square /MatrixMath.getMinor size_map Hsz eqxx /=.
    apply/(all_nthP [::]) => i. rewrite size_map Hsz => Hi.
    rewrite (nth_map [::]) ?Hsz // nth_filter_index size_filter_index.
    + by rewrite Hrows // bump_lt.
    + by rewrite Hrows // bump_lt.
  - move=> i j. rewrite /nget /MatrixMath.getMinor.
    have -> : nth [::] [seq filter_index c row | row <- filter_index r A] i
              = filter_index c (nth [::] (filter_index r A) i).
    { case: (ltnP i (size (filter_index r A))) => Hi.
      - by rewrite (nth_map [::]).
      - by rewrite !nth_default // size_map. }
    by rewrite !nth_filter_index.
  - rewrite /MatrixInverse.calculateMinor /MatrixMath.getMinor.
    rewrite (filter_index_mkseq [::] r A) -map_comp Hs.
    apply/eq_in_map => i. rewrite mem_filter mem_iota add0n
      => /andP [_ /andP [_ Hi]] /=.
    by rewrite (filter_index_mkseq S754_nan c (nth [::] A i)) Hrows.
Qed.

Lemma minor_of_square_witness :
  [/\ square 1 (MatrixMath.getMinor sampleMatrix 0 1),
      forall i j, nget (MatrixMath.getMinor sampleMatrix 0 1) i j
                  = nget sampleMatrix (bump 0 i) (bump 1 j)
    & MatrixInverse.calculateMinor sampleMatrix 0 1
      = MatrixMath.getMinor sampleMatrix 0 1].
Proof. exact: (@minor_of_square 1 sampleMatrix 0 1 isT isT isT). Defined.

Lemma nget_transposeMatrix (n : nat) (A : Matrix) (i j : nat) :
  square n A -> (i < n)%N -> (j < n)%N ->
  nget (MatrixInverse.transposeMatrix A) i j = nget A j i.
Proof.
  move=> HA Hi Hj. case: (squareP HA) => Hs Hrows.
  rewrite /nget /MatrixInverse.transposeMatrix Hs.
  rewrite (nth_map 0%N) ?size_iota // nth_iota // add0n.
  by rewrite (nth_map 0%N) ?size_iota // nth_iota.
Qed.

Lemma square_transposeMatrix (n : nat) (A : Matrix) :
  square n A -> square n (MatrixInverse.transposeMatrix A).
Proof.
  move=> HA. case: (squareP HA) => Hs Hrows.
  rewrite /square /MatrixInverse.transposeMatrix Hs size_map size_iota
          eqxx /=.
  apply/(all_nthP [::]) => i. rewrite size_map size_iota => Hi.
  by rewrite (nth_map 0%N) ?size_iota // size_map size_iota.
Qed.

(** X11: on an n x n matrix, transposeMatrix returns the n x n matrix whose
    entry (i, j) is the entry (j, i), and transposing twice gives the matrix
    back. *)
Theorem transpose_of_square (n : nat) (A : Matrix) :
  square n A ->
  [/\ square n (MatrixInverse.transposeMatrix A),
      forall i j, (i < n)%N -> (j < n)%N ->
        nget (MatrixInverse.transposeMatrix A) i j = nget A j i
    & MatrixInverse.transposeMatrix (MatrixInverse.transposeMatrix A) = A].
Proof.
  move=> HA. case: (squareP HA) => Hs Hrows.
  have Hsq := square_transposeMatrix HA.
  have Hsq2 := square_transposeMatrix Hsq.
  split=> //.
  - move=> i j Hi Hj. exact: (nget_transposeMatrix HA).
  - case: (squareP Hsq2) => Hs2 Hrows2.
    apply: (@eq_from_nth _ [::]); first by rewrite Hs2 Hs.
    move=> i. rewrite Hs2 => Hi.
    apply: (@eq_from_nth _ S754_nan); first by rewrite Hrows2 ?Hrows.
    move=> j. rewrite Hrows2 // => Hj.
    rewrite -!/(nget _ i j) (nget_transposeMatrix Hsq Hi Hj).
    exact: (nget_transposeMatrix HA).
Qed.

Lemma transpose_of_square_witness :
  MatrixInverse.transposeMatrix (MatrixInverse.transposeMatrix sampleMatrix)
  = sampleMatrix.
Proof.
  by case: (@transpose_of_square 2 sampleMatrix isT).
Defined.

End Minors.

(** * The identity matrix and the augmented matrix *)

Section Identity.

Import GRing.Theory.
Local Open Scope ring_scope.

Lemma mapM_map (A B C : Type) (g : A -> B) (f : B -> option C) (s : seq A) :
  mapM f [seq g a | a <- s] = mapM (fun a => f (g a)) s.
Proof. by elim: s => [|a s IH] //=; rewrite IH. Qed.

Lemma mapM_some (A B : Type) (f : A -> option B) (h : A -> B) (s : seq A) :
  (forall a, f a = Some (h a)) -> mapM f s = Some [seq h a | a <- s].
Proof. by move=> H; elim: s => [|a s IH] //=; rewrite H /= IH. Qed.

Lemma eq_mapM (A B : Type) (f g : A -> option B) (s : seq A) :
  (forall a, f a = g a) -> mapM f s = mapM g s.
Proof. by move=> H; elim: s => [|a s IH] //=; rewrite H IH. Qed.

Lemma fromNumberMatrix_identity (n : nat) :
  FractionMatrixUtils.fromNumberMatrix (MatrixMath.createIdentityMatrix n)
  = Some (identityFractions n).
Proof.
  rewrite /FractionMatrixUtils.fromNumberMatrix
          /MatrixMath.createIdentityMatrix mapM_map.
  apply: mapM_some => i. rewrite mapM_map. apply: mapM_some => j.
  by case: (i == j); vm_compute.
Qed.

Lemma createIdentityMatrix_identity (n : nat) :
  FractionMatrixUtils.createIdentityMatrix n = Some (identityFractions n).
Proof.
  rewrite /FractionMatrixUtils.createIdentityMatrix.
  apply: mapM_some => i. apply: mapM_some => j.
  by case: (i == j); vm_compute.
Qed.

Lemma fget_identity (n i j : nat) :
  (i < n)%N -> (j < n)%N ->
  fget (identityFractions n) i j
  = if i == j then mkFraction 1 1 else mkFraction 0 1.
Proof.
  move=> Hi Hj. rewrite /fget /identityFractions.
  rewrite (nth_map 0%N) ?size_iota // nth_iota // add0n.
  by rewrite (nth_map 0%N) ?size_iota // nth_iota.
Qed.

Lemma wfm_identity (n : nat) : wfm n (identityFractions n).
Proof.
  split.
  - by rewrite /identityFractions size_map size_iota.
  - move=> i Hi. rewrite /identityFractions (nth_map 0%N) ?size_iota //.
    by rewrite size_map size_iota.
  - move=> i j Hi Hj. rewrite fget_identity //. by case: (i == j).
Qed.

Lemma mx_identity (n : nat) : mx n (identityFractions n) = 1%:M.
Proof.
  apply/matrixP => i j. rewrite !mxE /entry fget_identity // -val_eqE /=.
  case: (_ == _); by rewrite /qval /= ?ZQ1 ?ZQ0 ?divr1 ?mul0r.
Qed.

(** X12: for every size from 1 on, MatrixMath.createIdentityMatrix converts
    to the matrix FractionMatrixUtils.createIdentityMatrix returns, and
    both exact determinant engines return 1/1 on it. *)
Theorem identity_determinant (n : nat) :
  [/\ FractionMatrixUtils.fromNumberMatrix
        (MatrixMath.createIdentityMatrix n.+1)
      = FractionMatrixUtils.createIdentityMatrix n.+1,
      LaplaceExpansionFractions.calculateDeterminant
        (MatrixMath.createIdentityMatrix n.+1) = Some (mkFraction 1 1)
    & GaussianEliminationFractions.calculateDeterminant
        (MatrixMath.createIdentityMatrix n.+1) = Some (mkFraction 1 1)].
Proof.
  have H1 : reduced (mkFraction 1 1) by split.
  have Hv1 : qval (mkFraction 1 1) = 1 by rewrite /qval /= ZQ1 divr1.
  split.
  - by rewrite fromNumberMatrix_identity createIdentityMatrix_identity.
  - rewrite /LaplaceExpansionFractions.calculateDeterminant
            fromNumberMatrix_identity /=.
    case: (laplace_determinantOf_qval (wfm_identity n.+1)) => d [-> Hd Hv].
    congr Some. apply: qval_inj => //. by rewrite Hv mx_identity det1 Hv1.
  - rewrite /GaussianEliminationFractions.calculateDeterminant
            fromNumberMatrix_identity /=.
    case: (gauss_determinantOf_qval (wfm_identity n.+1)) => d [-> Hd Hv].
    congr Some. apply: qval_inj => //. by rewrite Hv mx_identity det1 Hv1.
Qed.

End Identity.

Section Augmented.

(** X13: the augmented matrix of createAugmentedMatrix has the rows of the
    coefficient matrix, each followed by its constant, and dropping the
    last entry of each row, as the Gauss-Jordan steps do, gives the
    coefficient matrix back. *)
Theorem augmented_matrix_round_trip (coeffMatrix : FractionMatrix)
  (constants : FractionVector) :
  let augmented :=
    FractionMatrixUtils.createAugmentedMatrix coeffMatrix constants in
  [/\ size augmented = size coeffMatrix,
      forall i, (i < size coeffMatrix)%N ->
        nth [::] augmented i
        = rcons (nth [::] coeffMatrix i) (nth noFraction constants i)
    & GaussJordanFractions.coefficients augmented = coeffMatrix].
Proof.
  rewrite /= /FractionMatrixUtils.createAugmentedMatrix.
  have Hnth : forall i, (i < size coeffMatrix)%N ->
      nth [::] [seq rcons (nth [::] coeffMatrix i)
                          (nth noFraction constants i)
               | i <- iota 0 (size coeffMatrix)] i
      = rcons (nth [::] coeffMatrix i) (nth noFraction constants i).
  { move=> i Hi. by rewrite (nth_map 0%N) ?size_iota // nth_iota. }
  split=> //.
  - by rewrite size_map size_iota.
  - rewrite /GaussJordanFractions.coefficients.
    apply: (@eq_from_nth _ [::]); first by rewrite !size_map size_iota.
    move=> i. rewrite !size_map size_iota => Hi.
    rewrite (nth_map [::]) ?size_map ?size_iota // Hnth //.
    by rewrite size_rcons subn1 /= -cats1 take_size_cat.
Qed.

End Augmented.

(** * cloneMatrix on arrays: a deep copy *)

Section DeepCopy.

Lemma read_cat (s t : Store.store) (r : Store.ref) :
  r < size s -> Store.read (s ++ t) r = Store.read s r.
Proof.
  move=> Hr. rewrite /Store.read size_cat Hr (ltn_addr _ Hr).
  by rewrite nth_cat Hr.
Qed.

Lemma read_some_lt (s : Store.store) (r : Store.ref) (o : Store.object) :
  Store.read s r = Some o -> r < size s.
Proof. rewrite /Store.read. by case: (r < size s). Qed.

Lemma readRow_cat (s t : Store.store) (r : Store.ref)
  (elements : seq JS.number) :
  Store.readRow s r = Some elements ->
  Store.readRow (s ++ t) r = Some elements.
Proof.
  rewrite /Store.readRow. case Hr: (Store.read s r) => [o|] //.
  by rewrite (read_cat _ (read_some_lt Hr)) Hr.
Qed.

Lemma readMatrix_cat (s t : Store.store) (m : Store.ref) (value : Matrix) :
  Store.readMatrix s m = Some value ->
  Store.readMatrix (s ++ t) m = Some value.
Proof.
  rewrite /Store.readMatrix. case Hm: (Store.read s m) => [[elements|rows]|] //.
  rewrite (read_cat _ (read_some_lt Hm)) Hm.
  elim: rows value {Hm} => [|r rows IH] value //=.
  case Hr: (Store.readRow s r) => [elements|] //=.
  rewrite (readRow_cat t Hr) /=.
  case Hrows: (mapM (Store.readRow s) rows) => [rest|] //=.
  by rewrite (IH rest Hrows).
Qed.

(** What allocMatrix appends: one array per row, then the array of their
    references. *)
Lemma allocMatrix_cat (s : Store.store) (matrix : Matrix) :
  Store.allocMatrix s matrix
  = (s ++ [seq Store.NumberArray elements | elements <- matrix]
       ++ [:: Store.RowArray (iota (size s) (size matrix))],
     size s + size matrix).
Proof.
  rewrite /Store.allocMatrix.
  have H : forall (M : Matrix) (s0 : Store.store) (rows : seq Store.ref),
      foldl (fun '(s, rows) elements =>
               let '(s, r) := Store.alloc s (Store.NumberArray elements) in
               (s, rcons rows r))
            (s0, rows) M
      = (s0 ++ [seq Store.NumberArray elements | elements <- M],
         rows ++ iota (size s0) (size M)).
  { elim=> [|row M IH] s0 rows /=; first by rewrite !cats0.
    rewrite IH /Store.alloc size_rcons -cats1 -catA /=.
    by rewrite -cats1 -catA. }
  rewrite H /Store.alloc /= size_cat size_map.
  by rewrite -cats1 catA.
Qed.

Lemma readRow_fresh (s t : Store.store) (matrix : Matrix) (k : nat) :
  k < size matrix ->
  Store.readRow
    (s ++ [seq Store.NumberArray elements | elements <- matrix] ++ t)
    (size s + k)
  = Some (nth [::] matrix k).
Proof.
  move=> Hk. rewrite /Store.readRow /Store.read !size_cat size_map.
  have -> : size s + k < size s + (size matrix + size t).
  { by rewrite ltn_add2l ltn_addr. }
  rewrite nth_cat ltnNge leq_addr /= addKn nth_cat size_map Hk.
  by rewrite (nth_map [::]).
Qed.

Lemma readMatrix_fresh (s : Store.store) (matrix : Matrix) :
  Store.readMatrix (Store.allocMatrix s matrix).1
                   (Store.allocMatrix s matrix).2
  = Some matrix.
Proof.
  rewrite allocMatrix_cat /= /Store.readMatrix /Store.read.
  rewrite !size_cat size_map /= addn1 ltn_add2l ltnSn.
  rewrite catA nth_cat size_cat size_map ltnn subnn /=.
  rewrite -catA.
  set t := [:: _].
  have H : forall k l, k + l = size matrix ->
      mapM (Store.readRow
              (s ++ [seq Store.NumberArray elements | elements <- matrix]
                 ++ t))
           (iota (size s + k) l)
      = Some (drop k matrix).
  { move=> k l. elim: l k => [|l IH] k Hkl /=.
    - rewrite addn0 in Hkl. by rewrite Hkl drop_size.
    - have Hk : k < size matrix by rewrite -Hkl addnS ltnS leq_addr.
      have Hkl' : k.+1 + l = size matrix by rewrite addSnnS.
      rewrite (readRow_fresh _ _ Hk) /= -addnS (IH _ Hkl') /=.
      by rewrite (drop_nth [::] Hk). }
  have := H 0 (size matrix) (add0n _). by rewrite addn0 drop0.
Qed.

Lemma mapM_id_map (matrix : Matrix) :
  MatrixMath.cloneMatrix matrix = matrix.
Proof.
  rewrite /MatrixMath.cloneMatrix.
  elim: matrix => [|row matrix IH] //=. by rewrite IH map_id.
Qed.

(** Reading a matrix whose arrays are all other than the one written. *)
Lemma readMatrix_set_nth (s : Store.store) (r : Store.ref)
  (o : Store.object) (m : Store.ref) (rows : seq Store.ref) :
  r < size s ->
  Store.read s m = Some (Store.RowArray rows) ->
  m != r -> r \notin rows ->
  Store.readMatrix (set_nth (Store.RowArray [::]) s r o) m
  = Store.readMatrix s m.
Proof.
  move=> Hr Hm Hmr Hrows.
  have Hsz : size (set_nth (Store.RowArray [::]) s r o) = size s.
  { rewrite size_set_nth. exact/maxn_idPr. }
  have Hread : forall q, q != r ->
      Store.read (set_nth (Store.RowArray [::]) s r o) q = Store.read s q.
  { move=> q Hq. by rewrite /Store.read Hsz nth_set_nth /= (negbTE Hq). }
  rewrite /Store.readMatrix (Hread _ Hmr) Hm.
  elim: rows Hrows {Hm} => [|q rows IH] //=.
  rewrite in_cons negb_or => /andP [Hqr Hrows].
  have Hq : q != r by rewrite eq_sym.
  rewrite /Store.readRow (Hread _ Hq).
  case: (Store.read s q) => [[elements|rows']|] //=.
  by rewrite -/(Store.readRow _) IH.
Qed.

Lemma readMatrix_rows_lt (s : Store.store) (m : Store.ref)
  (rows : seq Store.ref) (value : Matrix) :
  Store.read s m = Some (Store.RowArray rows) ->
  Store.readMatrix s m = Some value ->
  all (fun r => r < size s) rows.
Proof.
  rewrite /Store.readMatrix => ->.
  elim: rows value => [|r rows IH] value //=.
  case Hr: (Store.readRow s r) => [elements|] //=.
  case Hrows: (mapM (Store.readRow s) rows) => [rest|] //= _.
  rewrite (IH rest Hrows) andbT.
  move: Hr. rewrite /Store.readRow.
  case Hread: (Store.read s r) => [o|] // _. exact: (read_some_lt Hread).
Qed.

(** X14: Store.cloneMatrix, the reading of MatrixMath.cloneMatrix on
    arrays, returns a new array with the value of its argument, and the
    two share nothing: a write through either leaves what the other
    shows unchanged. *)
Theorem cloneMatrix_shares_nothing (s : Store.store) (m : Store.ref)
  (value : Matrix) :
  Store.readMatrix s m = Some value ->
  exists (s' : Store.store) (c : Store.ref),
    [/\ Store.cloneMatrix s m = Some (s', c),
        c != m,
        Store.readMatrix s' c = Some value /\ Store.readMatrix s' m = Some value,
        forall i j v s'', Store.writeEntry s' m i j v = Some s'' ->
                          Store.readMatrix s'' c = Some value
      & forall i j v s'', Store.writeEntry s' c i j v = Some s'' ->
                          Store.readMatrix s'' m = Some value].
Proof.
  move=> Hvalue.
  have Hm : exists rows, Store.read s m = Some (Store.RowArray rows).
  { move: Hvalue. rewrite /Store.readMatrix.
    case: (Store.read s m) => [[elements|rows]|] // _. by exists rows. }
  case: Hm => rows Hm.
  have Hmlt := read_some_lt Hm.
  have Hrowslt := readMatrix_rows_lt Hm Hvalue.
  rewrite /Store.cloneMatrix Hvalue /= mapM_id_map.
  have Hc := readMatrix_fresh s value.
  move: Hc. rewrite allocMatrix_cat /=.
  set t := ([seq Store.NumberArray elements | elements <- value] ++ _).
  set c := size s + size value. move=> Hc.
  have Hsm : Store.readMatrix (s ++ t) m = Some value
    by exact: readMatrix_cat.
  have Hreadm : Store.read (s ++ t) m = Some (Store.RowArray rows)
    by rewrite read_cat.
  have Hreadc : Store.read (s ++ t) c
                = Some (Store.RowArray (iota (size s) (size value))).
  { rewrite /Store.read /t /c !size_cat size_map /= addn1 ltn_add2l ltnSn.
    rewrite catA nth_cat size_cat size_map ltnn subnn. by []. }
  have Hcm : c != m.
  { by rewrite neq_ltn /c (leq_trans Hmlt (leq_addr _ _)) orbT. }
  exists (s ++ t), c; split=> //.
  - move=> i j v s''. rewrite /Store.writeEntry Hreadm.
    case Hi: (i < size rows) => //.
    set r := nth 0 rows i.
    have Hr : r < size s by move/all_nthP: Hrowslt; apply.
    case: (Store.readRow (s ++ t) r) => [elements|] //= [<-].
    rewrite (@readMatrix_set_nth _ _ _ c (iota (size s) (size value))) //.
    + by rewrite size_cat ltn_addr.
    + by rewrite neq_ltn /c (leq_trans Hr (leq_addr _ _)) orbT.
    + by rewrite mem_iota negb_and -ltnNge Hr.
  - move=> i j v s''. rewrite /Store.writeEntry Hreadc size_iota.
    case Hi: (i < size value) => //.
    rewrite nth_iota //.
    case: (Store.readRow (s ++ t) (size s + i)) => [elements|] //= [<-].
    rewrite (@readMatrix_set_nth _ _ _ m rows) //.
    + by rewrite size_cat /t size_cat size_map ltn_add2l ltn_addr.
    + by rewrite neq_ltn (leq_trans Hmlt (leq_addr _ _)).
    + apply/negP => Hin. move/allP: Hrowslt => /(_ _ Hin).
      by rewrite ltnNge leq_addr.
Qed.

Lemma cloneMatrix_shares_nothing_witness :
  exists (s' : Store.store) (c : Store.ref),
    [/\ Store.cloneMatrix callerStore callerMatrix = Some (s', c),
        c != callerMatrix,
        Store.readMatrix s' c = Some originalMatrix
        /\ Store.readMatrix s' callerMatrix = Some originalMatrix,
        forall i j v s'', Store.writeEntry s' callerMatrix i j v = Some s'' ->
                          Store.readMatrix s'' c = Some originalMatrix
      & forall i j v s'', Store.writeEntry s' c i j v = Some s'' ->
                          Store.readMatrix s'' callerMatrix
                          = Some originalMatrix].
Proof.
  apply: (@cloneMatrix_shares_nothing callerStore callerMatrix originalMatrix).
  vm_compute. reflexivity.
Defined.

End DeepCopy.

(** * The ids of the steps *)

Section StepIds.

Lemma numbered_rcons (A : Type) (idOf : A -> nat) (steps : seq A)
  (stepId : nat) (step : A) :
  numbered idOf steps stepId -> idOf step = stepId ->
  numbered idOf (rcons steps step) stepId.+1.
Proof.
  move=> [Hids Hnext] Hid. split.
  - rewrite map_rcons Hids Hid Hnext size_rcons.
    by rewrite -[(size steps).+1 in RHS]addn1 iotaD /= cats1 add1n.
  - by rewrite size_rcons Hnext.
Qed.

Lemma pushStep_numbered (t : GaussJordanFractions.stepTitle) (r : option nat)
  (st : GaussJordanFractions.state) :
  numberedGJ st -> numberedGJ (GaussJordanFractions.pushStep t r st).
Proof. move=> H. exact: numbered_rcons. Qed.

Lemma pivoting_numbered (n i : nat) (st st' : GaussJordanFractions.state) :
  numberedGJ st -> GaussJordanFractions.pivoting n i st = Some st' ->
  numberedGJ st'.
Proof.
  move=> H. rewrite /GaussJordanFractions.pivoting.
  case: (GaussJordanFractions.findMaxRow _ _ _) => [maxRow|] //=.
  case: (maxRow != i) => -[<-] //. exact: pushStep_numbered.
Qed.

Lemma normalize_numbered (m i : nat) (st st' : GaussJordanFractions.state) :
  numberedGJ st -> GaussJordanFractions.normalize m i st = Some st' ->
  numberedGJ st'.
Proof.
  move=> H. rewrite /GaussJordanFractions.normalize.
  case: (Frac.new 1 1) => [one|] //=.
  case: (~~ _); last by move=> [<-].
  case: (mapM _ _) => [newRow|] //= [<-]. exact: pushStep_numbered.
Qed.

Lemma eliminate_numbered (t : GaussJordanFractions.stepTitle) (m i : nat)
  (ks : seq nat) :
  forall st st' : GaussJordanFractions.state,
    numberedGJ st -> GaussJordanFractions.eliminate t m i ks st = Some st' ->
    numberedGJ st'.
Proof.
  rewrite /GaussJordanFractions.eliminate.
  elim: ks => [|k ks IH] st st' H /=; first by move=> [<-].
  case: (~~ _) => /=; last exact: IH.
  case: (GaussJordanFractions.subtractRow _ _ _ _) => [updated|] //=.
  apply: IH. exact: pushStep_numbered.
Qed.

Lemma forwardLoop_numbered (n m : nat) (columns : seq nat) :
  forall (st : GaussJordanFractions.state) r,
    numberedGJ st ->
    GaussJordanFractions.forwardLoop n m columns st = Some r ->
    match r with
    | inl stopped => exists stepId, numbered GaussJordanFractions.id
                                             stopped stepId
    | inr st' => numberedGJ st'
    end.
Proof.
  elim: columns => [|i columns IH] st r H /=; first by move=> [<-].
  rewrite /GaussJordanFractions.forwardColumn.
  case Hp: (GaussJordanFractions.pivoting n i st) => [st1|] //=.
  have H1 := pivoting_numbered H Hp.
  case: (Frac.isZero _) => /=.
  - move=> [<-]. by exists (GaussJordanFractions.stepId st1).
  - case Hn: (GaussJordanFractions.normalize m i st1) => [st2|] //=.
    have H2 := normalize_numbered H1 Hn.
    case He: (GaussJordanFractions.eliminate _ _ _ _ _) => [st3|] //=.
    apply: IH. exact: (eliminate_numbered H2 He).
Qed.

Lemma backwardLoop_numbered (n m : nat) (st st' : GaussJordanFractions.state) :
  numberedGJ st -> GaussJordanFractions.backwardLoop n m st = Some st' ->
  numberedGJ st'.
Proof.
  rewrite /GaussJordanFractions.backwardLoop.
  elim: (rev (iota 0 n)) st => [|i rest IH] st H /=; first by move=> [<-].
  case He: (GaussJordanFractions.eliminate _ _ _ _ _) => [st1|] //=.
  apply: IH. exact: (eliminate_numbered H He).
Qed.

Lemma pushSnapshot_numbered (t : GaussJordanDeterminant.stepTitle)
  (st : GaussJordanDeterminant.state) :
  numberedGJD st -> numberedGJD (GaussJordanDeterminant.pushSnapshot t st).
Proof.
  move=> H. rewrite /numberedGJD /GaussJordanDeterminant.pushSnapshot.
  case: (Store.allocMatrix _ _) => s r /=. exact: numbered_rcons.
Qed.

Lemma column_numbered (n i : nat) (st : GaussJordanDeterminant.state) r :
  numberedGJD st -> GaussJordanDeterminant.column n i st = Some r ->
  numberedResult r.
Proof.
  move=> H. rewrite /GaussJordanDeterminant.column.
  case: (GaussJordanDeterminant.findPivotRow _ _ _) => [pivotRow|] //=.
  case: ifP => _.
  - move=> [<-] /=.
    have := pushSnapshot_numbered GaussJordanDeterminant.DeterminanteCero H.
    move=> H'. by exists (GaussJordanDeterminant.stepId
                            (GaussJordanDeterminant.pushSnapshot
                               GaussJordanDeterminant.DeterminanteCero st)).
  - set st1 := (X in Frac.multiply (GaussJordanDeterminant.determinant X)).
    have H1 : numberedGJD st1.
    { rewrite /st1. case: (pivotRow != i) => //.
      exact: pushSnapshot_numbered. }
    case: (Frac.multiply _ _) => [determinant|] //=.
    case: (GaussJordanDeterminant.eliminateBelow _ _ _ _)
      => [[eliminated hasElimination]|] //= [<-].
    case: hasElimination => //=. exact: pushSnapshot_numbered.
Qed.

Lemma forward_numbered (n : nat) (columns : seq nat) :
  forall acc r,
    numberedResult acc ->
    foldM (fun acc i =>
             match acc with
             | inl r => Some (inl r)
             | inr st => GaussJordanDeterminant.column n i st
             end) columns acc = Some r ->
    numberedResult r.
Proof.
  elim: columns => [|i columns IH] acc r Hacc /=; first by move=> [<-].
  case: acc Hacc => [early|st] Hacc /=; first exact: IH.
  case Hc: (GaussJordanDeterminant.column n i st) => [acc'|] //=.
  apply: IH. exact: (column_numbered Hacc Hc).
Qed.

(** X15: the steps GaussJordanFractions.solve and
    GaussJordanDeterminant.calculateDeterminant return are numbered 1, 2,
    3, ... in the order they were pushed, whichever way the run ends. *)
Theorem step_ids_are_consecutive :
  (forall matrix constants steps s,
      GaussJordanFractions.solve matrix constants = Some (steps, s) ->
      [seq GaussJordanFractions.id step | step <- steps]
      = iota 1 (size steps))
  /\ (forall s matrix s' steps d,
         GaussJordanDeterminant.calculateDeterminant s matrix
         = Some (s', steps, d) ->
         [seq GaussJordanDeterminant.id step | step <- steps]
         = iota 1 (size steps)).
Proof.
  split.
  - move=> matrix constants steps s.
    rewrite /GaussJordanFractions.solve.
    case: (FractionMatrixUtils.fromNumberMatrix _) => [fm|] //=.
    case: (FractionMatrixUtils.fromNumberVector _) => [fc|] //=.
    case: (size matrix == 0) => //.
    have H0 : numberedGJ (GaussJordanFractions.initialState fm fc) by [].
    case Hf: (GaussJordanFractions.forwardLoop _ _ _ _) => [r|] //=.
    have Hr := forwardLoop_numbered H0 Hf.
    case: r Hr {Hf} => [stopped|st] Hr.
    + move=> [<- _]. by case: Hr => stepId [Hids _].
    + case Hb: (GaussJordanFractions.backwardLoop _ _ _) => [st'|] //=.
      move=> [<- _]. by case: (backwardLoop_numbered Hr Hb).
  - move=> s matrix s' steps d.
    rewrite /GaussJordanDeterminant.calculateDeterminant.
    case: (Store.readMatrix s matrix) => [value|] //=.
    case: (FractionMatrixUtils.fromNumberMatrix value) => [fm|] //=.
    case: (FractionMatrixUtils.cloneMatrix fm) => [wm|] //=.
    case Hf: (GaussJordanDeterminant.forward _ _) => [r|] //=.
    have Hr : numberedResult r.
    { apply: (forward_numbered _ Hf). by []. }
    case: r Hr {Hf} => [[[s1 steps1] d1]|st] /= Hr.
    + move=> [_ <- _]. by case: Hr => stepId [Hids _].
    + case: (if odd _ then _ else _) => [d1|] //= [_ <- _].
      by case: (pushSnapshot_numbered
                  GaussJordanDeterminant.DeterminanteFinal Hr).
Qed.

Lemma step_ids_are_consecutive_witness :
  exists steps s,
    GaussJordanFractions.solve sampleMatrix sampleConstants = Some (steps, s)
    /\ [seq GaussJordanFractions.id step | step <- steps]
       = iota 1 (size steps).
Proof.
  do 2 eexists. split; first by vm_compute; reflexivity.
  apply: (proj1 step_ids_are_consecutive sampleMatrix sampleConstants).
  vm_compute; reflexivity.
Defined.

End StepIds.

(** * Gauss-Jordan on exact fractions solves the system *)

Section AugmentedRows.

Import GRing.Theory.
Local Open Scope ring_scope.






End AugmentedRows.

Section GaussJordanPhases.

Import GRing.Theory.
Local Open Scope ring_scope.




End GaussJordanPhases.

Section RowEquivalence.

Import GRing.Theory.
Local Open Scope ring_scope.

Lemma sameSolutions_refl (n : nat) (W : FractionMatrix) : sameSolutions n W W.
Proof. by []. Qed.





End RowEquivalence.

Section GaussJordanInvariants.

Import GRing.Theory.
Local Open Scope ring_scope.






End GaussJordanInvariants.

Section GaussJordanBackward.

Import GRing.Theory.
Local Open Scope ring_scope.







End GaussJordanBackward.

Section GaussJordanSolves.

Import GRing.Theory.
Local Open Scope ring_scope.




End GaussJordanSolves.
